(** * ARIA block cipher (RFC 5794): a shallow embedding of [aria.c]

    The 128-bit block [aria_u128_t] is a pair of [uint64_t] halves, modelled
    as a record of two integers; every C operation on [uint64_t] is written
    with its wrap-around modulo [2^64], and the [uint8_t] temporaries of the
    diffusion layer with their truncation modulo [2^8].  The round-key array
    [aria_u128_t ek[18]] lives in a memory of arrays and is passed by its
    address, as in C; the functions that write it update it in place.  A
    read or a write outside an array has no defined result in C and yields
    [None] here.  The test program that [aria.c] has under [ARIA_TEST] is
    embedded in the module [ARIA_TEST]. *)

From Stdlib Require Import ZArith List Lia Btauto Bool.
From Stdlib Require String Ascii.
From stdpp Require Import base list option gmap.

Local Open Scope Z_scope.

(** ** Machine integers *)

(** The conversions [(uint64_t)e] and [(uint8_t)e]. *)
Definition uint64_t (z : Z) : Z := z mod 2 ^ 64.
Definition uint8_t (z : Z) : Z := z mod 2 ^ 8.

(** [a << n] on [uint64_t]: the bits shifted out at the top are lost. *)
Definition shl64 (a n : Z) : Z := Z.shiftl a n mod 2 ^ 64.

Declare Scope c_scope.
Delimit Scope c_scope with C.
Infix "<<" := shl64 (at level 32, left associativity) : c_scope.
Infix ">>" := Z.shiftr (at level 32, left associativity) : c_scope.
Infix ".&" := Z.land (at level 34, left associativity) : c_scope.
Infix ".^" := Z.lxor (at level 36, left associativity) : c_scope.
Infix ".|" := Z.lor (at level 38, left associativity) : c_scope.
Local Open Scope c_scope.

(** ** Blocks: [typedef struct aria_u128_s { uint64_t left; uint64_t right; }] *)

Record aria_u128_t : Type := mk128 { left : Z; right : Z }.

(** The values a C object of this type can hold. *)
Definition is_u64 (z : Z) : Prop := 0 <= z < 2 ^ 64.
Definition is_u8 (z : Z) : Prop := 0 <= z < 2 ^ 8.
Definition wf128 (x : aria_u128_t) : Prop := is_u64 (left x) /\ is_u64 (right x).

(** [rol] and [ror]: circular rotations, for [0 < cnt < 64]. *)
Definition rol (x : aria_u128_t) (cnt : Z) : aria_u128_t :=
  {| left  := (left x  << cnt) .| (right x >> (64 - cnt));
     right := (right x << cnt) .| (left x  >> (64 - cnt)) |}.

Definition ror (x : aria_u128_t) (cnt : Z) : aria_u128_t :=
  {| left  := (left x  >> cnt) .| (right x << (64 - cnt));
     right := (right x >> cnt) .| (left x  << (64 - cnt)) |}.

Definition xor (x y : aria_u128_t) : aria_u128_t :=
  {| left  := left x  .^ left y;
     right := right x .^ right y |}.

(** ** Substitution tables *)

Definition SB1 : list Z :=
  [
   0x63; 0x7c; 0x77; 0x7b; 0xf2; 0x6b; 0x6f; 0xc5; 0x30; 0x01; 0x67; 0x2b; 0xfe; 0xd7; 0xab; 0x76;
   0xca; 0x82; 0xc9; 0x7d; 0xfa; 0x59; 0x47; 0xf0; 0xad; 0xd4; 0xa2; 0xaf; 0x9c; 0xa4; 0x72; 0xc0;
   0xb7; 0xfd; 0x93; 0x26; 0x36; 0x3f; 0xf7; 0xcc; 0x34; 0xa5; 0xe5; 0xf1; 0x71; 0xd8; 0x31; 0x15;
   0x04; 0xc7; 0x23; 0xc3; 0x18; 0x96; 0x05; 0x9a; 0x07; 0x12; 0x80; 0xe2; 0xeb; 0x27; 0xb2; 0x75;
   0x09; 0x83; 0x2c; 0x1a; 0x1b; 0x6e; 0x5a; 0xa0; 0x52; 0x3b; 0xd6; 0xb3; 0x29; 0xe3; 0x2f; 0x84;
   0x53; 0xd1; 0x00; 0xed; 0x20; 0xfc; 0xb1; 0x5b; 0x6a; 0xcb; 0xbe; 0x39; 0x4a; 0x4c; 0x58; 0xcf;
   0xd0; 0xef; 0xaa; 0xfb; 0x43; 0x4d; 0x33; 0x85; 0x45; 0xf9; 0x02; 0x7f; 0x50; 0x3c; 0x9f; 0xa8;
   0x51; 0xa3; 0x40; 0x8f; 0x92; 0x9d; 0x38; 0xf5; 0xbc; 0xb6; 0xda; 0x21; 0x10; 0xff; 0xf3; 0xd2;
   0xcd; 0x0c; 0x13; 0xec; 0x5f; 0x97; 0x44; 0x17; 0xc4; 0xa7; 0x7e; 0x3d; 0x64; 0x5d; 0x19; 0x73;
   0x60; 0x81; 0x4f; 0xdc; 0x22; 0x2a; 0x90; 0x88; 0x46; 0xee; 0xb8; 0x14; 0xde; 0x5e; 0x0b; 0xdb;
   0xe0; 0x32; 0x3a; 0x0a; 0x49; 0x06; 0x24; 0x5c; 0xc2; 0xd3; 0xac; 0x62; 0x91; 0x95; 0xe4; 0x79;
   0xe7; 0xc8; 0x37; 0x6d; 0x8d; 0xd5; 0x4e; 0xa9; 0x6c; 0x56; 0xf4; 0xea; 0x65; 0x7a; 0xae; 0x08;
   0xba; 0x78; 0x25; 0x2e; 0x1c; 0xa6; 0xb4; 0xc6; 0xe8; 0xdd; 0x74; 0x1f; 0x4b; 0xbd; 0x8b; 0x8a;
   0x70; 0x3e; 0xb5; 0x66; 0x48; 0x03; 0xf6; 0x0e; 0x61; 0x35; 0x57; 0xb9; 0x86; 0xc1; 0x1d; 0x9e;
   0xe1; 0xf8; 0x98; 0x11; 0x69; 0xd9; 0x8e; 0x94; 0x9b; 0x1e; 0x87; 0xe9; 0xce; 0x55; 0x28; 0xdf;
   0x8c; 0xa1; 0x89; 0x0d; 0xbf; 0xe6; 0x42; 0x68; 0x41; 0x99; 0x2d; 0x0f; 0xb0; 0x54; 0xbb; 0x16
  ].

Definition SB2 : list Z :=
  [
   0xe2; 0x4e; 0x54; 0xfc; 0x94; 0xc2; 0x4a; 0xcc; 0x62; 0x0d; 0x6a; 0x46; 0x3c; 0x4d; 0x8b; 0xd1;
   0x5e; 0xfa; 0x64; 0xcb; 0xb4; 0x97; 0xbe; 0x2b; 0xbc; 0x77; 0x2e; 0x03; 0xd3; 0x19; 0x59; 0xc1;
   0x1d; 0x06; 0x41; 0x6b; 0x55; 0xf0; 0x99; 0x69; 0xea; 0x9c; 0x18; 0xae; 0x63; 0xdf; 0xe7; 0xbb;
   0x00; 0x73; 0x66; 0xfb; 0x96; 0x4c; 0x85; 0xe4; 0x3a; 0x09; 0x45; 0xaa; 0x0f; 0xee; 0x10; 0xeb;
   0x2d; 0x7f; 0xf4; 0x29; 0xac; 0xcf; 0xad; 0x91; 0x8d; 0x78; 0xc8; 0x95; 0xf9; 0x2f; 0xce; 0xcd;
   0x08; 0x7a; 0x88; 0x38; 0x5c; 0x83; 0x2a; 0x28; 0x47; 0xdb; 0xb8; 0xc7; 0x93; 0xa4; 0x12; 0x53;
   0xff; 0x87; 0x0e; 0x31; 0x36; 0x21; 0x58; 0x48; 0x01; 0x8e; 0x37; 0x74; 0x32; 0xca; 0xe9; 0xb1;
   0xb7; 0xab; 0x0c; 0xd7; 0xc4; 0x56; 0x42; 0x26; 0x07; 0x98; 0x60; 0xd9; 0xb6; 0xb9; 0x11; 0x40;
   0xec; 0x20; 0x8c; 0xbd; 0xa0; 0xc9; 0x84; 0x04; 0x49; 0x23; 0xf1; 0x4f; 0x50; 0x1f; 0x13; 0xdc;
   0xd8; 0xc0; 0x9e; 0x57; 0xe3; 0xc3; 0x7b; 0x65; 0x3b; 0x02; 0x8f; 0x3e; 0xe8; 0x25; 0x92; 0xe5;
   0x15; 0xdd; 0xfd; 0x17; 0xa9; 0xbf; 0xd4; 0x9a; 0x7e; 0xc5; 0x39; 0x67; 0xfe; 0x76; 0x9d; 0x43;
   0xa7; 0xe1; 0xd0; 0xf5; 0x68; 0xf2; 0x1b; 0x34; 0x70; 0x05; 0xa3; 0x8a; 0xd5; 0x79; 0x86; 0xa8;
   0x30; 0xc6; 0x51; 0x4b; 0x1e; 0xa6; 0x27; 0xf6; 0x35; 0xd2; 0x6e; 0x24; 0x16; 0x82; 0x5f; 0xda;
   0xe6; 0x75; 0xa2; 0xef; 0x2c; 0xb2; 0x1c; 0x9f; 0x5d; 0x6f; 0x80; 0x0a; 0x72; 0x44; 0x9b; 0x6c;
   0x90; 0x0b; 0x5b; 0x33; 0x7d; 0x5a; 0x52; 0xf3; 0x61; 0xa1; 0xf7; 0xb0; 0xd6; 0x3f; 0x7c; 0x6d;
   0xed; 0x14; 0xe0; 0xa5; 0x3d; 0x22; 0xb3; 0xf8; 0x89; 0xde; 0x71; 0x1a; 0xaf; 0xba; 0xb5; 0x81
  ].

Definition SB3 : list Z :=
  [
   0x52; 0x09; 0x6a; 0xd5; 0x30; 0x36; 0xa5; 0x38; 0xbf; 0x40; 0xa3; 0x9e; 0x81; 0xf3; 0xd7; 0xfb;
   0x7c; 0xe3; 0x39; 0x82; 0x9b; 0x2f; 0xff; 0x87; 0x34; 0x8e; 0x43; 0x44; 0xc4; 0xde; 0xe9; 0xcb;
   0x54; 0x7b; 0x94; 0x32; 0xa6; 0xc2; 0x23; 0x3d; 0xee; 0x4c; 0x95; 0x0b; 0x42; 0xfa; 0xc3; 0x4e;
   0x08; 0x2e; 0xa1; 0x66; 0x28; 0xd9; 0x24; 0xb2; 0x76; 0x5b; 0xa2; 0x49; 0x6d; 0x8b; 0xd1; 0x25;
   0x72; 0xf8; 0xf6; 0x64; 0x86; 0x68; 0x98; 0x16; 0xd4; 0xa4; 0x5c; 0xcc; 0x5d; 0x65; 0xb6; 0x92;
   0x6c; 0x70; 0x48; 0x50; 0xfd; 0xed; 0xb9; 0xda; 0x5e; 0x15; 0x46; 0x57; 0xa7; 0x8d; 0x9d; 0x84;
   0x90; 0xd8; 0xab; 0x00; 0x8c; 0xbc; 0xd3; 0x0a; 0xf7; 0xe4; 0x58; 0x05; 0xb8; 0xb3; 0x45; 0x06;
   0xd0; 0x2c; 0x1e; 0x8f; 0xca; 0x3f; 0x0f; 0x02; 0xc1; 0xaf; 0xbd; 0x03; 0x01; 0x13; 0x8a; 0x6b;
   0x3a; 0x91; 0x11; 0x41; 0x4f; 0x67; 0xdc; 0xea; 0x97; 0xf2; 0xcf; 0xce; 0xf0; 0xb4; 0xe6; 0x73;
   0x96; 0xac; 0x74; 0x22; 0xe7; 0xad; 0x35; 0x85; 0xe2; 0xf9; 0x37; 0xe8; 0x1c; 0x75; 0xdf; 0x6e;
   0x47; 0xf1; 0x1a; 0x71; 0x1d; 0x29; 0xc5; 0x89; 0x6f; 0xb7; 0x62; 0x0e; 0xaa; 0x18; 0xbe; 0x1b;
   0xfc; 0x56; 0x3e; 0x4b; 0xc6; 0xd2; 0x79; 0x20; 0x9a; 0xdb; 0xc0; 0xfe; 0x78; 0xcd; 0x5a; 0xf4;
   0x1f; 0xdd; 0xa8; 0x33; 0x88; 0x07; 0xc7; 0x31; 0xb1; 0x12; 0x10; 0x59; 0x27; 0x80; 0xec; 0x5f;
   0x60; 0x51; 0x7f; 0xa9; 0x19; 0xb5; 0x4a; 0x0d; 0x2d; 0xe5; 0x7a; 0x9f; 0x93; 0xc9; 0x9c; 0xef;
   0xa0; 0xe0; 0x3b; 0x4d; 0xae; 0x2a; 0xf5; 0xb0; 0xc8; 0xeb; 0xbb; 0x3c; 0x83; 0x53; 0x99; 0x61;
   0x17; 0x2b; 0x04; 0x7e; 0xba; 0x77; 0xd6; 0x26; 0xe1; 0x69; 0x14; 0x63; 0x55; 0x21; 0x0c; 0x7d
  ].

Definition SB4 : list Z :=
  [
   0x30; 0x68; 0x99; 0x1b; 0x87; 0xb9; 0x21; 0x78; 0x50; 0x39; 0xdb; 0xe1; 0x72; 0x09; 0x62; 0x3c;
   0x3e; 0x7e; 0x5e; 0x8e; 0xf1; 0xa0; 0xcc; 0xa3; 0x2a; 0x1d; 0xfb; 0xb6; 0xd6; 0x20; 0xc4; 0x8d;
   0x81; 0x65; 0xf5; 0x89; 0xcb; 0x9d; 0x77; 0xc6; 0x57; 0x43; 0x56; 0x17; 0xd4; 0x40; 0x1a; 0x4d;
   0xc0; 0x63; 0x6c; 0xe3; 0xb7; 0xc8; 0x64; 0x6a; 0x53; 0xaa; 0x38; 0x98; 0x0c; 0xf4; 0x9b; 0xed;
   0x7f; 0x22; 0x76; 0xaf; 0xdd; 0x3a; 0x0b; 0x58; 0x67; 0x88; 0x06; 0xc3; 0x35; 0x0d; 0x01; 0x8b;
   0x8c; 0xc2; 0xe6; 0x5f; 0x02; 0x24; 0x75; 0x93; 0x66; 0x1e; 0xe5; 0xe2; 0x54; 0xd8; 0x10; 0xce;
   0x7a; 0xe8; 0x08; 0x2c; 0x12; 0x97; 0x32; 0xab; 0xb4; 0x27; 0x0a; 0x23; 0xdf; 0xef; 0xca; 0xd9;
   0xb8; 0xfa; 0xdc; 0x31; 0x6b; 0xd1; 0xad; 0x19; 0x49; 0xbd; 0x51; 0x96; 0xee; 0xe4; 0xa8; 0x41;
   0xda; 0xff; 0xcd; 0x55; 0x86; 0x36; 0xbe; 0x61; 0x52; 0xf8; 0xbb; 0x0e; 0x82; 0x48; 0x69; 0x9a;
   0xe0; 0x47; 0x9e; 0x5c; 0x04; 0x4b; 0x34; 0x15; 0x79; 0x26; 0xa7; 0xde; 0x29; 0xae; 0x92; 0xd7;
   0x84; 0xe9; 0xd2; 0xba; 0x5d; 0xf3; 0xc5; 0xb0; 0xbf; 0xa4; 0x3b; 0x71; 0x44; 0x46; 0x2b; 0xfc;
   0xeb; 0x6f; 0xd5; 0xf6; 0x14; 0xfe; 0x7c; 0x70; 0x5a; 0x7d; 0xfd; 0x2f; 0x18; 0x83; 0x16; 0xa5;
   0x91; 0x1f; 0x05; 0x95; 0x74; 0xa9; 0xc1; 0x5b; 0x4a; 0x85; 0x6d; 0x13; 0x07; 0x4f; 0x4e; 0x45;
   0xb2; 0x0f; 0xc9; 0x1c; 0xa6; 0xbc; 0xec; 0x73; 0x90; 0x7b; 0xcf; 0x59; 0x8f; 0xa1; 0xf9; 0x2d;
   0xf2; 0xb1; 0x00; 0x94; 0x37; 0x9f; 0xd0; 0x2e; 0x9c; 0x6e; 0x28; 0x3f; 0x80; 0xf0; 0x3d; 0xd3;
   0x25; 0x8a; 0xb5; 0xe7; 0x42; 0xb3; 0xc7; 0xea; 0xf7; 0x4c; 0x11; 0x33; 0x03; 0xa2; 0xac; 0x60
  ].

(** [T.[i]] is the C table read [T[i]]. *)
Definition tbl (T : list Z) (i : Z) : Z := nth (Z.to_nat i) T 0.
Notation "T .[ i ]" := (tbl T i) (at level 1, format "T .[ i ]") : c_scope.

(** The byte macros [x0] .. [x15] of a block [x]; [x0] and [x8] carry no
    mask in the source. *)
Definition x0  (x : aria_u128_t) : Z := (left x  >> 56).
Definition x1  (x : aria_u128_t) : Z := (left x  >> 48) .& 0xff.
Definition x2  (x : aria_u128_t) : Z := (left x  >> 40) .& 0xff.
Definition x3  (x : aria_u128_t) : Z := (left x  >> 32) .& 0xff.
Definition x4  (x : aria_u128_t) : Z := (left x  >> 24) .& 0xff.
Definition x5  (x : aria_u128_t) : Z := (left x  >> 16) .& 0xff.
Definition x6  (x : aria_u128_t) : Z := (left x  >>  8) .& 0xff.
Definition x7  (x : aria_u128_t) : Z := (left x       ) .& 0xff.
Definition x8  (x : aria_u128_t) : Z := (right x >> 56).
Definition x9  (x : aria_u128_t) : Z := (right x >> 48) .& 0xff.
Definition x10 (x : aria_u128_t) : Z := (right x >> 40) .& 0xff.
Definition x11 (x : aria_u128_t) : Z := (right x >> 32) .& 0xff.
Definition x12 (x : aria_u128_t) : Z := (right x >> 24) .& 0xff.
Definition x13 (x : aria_u128_t) : Z := (right x >> 16) .& 0xff.
Definition x14 (x : aria_u128_t) : Z := (right x >>  8) .& 0xff.
Definition x15 (x : aria_u128_t) : Z := (right x      ) .& 0xff.

(** ** Substitution layers SL1 and SL2 *)

Definition aria_SL1 (x : aria_u128_t) : aria_u128_t :=
  {| left :=
         (uint64_t (SB1.[x0 x]) << 56)
      .| (uint64_t (SB2.[x1 x]) << 48)
      .| (uint64_t (SB3.[x2 x]) << 40)
      .| (uint64_t (SB4.[x3 x]) << 32)
      .| (uint64_t (SB1.[x4 x]) << 24)
      .| (uint64_t (SB2.[x5 x]) << 16)
      .| (uint64_t (SB3.[x6 x]) << 8)
      .| uint64_t (SB4.[x7 x]);
     right :=
         (uint64_t (SB1.[x8 x]) << 56)
      .| (uint64_t (SB2.[x9 x]) << 48)
      .| (uint64_t (SB3.[x10 x]) << 40)
      .| (uint64_t (SB4.[x11 x]) << 32)
      .| (uint64_t (SB1.[x12 x]) << 24)
      .| (uint64_t (SB2.[x13 x]) << 16)
      .| (uint64_t (SB3.[x14 x]) << 8)
      .| uint64_t (SB4.[x15 x]) |}.

Definition aria_SL2 (x : aria_u128_t) : aria_u128_t :=
  {| left :=
         (uint64_t (SB3.[x0 x]) << 56)
      .| (uint64_t (SB4.[x1 x]) << 48)
      .| (uint64_t (SB1.[x2 x]) << 40)
      .| (uint64_t (SB2.[x3 x]) << 32)
      .| (uint64_t (SB3.[x4 x]) << 24)
      .| (uint64_t (SB4.[x5 x]) << 16)
      .| (uint64_t (SB1.[x6 x]) << 8)
      .| uint64_t (SB2.[x7 x]);
     right :=
         (uint64_t (SB3.[x8 x]) << 56)
      .| (uint64_t (SB4.[x9 x]) << 48)
      .| (uint64_t (SB1.[x10 x]) << 40)
      .| (uint64_t (SB2.[x11 x]) << 32)
      .| (uint64_t (SB3.[x12 x]) << 24)
      .| (uint64_t (SB4.[x13 x]) << 16)
      .| (uint64_t (SB1.[x14 x]) << 8)
      .| uint64_t (SB2.[x15 x]) |}.

(** ** Diffusion layer A: the compiled branch, then the [#if 0] branch *)

Definition aria_A (x : aria_u128_t) : aria_u128_t :=
  let t0 := uint8_t (x0 x .^ x7 x .^ x10 x .^ x13 x) in
  let t1 := uint8_t (x1 x .^ x6 x .^ x11 x .^ x12 x) in
  let t2 := uint8_t (x2 x .^ x5 x .^ x8 x .^ x15 x) in
  let t3 := uint8_t (x3 x .^ x4 x .^ x9 x .^ x14 x) in
  {| left :=
         (uint64_t (t3 .^ x6 x .^ x8 x .^ x13 x) << 56)
      .| (uint64_t (t2 .^ x7 x .^ x9 x .^ x12 x) << 48)
      .| (uint64_t (t1 .^ x4 x .^ x10 x .^ x15 x) << 40)
      .| (uint64_t (t0 .^ x5 x .^ x11 x .^ x14 x) << 32)
      .| (uint64_t (x0 x .^ t2 .^ x11 x .^ x14 x) << 24)
      .| (uint64_t (x1 x .^ t3 .^ x10 x .^ x15 x) << 16)
      .| (uint64_t (t0 .^ x2 x .^ x9 x .^ x12 x) << 8)
      .| uint64_t (t1 .^ x3 x .^ x8 x .^ x13 x);
     right :=
         (uint64_t (t0 .^ x1 x .^ x4 x .^ x15 x) << 56)
      .| (uint64_t (x0 x .^ t1 .^ x5 x .^ x14 x) << 48)
      .| (uint64_t (t2 .^ x3 x .^ x6 x .^ x13 x) << 40)
      .| (uint64_t (x2 x .^ t3 .^ x7 x .^ x12 x) << 32)
      .| (uint64_t (t1 .^ x2 x .^ x7 x .^ x9 x) << 24)
      .| (uint64_t (t0 .^ x3 x .^ x6 x .^ x8 x) << 16)
      .| (uint64_t (x0 x .^ t3 .^ x5 x .^ x11 x) << 8)
      .| uint64_t (x1 x .^ t2 .^ x4 x .^ x10 x) |}.

Definition aria_A_direct (x : aria_u128_t) : aria_u128_t :=
  {| left :=
         (uint64_t (x3 x .^ x4 x .^ x6 x .^ x8 x .^ x9 x .^ x13 x .^ x14 x) << 56)
      .| (uint64_t (x2 x .^ x5 x .^ x7 x .^ x8 x .^ x9 x .^ x12 x .^ x15 x) << 48)
      .| (uint64_t (x1 x .^ x4 x .^ x6 x .^ x10 x .^ x11 x .^ x12 x .^ x15 x) << 40)
      .| (uint64_t (x0 x .^ x5 x .^ x7 x .^ x10 x .^ x11 x .^ x13 x .^ x14 x) << 32)
      .| (uint64_t (x0 x .^ x2 x .^ x5 x .^ x8 x .^ x11 x .^ x14 x .^ x15 x) << 24)
      .| (uint64_t (x1 x .^ x3 x .^ x4 x .^ x9 x .^ x10 x .^ x14 x .^ x15 x) << 16)
      .| (uint64_t (x0 x .^ x2 x .^ x7 x .^ x9 x .^ x10 x .^ x12 x .^ x13 x) << 8)
      .| uint64_t (x1 x .^ x3 x .^ x6 x .^ x8 x .^ x11 x .^ x12 x .^ x13 x);
     right :=
         (uint64_t (x0 x .^ x1 x .^ x4 x .^ x7 x .^ x10 x .^ x13 x .^ x15 x) << 56)
      .| (uint64_t (x0 x .^ x1 x .^ x5 x .^ x6 x .^ x11 x .^ x12 x .^ x14 x) << 48)
      .| (uint64_t (x2 x .^ x3 x .^ x5 x .^ x6 x .^ x8 x .^ x13 x .^ x15 x) << 40)
      .| (uint64_t (x2 x .^ x3 x .^ x4 x .^ x7 x .^ x9 x .^ x12 x .^ x14 x) << 32)
      .| (uint64_t (x1 x .^ x2 x .^ x6 x .^ x7 x .^ x9 x .^ x11 x .^ x12 x) << 24)
      .| (uint64_t (x0 x .^ x3 x .^ x6 x .^ x7 x .^ x8 x .^ x10 x .^ x13 x) << 16)
      .| (uint64_t (x0 x .^ x3 x .^ x4 x .^ x5 x .^ x9 x .^ x11 x .^ x14 x) << 8)
      .| uint64_t (x1 x .^ x2 x .^ x4 x .^ x5 x .^ x8 x .^ x10 x .^ x15 x) |}.

(** ** Round functions: FO(D,RK) = A(SL1(D ^ RK)), FE(D,RK) = A(SL2(D ^ RK)) *)

Definition aria_FO (d rk : aria_u128_t) : aria_u128_t :=
  aria_A (aria_SL1 (xor d rk)).

Definition aria_FE (d rk : aria_u128_t) : aria_u128_t :=
  aria_A (aria_SL2 (xor d rk)).

(** ** Arrays of blocks in memory

    An array parameter [aria_u128_t ek[]] is the address of the caller's
    array.  [load m ek i] is the rvalue [ek[i]] and [store m ek i v] the
    assignment [ek[i] = v]; both are defined only inside the array. *)

Abbreviation loc := nat (only parsing).
Abbreviation memory := (gmap loc (list aria_u128_t)) (only parsing).

Definition load (m : memory) (ek : loc) (i : nat) : option aria_u128_t :=
  a ← m !! ek;
  a !! i.

Definition store (m : memory) (ek : loc) (i : nat) (v : aria_u128_t)
  : option memory :=
  a ← m !! ek;
  if (i <? length a)%nat then Some (<[ek := <[i := v]> a]> m) else None.

(** The declaration [aria_u128_t ek[18];] of the six entry points: the one
    array of their frame.  Its cells hold no meaningful value until they
    are written; every function below writes a cell before it reads it. *)
Definition ek_local : loc := 0%nat.
Definition frame : memory := {[ ek_local := replicate 18 (mk128 0 0) ]}.

(** ** Key expansion *)

Definition compute_ek (W0 W1 W2 W3 : aria_u128_t) (ek : loc) (m : memory)
  : option memory :=
  m ← store m ek  1 (xor W0 (ror W1 19));
  m ← store m ek  2 (xor W1 (ror W2 19));
  m ← store m ek  3 (xor W2 (ror W3 19));
  m ← store m ek  4 (xor (ror W0 19) W3);
  m ← store m ek  5 (xor W0 (ror W1 31));
  m ← store m ek  6 (xor W1 (ror W2 31));
  m ← store m ek  7 (xor W2 (ror W3 31));
  m ← store m ek  8 (xor (ror W0 31) W3);
  m ← store m ek  9 (xor W0 (rol W1 61));
  m ← store m ek 10 (xor W1 (rol W2 61));
  m ← store m ek 11 (xor W2 (rol W3 61));
  m ← store m ek 12 (xor (rol W0 61) W3);
  m ← store m ek 13 (xor W0 (rol W1 31));
  m ← store m ek 14 (xor W1 (rol W2 31));
  m ← store m ek 15 (xor W2 (rol W3 31));
  m ← store m ek 16 (xor (rol W0 31) W3);
  store m ek 17 (xor W0 (rol W1 19)).

(** ** The crypt engine

    [for (int i = 2; i < rounds; ) { P = FE(P, ek[i++]); P = FO(P, ek[i++]); }]
    The loop runs at most [rounds] times, which is the fuel [aria_crypt]
    gives it; running out of fuel is [None]. *)

Fixpoint aria_crypt_loop (fuel : nat) (i rounds : nat) (ek : loc)
    (P : aria_u128_t) (m : memory) : option aria_u128_t :=
  if (i <? rounds)%nat then
    match fuel with
    | O => None
    | S fuel' =>
        k ← load m ek i;
        let P := aria_FE P k in
        k ← load m ek (i + 1);
        let P := aria_FO P k in
        aria_crypt_loop fuel' (i + 2) rounds ek P m
    end
  else Some P.

Definition aria_crypt (rounds : nat) (ek : loc) (Plaintext : aria_u128_t)
    (m : memory) : option aria_u128_t :=
  k ← load m ek 1;
  let P := aria_FO Plaintext k in
  P ← aria_crypt_loop rounds 2 rounds ek P m;
  kn ← load m ek rounds;
  kn1 ← load m ek (rounds + 1);
  Some (xor (aria_SL2 (xor P kn)) kn1).

(** ** Round constants *)

Definition C1 : aria_u128_t := mk128 0x517cc1b727220a94 0xfe13abe8fa9a6ee0.
Definition C2 : aria_u128_t := mk128 0x6db14acc9e21c820 0xff28b1d5ef5de2b0.
Definition C3 : aria_u128_t := mk128 0xdb92371d2126e970 0x0324977504e8c90e.

(** ** Encryption

    Each [aria_encrypt_NNN] computes W0..W3, fills its array [ek] and runs
    the engine on it; [aria_W_NNN] and [aria_ek_NNN] name the first two
    steps, the latter returning the memory that holds the filled array. *)

Definition aria_W_128 (Key : aria_u128_t) :=
  let W0 := Key in
  let W1 :=      aria_FO W0 C1 in
  let W2 := xor (aria_FE W1 C2) W0 in
  let W3 := xor (aria_FO W2 C3) W1 in
  (W0, W1, W2, W3).

Definition aria_W_192 (KeyLeft KeyRight : aria_u128_t) :=
  let W0 := KeyLeft in
  let W1 := xor (aria_FO W0 C2) KeyRight in
  let W2 := xor (aria_FE W1 C3) W0 in
  let W3 := xor (aria_FO W2 C1) W1 in
  (W0, W1, W2, W3).

Definition aria_W_256 (KeyLeft KeyRight : aria_u128_t) :=
  let W0 := KeyLeft in
  let W1 := xor (aria_FO W0 C3) KeyRight in
  let W2 := xor (aria_FE W1 C1) W0 in
  let W3 := xor (aria_FO W2 C2) W1 in
  (W0, W1, W2, W3).

Definition aria_ek_128 (Key : aria_u128_t) : option memory :=
  let '(W0, W1, W2, W3) := aria_W_128 Key in
  compute_ek W0 W1 W2 W3 ek_local frame.

Definition aria_ek_192 (KeyLeft KeyRight : aria_u128_t) : option memory :=
  let '(W0, W1, W2, W3) := aria_W_192 KeyLeft KeyRight in
  compute_ek W0 W1 W2 W3 ek_local frame.

Definition aria_ek_256 (KeyLeft KeyRight : aria_u128_t) : option memory :=
  let '(W0, W1, W2, W3) := aria_W_256 KeyLeft KeyRight in
  compute_ek W0 W1 W2 W3 ek_local frame.

Definition aria_encrypt_128 (Key Plaintext : aria_u128_t) : option aria_u128_t :=
  m ← aria_ek_128 Key;
  aria_crypt 12 ek_local Plaintext m.

Definition aria_encrypt_192 (KeyLeft KeyRight Plaintext : aria_u128_t)
  : option aria_u128_t :=
  m ← aria_ek_192 KeyLeft KeyRight;
  aria_crypt 14 ek_local Plaintext m.

Definition aria_encrypt_256 (KeyLeft KeyRight Plaintext : aria_u128_t)
  : option aria_u128_t :=
  m ← aria_ek_256 KeyLeft KeyRight;
  aria_crypt 16 ek_local Plaintext m.

(** ** Decryption

    The decryption keys are made in the array that holds the encryption
    keys, with [ek[0]] as the temporary of each swap:
    [for (int i = 2, j = N; i < j; i++, j--)
       { ek[0] = ek[j]; ek[j] = aria_A(ek[i]); ek[i] = aria_A(ek[0]); }] *)

Fixpoint aria_dk_loop (fuel : nat) (i j : nat) (ek : loc) (m : memory)
  : option memory :=
  if (i <? j)%nat then
    match fuel with
    | O => None
    | S fuel' =>
        v ← load m ek j;
        m ← store m ek 0 v;
        v ← load m ek i;
        m ← store m ek j (aria_A v);
        v ← load m ek 0;
        m ← store m ek i (aria_A v);
        aria_dk_loop fuel' (i + 1) (j - 1) ek m
    end
  else Some m.

(** The three decryption functions differ in three constants only: the
    index [last] of the last round key, the start [j] of the downward
    index, and the index [mid] of the middle key. *)
Definition aria_dk (last j mid : nat) (ek : loc) (m : memory) : option memory :=
  v ← load m ek last;
  m ← store m ek 0 v;
  v ← load m ek 1;
  m ← store m ek last v;
  v ← load m ek 0;
  m ← store m ek 1 v;
  m ← aria_dk_loop j 2 j ek m;
  v ← load m ek mid;
  store m ek mid (aria_A v).

Definition aria_dk_128 : loc -> memory -> option memory := aria_dk 13 12 7.
Definition aria_dk_192 : loc -> memory -> option memory := aria_dk 15 14 8.
Definition aria_dk_256 : loc -> memory -> option memory := aria_dk 17 16 9.

Definition aria_decrypt_128 (Key Ciphertext : aria_u128_t) : option aria_u128_t :=
  m ← aria_ek_128 Key;
  m ← aria_dk_128 ek_local m;
  aria_crypt 12 ek_local Ciphertext m.

Definition aria_decrypt_192 (KeyLeft KeyRight Ciphertext : aria_u128_t)
  : option aria_u128_t :=
  m ← aria_ek_192 KeyLeft KeyRight;
  m ← aria_dk_192 ek_local m;
  aria_crypt 14 ek_local Ciphertext m.

Definition aria_decrypt_256 (KeyLeft KeyRight Ciphertext : aria_u128_t)
  : option aria_u128_t :=
  m ← aria_ek_256 KeyLeft KeyRight;
  m ← aria_dk_256 ek_local m;
  aria_crypt 16 ek_local Ciphertext m.

(** ** The self test of [main]: RFC 5794, Appendix A

    [KeyLeft], [KeyRight], [Plaintext] and [Ciphertext] of the three cases
    of the [-s] branch of [main]. *)

Definition test_KeyLeft      : aria_u128_t := mk128 0x0001020304050607 0x08090a0b0c0d0e0f.
Definition test_KeyRight_192 : aria_u128_t := mk128 0x1011121314151617 0x0000000000000000.
Definition test_KeyRight_256 : aria_u128_t := mk128 0x1011121314151617 0x18191a1b1c1d1e1f.
Definition test_Plaintext    : aria_u128_t := mk128 0x0011223344556677 0x8899aabbccddeeff.
Definition test_Ciphertext_128 : aria_u128_t := mk128 0xd718fbd6ab644c73 0x9da95f3be6451778.
Definition test_Ciphertext_192 : aria_u128_t := mk128 0x26449c1805dbe7aa 0x25a468ce263a9e79.
Definition test_Ciphertext_256 : aria_u128_t := mk128 0xf92bd7c79fb72e2f 0x2b8f80c1972d24fc.

(** * Auxiliary definitions: bytes in words and blocks *)

(** The expression every half of [aria_SL1], [aria_SL2] and [aria_A] has. *)
Definition pack64 (b0 b1 b2 b3 b4 b5 b6 b7 : Z) : Z :=
     (uint64_t b0 << 56)
  .| (uint64_t b1 << 48)
  .| (uint64_t b2 << 40)
  .| (uint64_t b3 << 32)
  .| (uint64_t b4 << 24)
  .| (uint64_t b5 << 16)
  .| (uint64_t b6 << 8)
  .| uint64_t b7.

(** The byte of [w] whose lowest bit is bit [k]. *)
Definition getb (w k : Z) : Z := (w >> k) .& 0xff.

Definition blk (b0 b1 b2 b3 b4 b5 b6 b7 b8 b9 b10 b11 b12 b13 b14 b15 : Z)
  : aria_u128_t :=
  mk128 (pack64 b0 b1 b2 b3 b4 b5 b6 b7) (pack64 b8 b9 b10 b11 b12 b13 b14 b15).

Definition is_u8b (z : Z) : bool := (0 <=? z) && (z <? 2 ^ 8).

(** * Definitions that follow the specification

    These restate, in the words of the specification and of RFC 5794 as
    quoted in the comments of [aria.c], what the code above is expected to
    compute; the theorems compare the two. *)

(** Byte extraction at position 0..15: position 0 is the most significant
    byte of the left half, position 15 the least significant byte of the
    right half. *)
Definition byte_at (x : aria_u128_t) (i : nat) : Z :=
  nth i [x0 x; x1 x; x2 x; x3 x; x4 x; x5 x; x6 x; x7 x;
         x8 x; x9 x; x10 x; x11 x; x12 x; x13 x; x14 x; x15 x] 0.

(** Layer type 1 uses the cyclic pattern (table1, table2, table3, table4),
    layer type 2 the cyclic pattern (table3, table4, table1, table2). *)
Definition spec_SL1_table (i : nat) : list Z :=
  nth (i mod 4) [SB1; SB2; SB3; SB4] [].

Definition spec_SL2_table (i : nat) : list Z :=
  nth (i mod 4) [SB3; SB4; SB1; SB2] [].

(** The diffusion layer as a table: output byte [i] is the XOR of the input
    bytes at the seven positions of row [i]. *)
Definition spec_A_rows : list (list nat) :=
  [ [3; 4; 6; 8; 9; 13; 14];   [2; 5; 7; 8; 9; 12; 15];
    [1; 4; 6; 10; 11; 12; 15]; [0; 5; 7; 10; 11; 13; 14];
    [0; 2; 5; 8; 11; 14; 15];  [1; 3; 4; 9; 10; 14; 15];
    [0; 2; 7; 9; 10; 12; 13];  [1; 3; 6; 8; 11; 12; 13];
    [0; 1; 4; 7; 10; 13; 15];  [0; 1; 5; 6; 11; 12; 14];
    [2; 3; 5; 6; 8; 13; 15];   [2; 3; 4; 7; 9; 12; 14];
    [1; 2; 6; 7; 9; 11; 12];   [0; 3; 6; 7; 8; 10; 13];
    [0; 3; 4; 5; 9; 11; 14];   [1; 2; 4; 5; 8; 10; 15] ]%nat.

Definition spec_A_byte (x : aria_u128_t) (i : nat) : Z :=
  fold_right (fun j acc => byte_at x j .^ acc) 0 (nth i spec_A_rows []).

(** Key size to round count, and to the triple (CK1, CK2, CK3). *)
Definition spec_rounds (bits : Z) : nat :=
  if bits =? 128 then 12 else if bits =? 192 then 14 else 16.

Definition spec_CK (bits : Z) : aria_u128_t * aria_u128_t * aria_u128_t :=
  if bits =? 128 then (C1, C2, C3)
  else if bits =? 192 then (C2, C3, C1)
  else (C3, C1, C2).

(** W0 = KL, W1 = OddRound(W0, CK1) XOR KR, W2 = EvenRound(W1, CK2) XOR W0,
    W3 = OddRound(W2, CK3) XOR W1. *)
Definition spec_W (bits : Z) (KL KR : aria_u128_t) :=
  let '(CK1, CK2, CK3) := spec_CK bits in
  let W0 := KL in
  let W1 := xor (aria_FO W0 CK1) KR in
  let W2 := xor (aria_FE W1 CK2) W0 in
  let W3 := xor (aria_FO W2 CK3) W1 in
  (W0, W1, W2, W3).

(** The seventeen candidate round keys ek1 .. ek17. *)
Definition spec_candidates
    (W : aria_u128_t * aria_u128_t * aria_u128_t * aria_u128_t)
  : list aria_u128_t :=
  let '(W0, W1, W2, W3) := W in
  [ xor W0 (ror W1 19); xor W1 (ror W2 19); xor W2 (ror W3 19); xor (ror W0 19) W3;
    xor W0 (ror W1 31); xor W1 (ror W2 31); xor W2 (ror W3 31); xor (ror W0 31) W3;
    xor W0 (rol W1 61); xor W1 (rol W2 61); xor W2 (rol W3 61); xor (rol W0 61) W3;
    xor W0 (rol W1 31); xor W1 (rol W2 31); xor W2 (rol W3 31); xor (rol W0 31) W3;
    xor W0 (rol W1 19) ].

(** The encryption round keys: the first rounds+1 candidates.  A 128-bit
    key has KR = 0. *)
Definition spec_ek (bits : Z) (KL KR : aria_u128_t) : list aria_u128_t :=
  take (spec_rounds bits + 1) (spec_candidates (spec_W bits KL KR)).

(** The crypt engine: FO(Input, key[1]), then alternating FE/FO through
    key[2] .. key[rounds-1], then SL2 and the last two keys. *)
Fixpoint spec_interior (even : bool) (keys : list aria_u128_t)
    (P : aria_u128_t) : aria_u128_t :=
  match keys with
  | [] => P
  | k :: keys' =>
      spec_interior (negb even) keys' (if even then aria_FE P k else aria_FO P k)
  end.

Definition spec_crypt (rounds : nat) (key : nat -> aria_u128_t)
    (Input : aria_u128_t) : aria_u128_t :=
  let P1 := aria_FO Input (key 1%nat) in
  let P := spec_interior true (map key (seq 2 (rounds - 2))) P1 in
  xor (aria_SL2 (xor P (key rounds))) (key (rounds + 1)%nat).

(** ** The interface of [aria.h] *)

Inductive aria_cryto_mode_t : Type := ENCRYPT | DECRYPT.

Inductive aria_error_code_t : Type :=
  NO_ERROR | ARG_BAD | KEY_SIZE_BAD | CRYPTO_MODE_BAD.

Record aria_key_schedule_t : Type := mk_key_schedule {
  ek : list aria_u128_t;
  mode : aria_cryto_mode_t;
  rounds : nat
}.

(** Modelled from the spec: the part of [aria_init_key_schedule] that is
    common to the three key sizes (the function is declared in [aria.h]
    and defined in no source file).  It takes the round count, the memory
    in which the encryption keys were computed and the derivation of the
    decryption keys; the mode selects whether the encryption-ordered or
    the decryption-derived round keys are stored in the schedule. *)
Definition fill_key_schedule (n : nat) (e : option memory)
    (derive : loc -> memory -> option memory) (md : aria_cryto_mode_t)
  : aria_key_schedule_t + aria_error_code_t :=
  let stored :=
    match md with
    | ENCRYPT => e
    | DECRYPT => m ← e; derive ek_local m
    end in
  match m ← stored; m !! ek_local with
  | Some k => inl (mk_key_schedule k md n)
  | None => inr ARG_BAD
  end.

(** Modelled from the spec: the body of [aria_init_key_schedule], which
    [aria.h] declares and no source file defines.  The key size must be
    exactly 128, 192 or 256, and any other value fails with the key-size
    error; the round count is 12, 14 or 16.  The result is either a
    schedule or an error code. *)
Definition aria_init_key_schedule (KeyLeft KeyRight : aria_u128_t)
    (md : aria_cryto_mode_t) (key_size_in_bits : Z)
  : aria_key_schedule_t + aria_error_code_t :=
  if key_size_in_bits =? 128 then
    fill_key_schedule 12 (aria_ek_128 KeyLeft) aria_dk_128 md
  else if key_size_in_bits =? 192 then
    fill_key_schedule 14 (aria_ek_192 KeyLeft KeyRight) aria_dk_192 md
  else if key_size_in_bits =? 256 then
    fill_key_schedule 16 (aria_ek_256 KeyLeft KeyRight) aria_dk_256 md
  else inr KEY_SIZE_BAD.

(** Modelled from the spec: the body of the [aria_crypt] of [aria.h], which
    takes a schedule and a block: the engine run with the round count and
    the round keys of the schedule. *)
Definition aria_crypt_ks (ks : aria_key_schedule_t) (text : aria_u128_t)
  : option aria_u128_t :=
  aria_crypt (rounds ks) ek_local text {[ ek_local := ek ks ]}.

(** The sixteen bytes of a block, byte 0 first: the big-endian byte string
    of the block. *)
Definition bytes_of (x : aria_u128_t) : list Z := map (byte_at x) (seq 0 16).

(** An array of eighteen different blocks, to run the key derivation on. *)
Definition demo_keys : list aria_u128_t :=
  map (fun n => mk128 (Z.of_nat n) (Z.of_nat n)) (seq 0 18).

(** Bit [i] of the 128 bits of a block, bit 0 being the least significant
    bit of the right half and bit 127 the most significant bit of the left
    half. *)
Definition bit128 (x : aria_u128_t) (i : Z) : bool :=
  if i <? 64 then Z.testbit (right x) i else Z.testbit (left x) (i - 64).

(** ** The test program: [print_aria_u128] and [main] under [ARIA_TEST]

    The two branches of [main] are embedded one by one: [main_s] is what
    the branch [-s] writes, [main_t] the number of errors that the branch
    [-t] counts.  [timer_e_nanoseconds] of [timer_e.c] reads the clock of
    the system and has no embedding. *)

Module ARIA_TEST.
Import Ascii String.

Definition uint32_t (z : Z) : Z := z mod 2 ^ 32.

(** [0 == memcmp(&a, &b, sizeof(aria_u128_t))]: the sixteen bytes of the
    two blocks, which are the bytes of their two [uint64_t] fields, are the
    same. *)
Definition memcmp_is_0 (a b : aria_u128_t) : bool :=
  (left a =? left b) && (right a =? right b).

(** *** The [-t] branch: encrypting and decrypting random blocks

    The generator [xorshift128plus_next] is declared in [xorshift_e.h] and
    defined in no file of the repository: it is a parameter here, a
    function from the state of the generator to a [uint64_t] and the next
    state, and so is the state [xorshift128plus_seed] leaves. *)

Section StressTest.
Variable rng : Type.
Variable xorshift128plus_seed : Z -> rng -> rng.
Variable xorshift128plus_next : rng -> Z * rng.

(** [(aria_u128_t){ xorshift128plus_next(), xorshift128plus_next() }]; C
    does not fix which of the two calls comes first, the call for
    [left] comes first here. *)
Definition random_u128 (s : rng) : aria_u128_t * rng :=
  let '(l, s) := xorshift128plus_next s in
  let '(r, s) := xorshift128plus_next s in
  (mk128 l r, s).

(** [for (uint32_t i = 0u; i < iterations; i++) { ... errors++ ... }],
    returning [errors] and the state of the generator. *)
Fixpoint stress_loop (fuel : nat) (i iterations : Z) (s : rng) (errors : Z)
  : option (Z * rng) :=
  if i <? iterations then
    match fuel with
    | O => None
    | S fuel' =>
        let '(KeyLeft, s) := random_u128 s in
        let '(KeyRight, s) := random_u128 s in
        let '(Plaintext, s) := random_u128 s in
        Ciphertext ← aria_encrypt_256 KeyLeft KeyRight Plaintext;
        P ← aria_decrypt_256 KeyLeft KeyRight Ciphertext;
        let errors :=
          if memcmp_is_0 Plaintext P then errors else uint32_t (errors + 1) in
        stress_loop fuel' (uint32_t (i + 1)) iterations s errors
    end
  else Some (errors, s).

Definition iterations : Z := 1000000.

(** The value of [errors] that the branch prints at its end; the two
    readings of the clock around the loop and the time per iteration
    that is printed with it are left out. *)
Definition main_t (s : rng) : option Z :=
  let s := xorshift128plus_seed 0x5a5a5a5a5a5a5a5a s in
  r ← stress_loop (Z.to_nat iterations) 0 iterations s 0;
  Some (fst r).
End StressTest.

(** *** [print_aria_u128] and the [-s] branch: the self test *)

Local Open Scope string_scope.

(** The streams of [stdio.h] that the program writes to, and what a run
    has written to them, in order. *)
Inductive FILE : Type := stdout | stderr.

Definition output : Type := list (FILE * string).

(** The digit that the conversion [x] of [printf] writes for a value
    below sixteen. *)
Definition hex_digit (d : Z) : ascii :=
  nth (Z.to_nat d)
    ["0"; "1"; "2"; "3"; "4"; "5"; "6"; "7";
     "8"; "9"; "a"; "b"; "c"; "d"; "e"; "f"]%char "0"%char.

(** [%016" PRIx64 "]: a [uint64_t] in hexadecimal with lower-case digits,
    padded with zeros to sixteen digits; a [uint64_t] has no more. *)
Definition hex16 (w : Z) : string :=
  fold_right (fun k s => String (hex_digit ((w >> k) .& 0xf)) s) EmptyString
    [60; 56; 52; 48; 44; 40; 36; 32; 28; 24; 20; 16; 12; 8; 4; 0].

(** [fprintf(stderr, "{ 0x%016"PRIx64", 0x%016"PRIx64" }", x.left, x.right);] *)
Definition print_aria_u128 (x : aria_u128_t) : output :=
  [(stderr, "{ 0x" ++ hex16 (left x) ++ ", 0x" ++ hex16 (right x) ++ " }")].

(** The character [\n]. *)
Definition newline : string := String (ascii_of_nat 10) EmptyString.

(** The report that follows each of the six calls of the self test:
    [if (0 == memcmp(&expected, &got, sizeof(aria_u128_t)))
       printf("<name> pass\n");
     else { fprintf(stderr, "<name> fail: "); print_aria_u128(got);
            fprintf(stderr, "\n"); }] *)
Definition report (name : string) (expected got : aria_u128_t) : output :=
  if memcmp_is_0 expected got then [(stdout, name ++ " pass" ++ newline)]
  else (stderr, name ++ " fail: ") :: app (print_aria_u128 got) [(stderr, newline)].

(** The branch [-s] of [main]: the three keys of RFC 5794, Appendix A,
    each one encrypting the plaintext and decrypting the ciphertext. *)
Definition main_s : option output :=
  let KeyLeft := test_KeyLeft in
  let Plaintext := test_Plaintext in
  let Ciphertext := test_Ciphertext_128 in
  C ← aria_encrypt_128 KeyLeft Plaintext;
  let out1 := report "aria_encrypt_128" Ciphertext C in
  P ← aria_decrypt_128 KeyLeft Ciphertext;
  let out2 := report "aria_decrypt_128" Plaintext P in
  let KeyRight := test_KeyRight_192 in
  let Ciphertext := test_Ciphertext_192 in
  C ← aria_encrypt_192 KeyLeft KeyRight Plaintext;
  let out3 := report "aria_encrypt_192" Ciphertext C in
  P ← aria_decrypt_192 KeyLeft KeyRight Ciphertext;
  let out4 := report "aria_decrypt_192" Plaintext P in
  let KeyRight := test_KeyRight_256 in
  let Ciphertext := test_Ciphertext_256 in
  C ← aria_encrypt_256 KeyLeft KeyRight Plaintext;
  let out5 := report "aria_encrypt_256" Ciphertext C in
  P ← aria_decrypt_256 KeyLeft KeyRight Ciphertext;
  let out6 := report "aria_decrypt_256" Plaintext P in
  Some (out1 ++ out2 ++ out3 ++ out4 ++ out5 ++ out6)%list.

End ARIA_TEST.

(** * Machine integers as bit vectors *)

Lemma is_u64_mod (z : Z) : is_u64 (z mod 2 ^ 64).
Proof. unfold is_u64. apply Z.mod_pos_bound. lia. Qed.

Lemma is_u8_mod (z : Z) : is_u8 (z mod 2 ^ 8).
Proof. unfold is_u8. apply Z.mod_pos_bound. lia. Qed.

Lemma uint64_t_small (z : Z) : is_u64 z -> uint64_t z = z.
Proof. unfold is_u64, uint64_t. intros H. now apply Z.mod_small. Qed.

Lemma uint8_t_small (z : Z) : is_u8 z -> uint8_t z = z.
Proof. unfold is_u8, uint8_t. intros H. now apply Z.mod_small. Qed.

Lemma is_u8_is_u64 (z : Z) : is_u8 z -> is_u64 z.
Proof. unfold is_u8, is_u64. lia. Qed.

(** A value fits in [n] bits exactly when masking it with [n] ones leaves it
    unchanged; bounds of bitwise operations are read off this form. *)
Lemma fits_iff_mask (n z : Z) : 0 <= n -> (0 <= z < 2 ^ n <-> Z.land z (Z.ones n) = z).
Proof.
  intros Hn. rewrite Z.land_ones by assumption. split.
  - intros H. now apply Z.mod_small.
  - intros <-. apply Z.mod_pos_bound. lia.
Qed.

Lemma fits_lxor (n a b : Z) :
  0 <= n -> 0 <= a < 2 ^ n -> 0 <= b < 2 ^ n -> 0 <= Z.lxor a b < 2 ^ n.
Proof.
  intros Hn Ha Hb. apply fits_iff_mask in Ha, Hb; try assumption.
  apply fits_iff_mask; [assumption|].
  rewrite <- Ha, <- Hb at 2.
  apply Z.bits_inj'. intros i _.
  rewrite !Z.land_spec, !Z.lxor_spec, !Z.land_spec. btauto.
Qed.

Lemma fits_lor (n a b : Z) :
  0 <= n -> 0 <= a < 2 ^ n -> 0 <= b < 2 ^ n -> 0 <= Z.lor a b < 2 ^ n.
Proof.
  intros Hn Ha Hb. apply fits_iff_mask in Ha, Hb; try assumption.
  apply fits_iff_mask; [assumption|].
  rewrite <- Ha, <- Hb at 2.
  apply Z.bits_inj'. intros i _.
  rewrite !Z.land_spec, !Z.lor_spec, !Z.land_spec. btauto.
Qed.

Lemma is_u8_lxor (a b : Z) : is_u8 a -> is_u8 b -> is_u8 (a .^ b).
Proof. apply fits_lxor. lia. Qed.

Lemma is_u64_lxor (a b : Z) : is_u64 a -> is_u64 b -> is_u64 (a .^ b).
Proof. apply fits_lxor. lia. Qed.

Lemma is_u64_lor (a b : Z) : is_u64 a -> is_u64 b -> is_u64 (a .| b).
Proof. apply fits_lor. lia. Qed.

Lemma is_u8_land_ff (a : Z) : is_u8 (a .& 0xff).
Proof.
  unfold is_u8. change 0xff with (Z.ones 8).
  rewrite Z.land_ones by lia. apply Z.mod_pos_bound. lia.
Qed.

Lemma is_u64_shiftr (a n : Z) : is_u64 a -> 0 <= n -> is_u64 (a >> n).
Proof.
  unfold is_u64. intros [H0 H1] Hn. rewrite Z.shiftr_div_pow2 by assumption.
  assert (0 < 2 ^ n) by (apply Z.pow_pos_nonneg; lia).
  split.
  - apply Z.div_pos; lia.
  - apply Z.le_lt_trans with a; [|assumption].
    apply Z.div_le_upper_bound; nia.
Qed.

Lemma is_u8_shiftr_56 (a : Z) : is_u64 a -> is_u8 (a >> 56).
Proof.
  unfold is_u64, is_u8. intros H. rewrite Z.shiftr_div_pow2 by lia.
  split.
  - apply Z.div_pos; lia.
  - apply Z.div_lt_upper_bound; lia.
Qed.

Lemma is_u64_shl64 (a n : Z) : is_u64 (a << n).
Proof. apply is_u64_mod. Qed.

Lemma testbit_high (n z i : Z) : 0 <= z < 2 ^ n -> 0 <= n <= i -> Z.testbit z i = false.
Proof.
  intros Hz Hi. rewrite <- (Z.mod_small z (2 ^ n)) by assumption.
  now apply Z.mod_pow2_bits_high.
Qed.

(** The bits of a byte outside positions 0..7 are all clear. *)
Lemma testbit_u8_out (b i : Z) : is_u8 b -> i < 0 \/ 8 <= i -> Z.testbit b i = false.
Proof.
  intros Hb [Hi|Hi].
  - now apply Z.testbit_neg_r.
  - apply (testbit_high 8); [exact Hb | lia].
Qed.

Lemma testbit_u64_out (w i : Z) : is_u64 w -> i < 0 \/ 64 <= i -> Z.testbit w i = false.
Proof.
  intros Hb [Hi|Hi].
  - now apply Z.testbit_neg_r.
  - apply (testbit_high 64); [exact Hb | lia].
Qed.

Lemma testbit_shl64 (a k i : Z) :
  0 <= k -> Z.testbit (a << k) i = (0 <=? i) && (i <? 64) && Z.testbit a (i - k).
Proof.
  intros Hk. unfold shl64. rewrite Z.testbit_mod_pow2 by lia.
  destruct (Z.leb_spec 0 i) as [Hi|Hi]; simpl.
  - now rewrite Z.shiftl_spec by assumption.
  - rewrite (Z.testbit_neg_r _ i) by assumption. now rewrite andb_false_r.
Qed.

Lemma testbit_shiftr (a k i : Z) :
  Z.testbit (a >> k) i = (0 <=? i) && Z.testbit a (i + k).
Proof.
  destruct (Z.leb_spec 0 i) as [Hi|Hi]; simpl.
  - now apply Z.shiftr_spec.
  - now apply Z.testbit_neg_r.
Qed.

Lemma testbit_ff (i : Z) : Z.testbit 0xff i = (0 <=? i) && (i <? 8).
Proof.
  change 0xff with (Z.ones 8).
  destruct (Z.leb_spec 0 i) as [Hi|Hi]; simpl.
  - apply Z.testbit_ones_nonneg; lia.
  - now apply Z.testbit_neg_r.
Qed.

(** * Eight bytes in a word *)

Ltac split_cmp :=
  repeat match goal with
    | |- context [(?a <=? ?b)] => destruct (Z.leb_spec a b); try lia
    | |- context [(?a <? ?b)] => destruct (Z.ltb_spec a b); try lia
    end.

Ltac clear_u8_bits :=
  repeat match goal with
    | H : is_u8 ?b |- context [Z.testbit ?b ?i] =>
        rewrite (testbit_u8_out b i H) by lia
    end.

Lemma is_u64_pack64 b0 b1 b2 b3 b4 b5 b6 b7 :
  is_u64 (pack64 b0 b1 b2 b3 b4 b5 b6 b7).
Proof.
  unfold pack64. repeat apply is_u64_lor; try apply is_u64_shl64.
  apply is_u64_mod.
Qed.

Lemma testbit_pack64 b0 b1 b2 b3 b4 b5 b6 b7 i :
  is_u8 b0 -> is_u8 b1 -> is_u8 b2 -> is_u8 b3 ->
  is_u8 b4 -> is_u8 b5 -> is_u8 b6 -> is_u8 b7 ->
  Z.testbit (pack64 b0 b1 b2 b3 b4 b5 b6 b7) i =
    Z.testbit b0 (i - 56) || Z.testbit b1 (i - 48) || Z.testbit b2 (i - 40)
    || Z.testbit b3 (i - 32) || Z.testbit b4 (i - 24) || Z.testbit b5 (i - 16)
    || Z.testbit b6 (i - 8) || Z.testbit b7 i.
Proof.
  intros H0 H1 H2 H3 H4 H5 H6 H7. unfold pack64.
  rewrite !uint64_t_small by now apply is_u8_is_u64.
  rewrite !Z.lor_spec, !testbit_shl64 by lia.
  destruct (Z.leb_spec 0 i); [destruct (Z.ltb_spec i 64)|]; simpl; try reflexivity.
  - clear_u8_bits. reflexivity.
  - clear_u8_bits. reflexivity.
Qed.

Lemma testbit_getb (w k i : Z) :
  Z.testbit (getb w k) i = (0 <=? i) && (i <? 8) && Z.testbit w (i + k).
Proof.
  unfold getb. rewrite Z.land_spec, testbit_shiftr, testbit_ff. btauto.
Qed.

Lemma is_u8_getb (w k : Z) : is_u8 (getb w k).
Proof. apply is_u8_land_ff. Qed.

Lemma getb_top (w : Z) : is_u64 w -> w >> 56 = getb w 56.
Proof.
  intros Hw. apply Z.bits_inj'. intros i Hi.
  rewrite testbit_getb, testbit_shiftr. split_cmp; simpl; [reflexivity|].
  apply testbit_u64_out; [assumption | lia].
Qed.

Lemma getb_lxor (a b k : Z) : getb (a .^ b) k = getb a k .^ getb b k.
Proof.
  apply Z.bits_inj'. intros i Hi.
  rewrite Z.lxor_spec, !testbit_getb, Z.lxor_spec. btauto.
Qed.

(** Reading back each of eight packed bytes. *)
Lemma getb_pack64 b0 b1 b2 b3 b4 b5 b6 b7 :
  is_u8 b0 -> is_u8 b1 -> is_u8 b2 -> is_u8 b3 ->
  is_u8 b4 -> is_u8 b5 -> is_u8 b6 -> is_u8 b7 ->
  let w := pack64 b0 b1 b2 b3 b4 b5 b6 b7 in
  getb w 56 = b0 /\ getb w 48 = b1 /\ getb w 40 = b2 /\ getb w 32 = b3 /\
  getb w 24 = b4 /\ getb w 16 = b5 /\ getb w 8 = b6 /\ getb w 0 = b7.
Proof.
  intros H0 H1 H2 H3 H4 H5 H6 H7 w. subst w.
  repeat split;
    (apply Z.bits_inj'; intros i Hi;
     rewrite testbit_getb, testbit_pack64 by assumption;
     destruct (Z.ltb_spec i 8); [|clear_u8_bits; now rewrite ?andb_false_r];
     clear_u8_bits; split_cmp; simpl; rewrite ?orb_false_r; f_equal; lia).
Qed.

(** A 64-bit word is the packing of its eight bytes. *)
Lemma pack64_getb (w : Z) :
  is_u64 w ->
  pack64 (getb w 56) (getb w 48) (getb w 40) (getb w 32)
         (getb w 24) (getb w 16) (getb w 8) (getb w 0) = w.
Proof.
  intros Hw. apply Z.bits_inj'. intros i Hi.
  rewrite testbit_pack64 by apply is_u8_getb.
  rewrite !testbit_getb.
  replace (i - 56 + 56) with i by lia. replace (i - 48 + 48) with i by lia.
  replace (i - 40 + 40) with i by lia. replace (i - 32 + 32) with i by lia.
  replace (i - 24 + 24) with i by lia. replace (i - 16 + 16) with i by lia.
  replace (i - 8 + 8) with i by lia. rewrite Z.add_0_r.
  destruct (Z.ltb_spec i 64) as [Hlt|Hge].
  - split_cmp; simpl; rewrite ?orb_false_r; reflexivity.
  - rewrite (testbit_u64_out w i Hw) by lia. now rewrite !andb_false_r.
Qed.

(** Two 64-bit words with the same eight bytes are equal. *)
Lemma u64_ext (v w : Z) :
  is_u64 v -> is_u64 w ->
  (forall k, In k [56; 48; 40; 32; 24; 16; 8; 0] -> getb v k = getb w k) ->
  v = w.
Proof.
  intros Hv Hw H. rewrite <- (pack64_getb v Hv), <- (pack64_getb w Hw).
  rewrite !H by (simpl; tauto). reflexivity.
Qed.

Lemma pack64_lxor a0 a1 a2 a3 a4 a5 a6 a7 b0 b1 b2 b3 b4 b5 b6 b7 :
  is_u8 a0 -> is_u8 a1 -> is_u8 a2 -> is_u8 a3 ->
  is_u8 a4 -> is_u8 a5 -> is_u8 a6 -> is_u8 a7 ->
  is_u8 b0 -> is_u8 b1 -> is_u8 b2 -> is_u8 b3 ->
  is_u8 b4 -> is_u8 b5 -> is_u8 b6 -> is_u8 b7 ->
  pack64 a0 a1 a2 a3 a4 a5 a6 a7 .^ pack64 b0 b1 b2 b3 b4 b5 b6 b7
  = pack64 (a0 .^ b0) (a1 .^ b1) (a2 .^ b2) (a3 .^ b3)
           (a4 .^ b4) (a5 .^ b5) (a6 .^ b6) (a7 .^ b7).
Proof.
  intros.
  destruct (getb_pack64 a0 a1 a2 a3 a4 a5 a6 a7) as (?&?&?&?&?&?&?&?); try assumption.
  destruct (getb_pack64 b0 b1 b2 b3 b4 b5 b6 b7) as (?&?&?&?&?&?&?&?); try assumption.
  destruct (getb_pack64 (a0 .^ b0) (a1 .^ b1) (a2 .^ b2) (a3 .^ b3)
              (a4 .^ b4) (a5 .^ b5) (a6 .^ b6) (a7 .^ b7))
    as (?&?&?&?&?&?&?&?); try (apply is_u8_lxor; assumption).
  apply u64_ext.
  - apply is_u64_lxor; apply is_u64_pack64.
  - apply is_u64_pack64.
  - intros k Hk. rewrite getb_lxor. simpl in Hk.
    repeat (destruct Hk as [<-|Hk]; [congruence|]). contradiction.
Qed.

(** * Blocks as sixteen bytes *)

Create HintDb u8 discriminated.
#[export] Hint Resolve is_u8_lxor is_u8_getb is_u8_land_ff is_u8_mod : u8.

Lemma wf128_blk b0 b1 b2 b3 b4 b5 b6 b7 b8 b9 b10 b11 b12 b13 b14 b15 :
  wf128 (blk b0 b1 b2 b3 b4 b5 b6 b7 b8 b9 b10 b11 b12 b13 b14 b15).
Proof. split; apply is_u64_pack64. Qed.

Lemma is_u8_x0 x : wf128 x -> is_u8 (x0 x).
Proof. intros [H _]. now apply is_u8_shiftr_56. Qed.

Lemma is_u8_x8 x : wf128 x -> is_u8 (x8 x).
Proof. intros [_ H]. now apply is_u8_shiftr_56. Qed.

#[export] Hint Resolve is_u8_x0 is_u8_x8 : u8.

(** Every block is the packing of its sixteen bytes [x0] .. [x15]. *)
Lemma blk_bytes x :
  wf128 x ->
  x = blk (x0 x) (x1 x) (x2 x) (x3 x) (x4 x) (x5 x) (x6 x) (x7 x)
          (x8 x) (x9 x) (x10 x) (x11 x) (x12 x) (x13 x) (x14 x) (x15 x).
Proof.
  destruct x as [l r]. intros [Hl Hr]. simpl in Hl, Hr.
  unfold blk, x0, x8. simpl left. simpl right.
  rewrite (getb_top l Hl), (getb_top r Hr).
  f_equal; symmetry; now apply pack64_getb.
Qed.

Lemma x_getb x :
  x1 x = getb (left x) 48 /\ x2 x = getb (left x) 40 /\ x3 x = getb (left x) 32 /\
  x4 x = getb (left x) 24 /\ x5 x = getb (left x) 16 /\ x6 x = getb (left x) 8 /\
  x7 x = getb (left x) 0 /\
  x9 x = getb (right x) 48 /\ x10 x = getb (right x) 40 /\ x11 x = getb (right x) 32 /\
  x12 x = getb (right x) 24 /\ x13 x = getb (right x) 16 /\ x14 x = getb (right x) 8 /\
  x15 x = getb (right x) 0.
Proof. repeat split. Qed.

Section Bytes16.
Variables b0 b1 b2 b3 b4 b5 b6 b7 b8 b9 b10 b11 b12 b13 b14 b15 : Z.
Hypothesis (H0 : is_u8 b0) (H1 : is_u8 b1) (H2 : is_u8 b2) (H3 : is_u8 b3)
  (H4 : is_u8 b4) (H5 : is_u8 b5) (H6 : is_u8 b6) (H7 : is_u8 b7)
  (H8 : is_u8 b8) (H9 : is_u8 b9) (H10 : is_u8 b10) (H11 : is_u8 b11)
  (H12 : is_u8 b12) (H13 : is_u8 b13) (H14 : is_u8 b14) (H15 : is_u8 b15).

Let B := blk b0 b1 b2 b3 b4 b5 b6 b7 b8 b9 b10 b11 b12 b13 b14 b15.

Lemma bytes_blk :
  x0 B = b0 /\ x1 B = b1 /\ x2 B = b2 /\ x3 B = b3 /\
  x4 B = b4 /\ x5 B = b5 /\ x6 B = b6 /\ x7 B = b7 /\
  x8 B = b8 /\ x9 B = b9 /\ x10 B = b10 /\ x11 B = b11 /\
  x12 B = b12 /\ x13 B = b13 /\ x14 B = b14 /\ x15 B = b15.
Proof.
  pose proof (getb_pack64 b0 b1 b2 b3 b4 b5 b6 b7 H0 H1 H2 H3 H4 H5 H6 H7)
    as (L0&L1&L2&L3&L4&L5&L6&L7).
  pose proof (getb_pack64 b8 b9 b10 b11 b12 b13 b14 b15
                H8 H9 H10 H11 H12 H13 H14 H15) as (R0&R1&R2&R3&R4&R5&R6&R7).
  pose proof (x_getb B) as (E1&E2&E3&E4&E5&E6&E7&E9&E10&E11&E12&E13&E14&E15).
  rewrite E1, E2, E3, E4, E5, E6, E7, E9, E10, E11, E12, E13, E14, E15.
  unfold x0, x8. subst B. unfold blk. cbn [left right].
  rewrite !getb_top by apply is_u64_pack64.
  exact (conj L0 (conj L1 (conj L2 (conj L3 (conj L4 (conj L5 (conj L6 (conj L7
        (conj R0 (conj R1 (conj R2 (conj R3 (conj R4 (conj R5 (conj R6 R7))))))))))))))).
Qed.
End Bytes16.

(** ** The tables hold bytes, and are inverse in pairs *)

Lemma forall_u8 (P : Z -> bool) :
  forallb P (map Z.of_nat (seq 0 256)) = true ->
  forall b, is_u8 b -> P b = true.
Proof.
  intros HP b Hb. rewrite forallb_forall in HP. apply HP.
  apply in_map_iff. exists (Z.to_nat b). unfold is_u8 in Hb. split.
  - apply Z2Nat.id. lia.
  - apply in_seq. change (2 ^ 8) with 256 in Hb. lia.
Qed.

Lemma is_u8b_spec (z : Z) : is_u8b z = true <-> is_u8 z.
Proof. unfold is_u8b, is_u8. rewrite andb_true_iff, Z.leb_le, Z.ltb_lt. tauto. Qed.

Lemma is_u8_tbl (T : list Z) (i : Z) :
  forallb is_u8b T = true -> is_u8 T.[i].
Proof.
  intros HT. unfold tbl. rewrite forallb_forall in HT.
  destruct (nth_in_or_default (Z.to_nat i) T 0) as [Hin | ->].
  - apply is_u8b_spec, HT, Hin.
  - unfold is_u8. lia.
Qed.

Lemma is_u8_SB1 i : is_u8 SB1.[i].
Proof. apply is_u8_tbl. vm_compute. reflexivity. Qed.
Lemma is_u8_SB2 i : is_u8 SB2.[i].
Proof. apply is_u8_tbl. vm_compute. reflexivity. Qed.
Lemma is_u8_SB3 i : is_u8 SB3.[i].
Proof. apply is_u8_tbl. vm_compute. reflexivity. Qed.
Lemma is_u8_SB4 i : is_u8 SB4.[i].
Proof. apply is_u8_tbl. vm_compute. reflexivity. Qed.

#[export] Hint Resolve is_u8_SB1 is_u8_SB2 is_u8_SB3 is_u8_SB4 : u8.

Lemma tbl_inverse (S T : list Z) :
  forallb (fun b => T.[S.[b]] =? b) (map Z.of_nat (seq 0 256)) = true ->
  forall b, is_u8 b -> T.[S.[b]] = b.
Proof. intros H b Hb. apply Z.eqb_eq. revert b Hb. now apply forall_u8. Qed.

Lemma SB3_SB1 b : is_u8 b -> SB3.[SB1.[b]] = b.
Proof. apply tbl_inverse. vm_compute. reflexivity. Qed.
Lemma SB1_SB3 b : is_u8 b -> SB1.[SB3.[b]] = b.
Proof. apply tbl_inverse. vm_compute. reflexivity. Qed.
Lemma SB4_SB2 b : is_u8 b -> SB4.[SB2.[b]] = b.
Proof. apply tbl_inverse. vm_compute. reflexivity. Qed.
Lemma SB2_SB4 b : is_u8 b -> SB2.[SB4.[b]] = b.
Proof. apply tbl_inverse. vm_compute. reflexivity. Qed.

(** ** The layers on sixteen bytes *)

Lemma aria_SL1_eq x :
  aria_SL1 x =
  blk SB1.[x0 x] SB2.[x1 x] SB3.[x2 x] SB4.[x3 x]
      SB1.[x4 x] SB2.[x5 x] SB3.[x6 x] SB4.[x7 x]
      SB1.[x8 x] SB2.[x9 x] SB3.[x10 x] SB4.[x11 x]
      SB1.[x12 x] SB2.[x13 x] SB3.[x14 x] SB4.[x15 x].
Proof. unfold blk, pack64. reflexivity. Qed.

Lemma aria_SL2_eq x :
  aria_SL2 x =
  blk SB3.[x0 x] SB4.[x1 x] SB1.[x2 x] SB2.[x3 x]
      SB3.[x4 x] SB4.[x5 x] SB1.[x6 x] SB2.[x7 x]
      SB3.[x8 x] SB4.[x9 x] SB1.[x10 x] SB2.[x11 x]
      SB3.[x12 x] SB4.[x13 x] SB1.[x14 x] SB2.[x15 x].
Proof. unfold blk, pack64. reflexivity. Qed.

Lemma aria_A_direct_eq x :
  aria_A_direct x =
  blk (x3 x .^ x4 x .^ x6 x .^ x8 x .^ x9 x .^ x13 x .^ x14 x)
      (x2 x .^ x5 x .^ x7 x .^ x8 x .^ x9 x .^ x12 x .^ x15 x)
      (x1 x .^ x4 x .^ x6 x .^ x10 x .^ x11 x .^ x12 x .^ x15 x)
      (x0 x .^ x5 x .^ x7 x .^ x10 x .^ x11 x .^ x13 x .^ x14 x)
      (x0 x .^ x2 x .^ x5 x .^ x8 x .^ x11 x .^ x14 x .^ x15 x)
      (x1 x .^ x3 x .^ x4 x .^ x9 x .^ x10 x .^ x14 x .^ x15 x)
      (x0 x .^ x2 x .^ x7 x .^ x9 x .^ x10 x .^ x12 x .^ x13 x)
      (x1 x .^ x3 x .^ x6 x .^ x8 x .^ x11 x .^ x12 x .^ x13 x)
      (x0 x .^ x1 x .^ x4 x .^ x7 x .^ x10 x .^ x13 x .^ x15 x)
      (x0 x .^ x1 x .^ x5 x .^ x6 x .^ x11 x .^ x12 x .^ x14 x)
      (x2 x .^ x3 x .^ x5 x .^ x6 x .^ x8 x .^ x13 x .^ x15 x)
      (x2 x .^ x3 x .^ x4 x .^ x7 x .^ x9 x .^ x12 x .^ x14 x)
      (x1 x .^ x2 x .^ x6 x .^ x7 x .^ x9 x .^ x11 x .^ x12 x)
      (x0 x .^ x3 x .^ x6 x .^ x7 x .^ x8 x .^ x10 x .^ x13 x)
      (x0 x .^ x3 x .^ x4 x .^ x5 x .^ x9 x .^ x11 x .^ x14 x)
      (x1 x .^ x2 x .^ x4 x .^ x5 x .^ x8 x .^ x10 x .^ x15 x).
Proof. unfold blk, pack64. reflexivity. Qed.

Lemma aria_A_eq x :
  let t0 := uint8_t (x0 x .^ x7 x .^ x10 x .^ x13 x) in
  let t1 := uint8_t (x1 x .^ x6 x .^ x11 x .^ x12 x) in
  let t2 := uint8_t (x2 x .^ x5 x .^ x8 x .^ x15 x) in
  let t3 := uint8_t (x3 x .^ x4 x .^ x9 x .^ x14 x) in
  aria_A x =
  blk (t3 .^ x6 x .^ x8 x .^ x13 x) (t2 .^ x7 x .^ x9 x .^ x12 x)
      (t1 .^ x4 x .^ x10 x .^ x15 x) (t0 .^ x5 x .^ x11 x .^ x14 x)
      (x0 x .^ t2 .^ x11 x .^ x14 x) (x1 x .^ t3 .^ x10 x .^ x15 x)
      (t0 .^ x2 x .^ x9 x .^ x12 x) (t1 .^ x3 x .^ x8 x .^ x13 x)
      (t0 .^ x1 x .^ x4 x .^ x15 x) (x0 x .^ t1 .^ x5 x .^ x14 x)
      (t2 .^ x3 x .^ x6 x .^ x13 x) (x2 x .^ t3 .^ x7 x .^ x12 x)
      (t1 .^ x2 x .^ x7 x .^ x9 x) (t0 .^ x3 x .^ x6 x .^ x8 x)
      (x0 x .^ t3 .^ x5 x .^ x11 x) (x1 x .^ t2 .^ x4 x .^ x10 x).
Proof. unfold blk, pack64. reflexivity. Qed.

(** The layers always return a well-formed block. *)
Lemma wf128_SL1 x : wf128 (aria_SL1 x).
Proof. rewrite aria_SL1_eq. apply wf128_blk. Qed.

Lemma wf128_SL2 x : wf128 (aria_SL2 x).
Proof. rewrite aria_SL2_eq. apply wf128_blk. Qed.

Lemma wf128_A x : wf128 (aria_A x).
Proof. rewrite aria_A_eq. apply wf128_blk. Qed.

Lemma wf128_A_direct x : wf128 (aria_A_direct x).
Proof. rewrite aria_A_direct_eq. apply wf128_blk. Qed.

Lemma is_u8_bytes x :
  wf128 x ->
  is_u8 (x0 x) /\ is_u8 (x1 x) /\ is_u8 (x2 x) /\ is_u8 (x3 x) /\
  is_u8 (x4 x) /\ is_u8 (x5 x) /\ is_u8 (x6 x) /\ is_u8 (x7 x) /\
  is_u8 (x8 x) /\ is_u8 (x9 x) /\ is_u8 (x10 x) /\ is_u8 (x11 x) /\
  is_u8 (x12 x) /\ is_u8 (x13 x) /\ is_u8 (x14 x) /\ is_u8 (x15 x).
Proof.
  intros Hx.
  exact (conj (is_u8_x0 x Hx) (conj (is_u8_land_ff _) (conj (is_u8_land_ff _)
        (conj (is_u8_land_ff _) (conj (is_u8_land_ff _) (conj (is_u8_land_ff _)
        (conj (is_u8_land_ff _) (conj (is_u8_land_ff _)
        (conj (is_u8_x8 x Hx) (conj (is_u8_land_ff _) (conj (is_u8_land_ff _)
        (conj (is_u8_land_ff _) (conj (is_u8_land_ff _) (conj (is_u8_land_ff _)
        (conj (is_u8_land_ff _) (is_u8_land_ff _)))))))))))))))).
Qed.

(** To prove a property of every block, prove it of every packing of
    sixteen bytes. *)
Lemma blk_ind (P : aria_u128_t -> Prop) :
  (forall b0 b1 b2 b3 b4 b5 b6 b7 b8 b9 b10 b11 b12 b13 b14 b15,
      is_u8 b0 -> is_u8 b1 -> is_u8 b2 -> is_u8 b3 ->
      is_u8 b4 -> is_u8 b5 -> is_u8 b6 -> is_u8 b7 ->
      is_u8 b8 -> is_u8 b9 -> is_u8 b10 -> is_u8 b11 ->
      is_u8 b12 -> is_u8 b13 -> is_u8 b14 -> is_u8 b15 ->
      P (blk b0 b1 b2 b3 b4 b5 b6 b7 b8 b9 b10 b11 b12 b13 b14 b15)) ->
  forall x, wf128 x -> P x.
Proof.
  intros HP x Hx. rewrite (blk_bytes x Hx).
  destruct (is_u8_bytes x Hx) as (?&?&?&?&?&?&?&?&?&?&?&?&?&?&?&?).
  now apply HP.
Qed.

(** Equations between xor-expressions, bit by bit. *)
Ltac xor_solve :=
  apply Z.bits_inj'; intros ?i _; rewrite ?Z.lxor_spec; btauto.

Ltac use_bytes_blk :=
  match goal with
  | |- context [x0 (blk ?a0 ?a1 ?a2 ?a3 ?a4 ?a5 ?a6 ?a7 ?a8 ?a9 ?a10 ?a11 ?a12 ?a13 ?a14 ?a15)] =>
      let E0 := fresh in let E1 := fresh in let E2 := fresh in let E3 := fresh in
      let E4 := fresh in let E5 := fresh in let E6 := fresh in let E7 := fresh in
      let E8 := fresh in let E9 := fresh in let E10 := fresh in let E11 := fresh in
      let E12 := fresh in let E13 := fresh in let E14 := fresh in let E15 := fresh in
      destruct (bytes_blk a0 a1 a2 a3 a4 a5 a6 a7 a8 a9 a10 a11 a12 a13 a14 a15)
        as (E0&E1&E2&E3&E4&E5&E6&E7&E8&E9&E10&E11&E12&E13&E14&E15);
      [ auto 8 with u8 .. | ];
      rewrite ?E0, ?E1, ?E2, ?E3, ?E4, ?E5, ?E6, ?E7, ?E8, ?E9, ?E10, ?E11, ?E12, ?E13, ?E14, ?E15;
      clear E0 E1 E2 E3 E4 E5 E6 E7 E8 E9 E10 E11 E12 E13 E14 E15
  end.

Section Layers16.
Variables b0 b1 b2 b3 b4 b5 b6 b7 b8 b9 b10 b11 b12 b13 b14 b15 : Z.
Hypothesis (H0 : is_u8 b0) (H1 : is_u8 b1) (H2 : is_u8 b2) (H3 : is_u8 b3)
  (H4 : is_u8 b4) (H5 : is_u8 b5) (H6 : is_u8 b6) (H7 : is_u8 b7)
  (H8 : is_u8 b8) (H9 : is_u8 b9) (H10 : is_u8 b10) (H11 : is_u8 b11)
  (H12 : is_u8 b12) (H13 : is_u8 b13) (H14 : is_u8 b14) (H15 : is_u8 b15).

Let B := blk b0 b1 b2 b3 b4 b5 b6 b7 b8 b9 b10 b11 b12 b13 b14 b15.

Lemma aria_SL1_blk :
  aria_SL1 B =
  blk SB1.[b0] SB2.[b1] SB3.[b2] SB4.[b3] SB1.[b4] SB2.[b5] SB3.[b6] SB4.[b7]
      SB1.[b8] SB2.[b9] SB3.[b10] SB4.[b11] SB1.[b12] SB2.[b13] SB3.[b14] SB4.[b15].
Proof. rewrite aria_SL1_eq. subst B. use_bytes_blk. reflexivity. Qed.

Lemma aria_SL2_blk :
  aria_SL2 B =
  blk SB3.[b0] SB4.[b1] SB1.[b2] SB2.[b3] SB3.[b4] SB4.[b5] SB1.[b6] SB2.[b7]
      SB3.[b8] SB4.[b9] SB1.[b10] SB2.[b11] SB3.[b12] SB4.[b13] SB1.[b14] SB2.[b15].
Proof. rewrite aria_SL2_eq. subst B. use_bytes_blk. reflexivity. Qed.

Lemma aria_A_direct_blk :
  aria_A_direct B =
  blk (b3 .^ b4 .^ b6 .^ b8 .^ b9 .^ b13 .^ b14)
      (b2 .^ b5 .^ b7 .^ b8 .^ b9 .^ b12 .^ b15)
      (b1 .^ b4 .^ b6 .^ b10 .^ b11 .^ b12 .^ b15)
      (b0 .^ b5 .^ b7 .^ b10 .^ b11 .^ b13 .^ b14)
      (b0 .^ b2 .^ b5 .^ b8 .^ b11 .^ b14 .^ b15)
      (b1 .^ b3 .^ b4 .^ b9 .^ b10 .^ b14 .^ b15)
      (b0 .^ b2 .^ b7 .^ b9 .^ b10 .^ b12 .^ b13)
      (b1 .^ b3 .^ b6 .^ b8 .^ b11 .^ b12 .^ b13)
      (b0 .^ b1 .^ b4 .^ b7 .^ b10 .^ b13 .^ b15)
      (b0 .^ b1 .^ b5 .^ b6 .^ b11 .^ b12 .^ b14)
      (b2 .^ b3 .^ b5 .^ b6 .^ b8 .^ b13 .^ b15)
      (b2 .^ b3 .^ b4 .^ b7 .^ b9 .^ b12 .^ b14)
      (b1 .^ b2 .^ b6 .^ b7 .^ b9 .^ b11 .^ b12)
      (b0 .^ b3 .^ b6 .^ b7 .^ b8 .^ b10 .^ b13)
      (b0 .^ b3 .^ b4 .^ b5 .^ b9 .^ b11 .^ b14)
      (b1 .^ b2 .^ b4 .^ b5 .^ b8 .^ b10 .^ b15).
Proof. rewrite aria_A_direct_eq. subst B. use_bytes_blk. reflexivity. Qed.
End Layers16.

(** ** Algebra of [xor] *)

Lemma xor_comm x y : xor x y = xor y x.
Proof. unfold xor. now rewrite (Z.lxor_comm (left x)), (Z.lxor_comm (right x)). Qed.

Lemma xor_assoc x y z : xor (xor x y) z = xor x (xor y z).
Proof. unfold xor. cbn [left right]. now rewrite !Z.lxor_assoc. Qed.

Lemma xor_cancel_r x k : xor (xor x k) k = x.
Proof.
  destruct x as [l r]. unfold xor. cbn [left right].
  now rewrite !Z.lxor_assoc, !Z.lxor_nilpotent, !Z.lxor_0_r.
Qed.

Lemma xor_zero_r x : xor x (mk128 0 0) = x.
Proof. destruct x as [l r]. unfold xor. cbn [left right]. now rewrite !Z.lxor_0_r. Qed.

Lemma wf128_xor x y : wf128 x -> wf128 y -> wf128 (xor x y).
Proof. intros [? ?] [? ?]. split; cbn [xor left right]; now apply is_u64_lxor. Qed.

Lemma xor_blk a0 a1 a2 a3 a4 a5 a6 a7 a8 a9 a10 a11 a12 a13 a14 a15
              b0 b1 b2 b3 b4 b5 b6 b7 b8 b9 b10 b11 b12 b13 b14 b15 :
  is_u8 a0 -> is_u8 a1 -> is_u8 a2 -> is_u8 a3 ->
  is_u8 a4 -> is_u8 a5 -> is_u8 a6 -> is_u8 a7 ->
  is_u8 a8 -> is_u8 a9 -> is_u8 a10 -> is_u8 a11 ->
  is_u8 a12 -> is_u8 a13 -> is_u8 a14 -> is_u8 a15 ->
  is_u8 b0 -> is_u8 b1 -> is_u8 b2 -> is_u8 b3 ->
  is_u8 b4 -> is_u8 b5 -> is_u8 b6 -> is_u8 b7 ->
  is_u8 b8 -> is_u8 b9 -> is_u8 b10 -> is_u8 b11 ->
  is_u8 b12 -> is_u8 b13 -> is_u8 b14 -> is_u8 b15 ->
  xor (blk a0 a1 a2 a3 a4 a5 a6 a7 a8 a9 a10 a11 a12 a13 a14 a15)
      (blk b0 b1 b2 b3 b4 b5 b6 b7 b8 b9 b10 b11 b12 b13 b14 b15)
  = blk (a0 .^ b0) (a1 .^ b1) (a2 .^ b2) (a3 .^ b3)
        (a4 .^ b4) (a5 .^ b5) (a6 .^ b6) (a7 .^ b7)
        (a8 .^ b8) (a9 .^ b9) (a10 .^ b10) (a11 .^ b11)
        (a12 .^ b12) (a13 .^ b13) (a14 .^ b14) (a15 .^ b15).
Proof.
  intros. unfold xor, blk. cbn [left right].
  rewrite !pack64_lxor by assumption. reflexivity.
Qed.

(** ** The diffusion layer *)

(** The compiled branch of [aria_A] and the [#if 0] branch agree. *)
Lemma aria_A_direct_agree x : wf128 x -> aria_A x = aria_A_direct x.
Proof.
  intros Hx. rewrite aria_A_eq, aria_A_direct_eq. cbv zeta.
  destruct (is_u8_bytes x Hx)
    as (?&?&?&?&?&?&?&?&?&?&?&?&?&?&?&?).
  rewrite !uint8_t_small by auto 8 with u8.
  f_equal; xor_solve.
Qed.

Lemma aria_A_direct_involutive x : wf128 x -> aria_A_direct (aria_A_direct x) = x.
Proof.
  intros Hx. pattern x. apply blk_ind; [clear x Hx | exact Hx]. intros.
  rewrite aria_A_direct_blk by assumption.
  rewrite aria_A_direct_blk by auto 8 with u8.
  f_equal; xor_solve.
Qed.

Lemma aria_A_involutive x : wf128 x -> aria_A (aria_A x) = x.
Proof.
  intros Hx. rewrite (aria_A_direct_agree (aria_A x)) by apply wf128_A.
  rewrite (aria_A_direct_agree x Hx). now apply aria_A_direct_involutive.
Qed.

Lemma aria_A_direct_xor x y :
  wf128 x -> wf128 y ->
  aria_A_direct (xor x y) = xor (aria_A_direct x) (aria_A_direct y).
Proof.
  intros Hx Hy. revert y Hy. pattern x. apply blk_ind; [clear x Hx | exact Hx].
  intros a0 a1 a2 a3 a4 a5 a6 a7 a8 a9 a10 a11 a12 a13 a14 a15
    ? ? ? ? ? ? ? ? ? ? ? ? ? ? ? ? y Hy.
  pattern y. apply blk_ind; [clear y Hy | exact Hy]. intros.
  rewrite xor_blk by assumption.
  rewrite !aria_A_direct_blk by auto 8 with u8.
  rewrite xor_blk by auto 8 with u8.
  f_equal; xor_solve.
Qed.

Lemma aria_A_xor x y :
  wf128 x -> wf128 y -> aria_A (xor x y) = xor (aria_A x) (aria_A y).
Proof.
  intros Hx Hy. rewrite !aria_A_direct_agree by auto using wf128_xor.
  now apply aria_A_direct_xor.
Qed.

(** ** The substitution layers are inverse to one another *)

Lemma aria_SL2_SL1 x : wf128 x -> aria_SL2 (aria_SL1 x) = x.
Proof.
  intros Hx. pattern x. apply blk_ind; [clear x Hx | exact Hx]. intros.
  rewrite aria_SL1_blk by assumption.
  rewrite aria_SL2_blk by auto with u8.
  rewrite !SB3_SB1, !SB4_SB2, !SB1_SB3, !SB2_SB4 by assumption. reflexivity.
Qed.

Lemma aria_SL1_SL2 x : wf128 x -> aria_SL1 (aria_SL2 x) = x.
Proof.
  intros Hx. pattern x. apply blk_ind; [clear x Hx | exact Hx]. intros.
  rewrite aria_SL2_blk by assumption.
  rewrite aria_SL1_blk by auto with u8.
  rewrite !SB3_SB1, !SB4_SB2, !SB1_SB3, !SB2_SB4 by assumption. reflexivity.
Qed.

(** * Reading and writing an array in memory *)

Lemma load_lookup (m : memory) (a : loc) (arr : list aria_u128_t) (i : nat) :
  m !! a = Some arr -> load m a i = arr !! i.
Proof. intros H. unfold load. rewrite H. reflexivity. Qed.

Lemma load_nth (m : memory) (a : loc) (arr : list aria_u128_t) (i : nat)
    (d : aria_u128_t) :
  m !! a = Some arr -> (i < length arr)%nat -> load m a i = Some (nth i arr d).
Proof.
  intros H Hi. rewrite (load_lookup m a arr i H).
  rewrite nth_lookup. destruct (lookup_lt_is_Some_2 arr i Hi) as [x ->].
  reflexivity.
Qed.

(** On a memory whose array at [a] is [arr], a read is a list lookup and a
    write replaces the array at [a] by the updated list, leaving every
    other array as it is. *)
Lemma load_insert (m : memory) (a : loc) (arr : list aria_u128_t) (i : nat)
    (v : aria_u128_t) :
  arr !! i = Some v -> load (<[a := arr]> m) a i = Some v.
Proof. intros <-. apply load_lookup. apply lookup_insert_eq. Qed.

Lemma store_insert (m : memory) (a : loc) (arr arr' : list aria_u128_t)
    (i : nat) (v : aria_u128_t) :
  (i <? length arr)%nat = true -> <[i := v]> arr = arr' ->
  store (<[a := arr]> m) a i v = Some (<[a := arr']> m).
Proof.
  intros Hi <-. unfold store. rewrite lookup_insert_eq. simpl. rewrite Hi.
  now rewrite insert_insert_eq.
Qed.

(** Symbolic execution of array code on an explicit array. *)
Ltac exec_array :=
  repeat first
    [ erewrite load_insert by reflexivity
    | erewrite store_insert
        by (cbv [insert list_insert length Nat.ltb Nat.leb]; reflexivity)
    | progress cbn [mbind option_bind aria_crypt_loop aria_dk_loop
                    Nat.ltb Nat.leb Nat.add Nat.sub] ].

(** * The crypt engine *)

Lemma aria_crypt_loop_done fuel i rounds a P m :
  (rounds <= i)%nat -> aria_crypt_loop fuel i rounds a P m = Some P.
Proof.
  intros Hi. assert (E : (i <? rounds)%nat = false) by now apply Nat.ltb_ge.
  destruct fuel; simpl; now rewrite E.
Qed.

Lemma aria_crypt_loop_step fuel i rounds a P m ki ki1 :
  (i < rounds)%nat -> load m a i = Some ki -> load m a (i + 1) = Some ki1 ->
  aria_crypt_loop (S fuel) i rounds a P m
  = aria_crypt_loop fuel (i + 2) rounds a (aria_FO (aria_FE P ki) ki1) m.
Proof.
  intros Hi Hk Hk1. assert (E : (i <? rounds)%nat = true) by now apply Nat.ltb_lt.
  simpl. rewrite E, Hk. simpl. rewrite Hk1. reflexivity.
Qed.

Section Engine.
Variables (m : memory) (a : loc) (arr : list aria_u128_t) (d : aria_u128_t).
Hypothesis Harr : m !! a = Some arr.

Let key (j : nat) : aria_u128_t := nth j arr d.

(** The loop of the engine, with [n] double rounds to go, applies FE and
    FO alternately with the keys at [i], [i+1], ..., [rounds-1]. *)
Lemma aria_crypt_loop_spec (rounds n : nat) :
  forall fuel i P,
    (i + 2 * n = rounds)%nat -> (n <= fuel)%nat -> (rounds <= length arr)%nat ->
    aria_crypt_loop fuel i rounds a P m
    = Some (spec_interior true (map key (seq i (2 * n))) P).
Proof.
  induction n as [|n IH]; intros fuel i P Hin Hfuel Hlen.
  - simpl. apply aria_crypt_loop_done. lia.
  - destruct fuel as [|fuel]; [lia|].
    rewrite (aria_crypt_loop_step fuel i rounds a P m (key i) (key (i + 1)))
      by (try apply load_nth; auto; lia).
    rewrite IH by lia.
    replace (2 * S n)%nat with (S (S (2 * n))) by lia.
    replace (i + 2)%nat with (S (S i)) by lia.
    replace (i + 1)%nat with (S i) by lia.
    reflexivity.
Qed.

(** The engine on any even round count, on an array that holds the keys
    1 .. rounds+1. *)
Lemma aria_crypt_spec (rounds : nat) (Input : aria_u128_t) :
  Nat.Even rounds -> (2 <= rounds)%nat -> (rounds + 2 <= length arr)%nat ->
  aria_crypt rounds a Input m = Some (spec_crypt rounds key Input).
Proof.
  intros [n Hn] H2 Hlen. unfold aria_crypt, spec_crypt.
  rewrite (load_nth m a arr 1 d) by (auto; lia). simpl.
  rewrite (aria_crypt_loop_spec rounds (n - 1)) by lia. simpl.
  rewrite (load_nth m a arr rounds d), (load_nth m a arr (rounds + 1) d)
    by (auto; lia).
  simpl. replace (rounds - 2)%nat with (2 * (n - 1))%nat by lia.
  reflexivity.
Qed.
End Engine.

(** * Rotations *)

Lemma mod_128_wrap (k : Z) : 128 <= k < 256 -> k mod 128 = k - 128.
Proof.
  intros Hk. replace k with ((k - 128) + 1 * 128) at 1 by lia.
  rewrite Z.mod_add by lia. apply Z.mod_small. lia.
Qed.

Ltac clear_u64_bits :=
  repeat match goal with
    | H : is_u64 ?w |- context [Z.testbit ?w ?i] =>
        rewrite (testbit_u64_out w i H) by lia
    end.

Ltac same_bit := rewrite ?orb_false_r, ?orb_false_l; try reflexivity; f_equal; lia.

(** [ror] rotates the 128 bits of a block to the right: bit [i] of the
    result is bit [i + cnt] of the block, counted modulo 128. *)
Lemma ror_rotates (x : aria_u128_t) (cnt i : Z) :
  wf128 x -> 0 < cnt < 64 -> 0 <= i < 128 ->
  bit128 (ror x cnt) i = bit128 x ((i + cnt) mod 128).
Proof.
  intros [Hl Hr] Hc Hi. unfold bit128. cbn [ror left right].
  rewrite !Z.lor_spec, !testbit_shiftr, !testbit_shl64 by lia.
  destruct (Z.lt_ge_cases (i + cnt) 128) as [Hlt|Hge].
  - rewrite (Z.mod_small (i + cnt) 128) by lia.
    split_cmp; simpl; clear_u64_bits; same_bit.
  - rewrite (mod_128_wrap (i + cnt)) by lia.
    split_cmp; simpl; clear_u64_bits; same_bit.
Qed.

(** [rol] rotates to the left: bit [i] of the result is bit [i - cnt] of
    the block, counted modulo 128. *)
Lemma rol_rotates (x : aria_u128_t) (cnt i : Z) :
  wf128 x -> 0 < cnt < 64 -> 0 <= i < 128 ->
  bit128 (rol x cnt) i = bit128 x ((i - cnt) mod 128).
Proof.
  intros [Hl Hr] Hc Hi. unfold bit128. cbn [rol left right].
  rewrite !Z.lor_spec, !testbit_shiftr, !testbit_shl64 by lia.
  destruct (Z.lt_ge_cases (i - cnt) 0) as [Hlt|Hge].
  - replace ((i - cnt) mod 128) with (i - cnt + 128).
    2:{ replace (i - cnt) with ((i - cnt + 128) + (-1) * 128) at 2 by lia.
        rewrite Z.mod_add by lia. symmetry. apply Z.mod_small. lia. }
    split_cmp; simpl; clear_u64_bits; same_bit.
  - rewrite (Z.mod_small (i - cnt) 128) by lia.
    split_cmp; simpl; clear_u64_bits; same_bit.
Qed.

(** * Key expansion *)

Ltac abstract_keys :=
  repeat match goal with
    | |- context [xor ?a ?b] => generalize (xor a b); intro
    end.

Ltac explicit_array ek Hlen :=
  repeat (destruct ek as [|? ek]; [discriminate Hlen|]);
  try (destruct ek; [|discriminate Hlen]).

(** [compute_ek] writes the seventeen candidates at indices 1 .. 17 of the
    array at [a], and nothing else. *)
Lemma compute_ek_insert W0 W1 W2 W3 (m : memory) (a : loc) (e0 : aria_u128_t)
    (ks : list aria_u128_t) :
  length ks = 17%nat ->
  compute_ek W0 W1 W2 W3 a (<[a := e0 :: ks]> m)
  = Some (<[a := e0 :: spec_candidates (W0, W1, W2, W3)]> m).
Proof.
  intros Hlen. explicit_array ks Hlen.
  unfold compute_ek, spec_candidates. abstract_keys.
  exec_array. reflexivity.
Qed.

Lemma frame_insert : frame = <[ek_local := replicate 18 (mk128 0 0)]> ∅.
Proof. unfold frame. now rewrite insert_empty. Qed.

Lemma compute_ek_frame W0 W1 W2 W3 :
  compute_ek W0 W1 W2 W3 ek_local frame
  = Some {[ ek_local := mk128 0 0 :: spec_candidates (W0, W1, W2, W3) ]}.
Proof.
  rewrite frame_insert. change (replicate 18 (mk128 0 0))
    with (mk128 0 0 :: replicate 17 (mk128 0 0)).
  rewrite compute_ek_insert by reflexivity. now rewrite insert_empty.
Qed.

Lemma aria_W_128_spec Key : aria_W_128 Key = spec_W 128 Key (mk128 0 0).
Proof.
  unfold aria_W_128, spec_W, spec_CK. cbn [Z.eqb Pos.eqb].
  now rewrite xor_zero_r.
Qed.

Lemma aria_W_192_spec KeyLeft KeyRight :
  aria_W_192 KeyLeft KeyRight = spec_W 192 KeyLeft KeyRight.
Proof. reflexivity. Qed.

Lemma aria_W_256_spec KeyLeft KeyRight :
  aria_W_256 KeyLeft KeyRight = spec_W 256 KeyLeft KeyRight.
Proof. reflexivity. Qed.

Lemma aria_ek_128_spec Key :
  aria_ek_128 Key
  = Some {[ ek_local := mk128 0 0 :: spec_candidates (spec_W 128 Key (mk128 0 0)) ]}.
Proof.
  unfold aria_ek_128. rewrite aria_W_128_spec.
  destruct (spec_W 128 Key (mk128 0 0)) as [[[W0 W1] W2] W3].
  apply compute_ek_frame.
Qed.

Lemma aria_ek_192_spec KeyLeft KeyRight :
  aria_ek_192 KeyLeft KeyRight
  = Some {[ ek_local := mk128 0 0 :: spec_candidates (spec_W 192 KeyLeft KeyRight) ]}.
Proof.
  unfold aria_ek_192. rewrite aria_W_192_spec.
  destruct (spec_W 192 KeyLeft KeyRight) as [[[W0 W1] W2] W3].
  apply compute_ek_frame.
Qed.

Lemma aria_ek_256_spec KeyLeft KeyRight :
  aria_ek_256 KeyLeft KeyRight
  = Some {[ ek_local := mk128 0 0 :: spec_candidates (spec_W 256 KeyLeft KeyRight) ]}.
Proof.
  unfold aria_ek_256. rewrite aria_W_256_spec.
  destruct (spec_W 256 KeyLeft KeyRight) as [[[W0 W1] W2] W3].
  apply compute_ek_frame.
Qed.

Lemma length_spec_candidates W : length (spec_candidates W) = 17%nat.
Proof. destruct W as [[[W0 W1] W2] W3]. reflexivity. Qed.

(** The engine reads the keys 1 .. rounds+1 only. *)
Lemma aria_crypt_take (n : nat) (a : loc) (e0 : aria_u128_t)
    (ks : list aria_u128_t) (P : aria_u128_t) (m : memory) :
  Nat.Even n -> (2 <= n)%nat -> (n + 1 <= length ks)%nat ->
  aria_crypt n a P (<[a := e0 :: ks]> m)
  = aria_crypt n a P (<[a := e0 :: take (n + 1) ks]> m).
Proof.
  intros Hev H2 Hlen.
  rewrite (aria_crypt_spec (<[a := e0 :: ks]> m) a (e0 :: ks) e0);
    [ | apply lookup_insert_eq | assumption | assumption | simpl; lia ].
  rewrite (aria_crypt_spec (<[a := e0 :: take (n + 1) ks]> m) a
             (e0 :: take (n + 1) ks) e0);
    [ | apply lookup_insert_eq | assumption | assumption
      | simpl; rewrite length_take; lia ].
  assert (Hnth : forall j, (1 <= j <= n + 1)%nat ->
            nth j (e0 :: take (n + 1) ks) e0 = nth j (e0 :: ks) e0).
  { intros j Hj. destruct j as [|j]; [lia|]. simpl.
    rewrite !nth_lookup, lookup_take_lt by lia. reflexivity. }
  unfold spec_crypt. rewrite !Hnth by lia.
  replace (map (fun i => nth i (e0 :: take (n + 1) ks) e0) (seq 2 (n - 2)))
    with (map (fun i => nth i (e0 :: ks) e0) (seq 2 (n - 2))); [reflexivity|].
  apply map_ext_in. intros j Hj. apply in_seq in Hj. symmetry. apply Hnth. lia.
Qed.

(** * Well-formed blocks through the cipher *)

Lemma wf128_rol x cnt : wf128 x -> 0 <= cnt <= 64 -> wf128 (rol x cnt).
Proof.
  intros [Hl Hr] Hc. split; cbn [rol left right];
    (apply is_u64_lor; [apply is_u64_shl64 | apply is_u64_shiftr; [assumption | lia]]).
Qed.

Lemma wf128_ror x cnt : wf128 x -> 0 <= cnt <= 64 -> wf128 (ror x cnt).
Proof.
  intros [Hl Hr] Hc. split; cbn [ror left right];
    (apply is_u64_lor; [apply is_u64_shiftr; [assumption | lia] | apply is_u64_shl64]).
Qed.

Lemma wf128_FO d rk : wf128 (aria_FO d rk).
Proof. apply wf128_A. Qed.

Lemma wf128_FE d rk : wf128 (aria_FE d rk).
Proof. apply wf128_A. Qed.

Lemma wf128_const : wf128 C1 /\ wf128 C2 /\ wf128 C3 /\ wf128 (mk128 0 0).
Proof. unfold wf128, is_u64. cbn [left right C1 C2 C3]. lia. Qed.

Create HintDb wf discriminated.
#[export] Hint Resolve wf128_xor wf128_A wf128_FO wf128_FE wf128_SL1 wf128_SL2 : wf.

Lemma wf128_spec_W bits KL KR :
  wf128 KL -> wf128 KR ->
  let '(W0, W1, W2, W3) := spec_W bits KL KR in
  wf128 W0 /\ wf128 W1 /\ wf128 W2 /\ wf128 W3.
Proof.
  intros HL HR. unfold spec_W. destruct (spec_CK bits) as [[CK1 CK2] CK3].
  auto 6 with wf.
Qed.

Lemma wf128_spec_candidates W0 W1 W2 W3 :
  wf128 W0 -> wf128 W1 -> wf128 W2 -> wf128 W3 ->
  Forall wf128 (spec_candidates (W0, W1, W2, W3)).
Proof.
  intros H0 H1 H2 H3. unfold spec_candidates.
  repeat (apply List.Forall_cons; [apply wf128_xor;
    first [assumption | apply wf128_ror; [assumption|lia] | apply wf128_rol; [assumption|lia]] |]).
  apply List.Forall_nil.
Qed.

Lemma wf128_spec_keys bits KL KR :
  wf128 KL -> wf128 KR ->
  Forall wf128 (mk128 0 0 :: spec_candidates (spec_W bits KL KR)).
Proof.
  intros HL HR. pose proof (wf128_spec_W bits KL KR HL HR) as HW.
  destruct (spec_W bits KL KR) as [[[W0 W1] W2] W3]. destruct HW as (?&?&?&?).
  apply List.Forall_cons; [apply wf128_const | now apply wf128_spec_candidates].
Qed.

(** * Decryption undoes encryption, round by round *)

Section Undo.
Variables p k k' : aria_u128_t.
Hypotheses (Hp : wf128 p) (Hk : wf128 k) (Hk' : wf128 k').

(** The first decryption round removes the final key addition and the
    final substitution of the encryption. *)
Lemma undo_final :
  aria_FO (xor (aria_SL2 (xor p k)) k') k' = aria_A (xor p k).
Proof.
  unfold aria_FO. rewrite xor_cancel_r.
  rewrite aria_SL1_SL2 by auto with wf. reflexivity.
Qed.

Lemma undo_A_FO : aria_A (xor (aria_FO p k') k) = xor (aria_SL1 (xor p k')) (aria_A k).
Proof.
  rewrite aria_A_xor by auto with wf.
  unfold aria_FO. rewrite aria_A_involutive by auto with wf. reflexivity.
Qed.

Lemma undo_A_FE : aria_A (xor (aria_FE p k') k) = xor (aria_SL2 (xor p k')) (aria_A k).
Proof.
  rewrite aria_A_xor by auto with wf.
  unfold aria_FE. rewrite aria_A_involutive by auto with wf. reflexivity.
Qed.

(** An even decryption round with the key [A k] undoes an odd
    encryption round, and conversely. *)
Lemma undo_FO :
  aria_FE (aria_A (xor (aria_FO p k') k)) (aria_A k) = aria_A (xor p k').
Proof.
  rewrite undo_A_FO. unfold aria_FE. rewrite xor_cancel_r.
  rewrite aria_SL2_SL1 by auto with wf. reflexivity.
Qed.

Lemma undo_FE :
  aria_FO (aria_A (xor (aria_FE p k') k)) (aria_A k) = aria_A (xor p k').
Proof.
  rewrite undo_A_FE. unfold aria_FO. rewrite xor_cancel_r.
  rewrite aria_SL1_SL2 by auto with wf. reflexivity.
Qed.

(** The last decryption round undoes the first encryption round. *)
Lemma undo_first :
  xor (aria_SL2 (xor (aria_A (xor (aria_FO p k') k)) (aria_A k))) k' = p.
Proof.
  rewrite undo_A_FO, xor_cancel_r.
  rewrite aria_SL2_SL1 by auto with wf. apply xor_cancel_r.
Qed.
End Undo.

(** Well-formedness by the shape of the block alone. *)
Ltac wf_solve :=
  lazymatch goal with
  | |- wf128 (aria_FO _ _) => apply wf128_FO
  | |- wf128 (aria_FE _ _) => apply wf128_FE
  | |- wf128 (aria_A _) => apply wf128_A
  | |- wf128 (aria_SL1 _) => apply wf128_SL1
  | |- wf128 (aria_SL2 _) => apply wf128_SL2
  | |- wf128 (xor _ _) => apply wf128_xor; wf_solve
  | |- wf128 _ => assumption
  end.

Ltac undo_round :=
  match goal with
  | |- context [aria_FO (xor (aria_SL2 (xor ?p ?k)) ?k') ?k'] =>
      rewrite (undo_final p k k') by wf_solve
  | |- context [aria_FE (aria_A (xor (aria_FO ?p ?k') ?k)) (aria_A ?k)] =>
      rewrite (undo_FO p k k') by wf_solve
  | |- context [aria_FO (aria_A (xor (aria_FE ?p ?k') ?k)) (aria_A ?k)] =>
      rewrite (undo_FE p k k') by wf_solve
  | |- context [xor (aria_SL2 (xor (aria_A (xor (aria_FO ?p ?k') ?k)) (aria_A ?k))) ?k'] =>
      rewrite (undo_first p k k') by wf_solve
  end.

Ltac undo_rounds := repeat undo_round.

Ltac split_Forall H :=
  repeat match type of H with
    | Forall _ (_ :: _) =>
        let H1 := fresh "Hwf" in let H2 := fresh "Hwfs" in
        apply List.Forall_cons_iff in H; destruct H as [H1 H2]; rename H2 into H
    end.

(** ** The decryption keys, made in place *)

(** The array after [aria_dk_128], cell by cell; the cells above 13 are
    not touched. *)
Lemma aria_dk_128_insert (m : memory) (a : loc)
    (e0 e1 e2 e3 e4 e5 e6 e7 e8 e9 e10 e11 e12 e13 : aria_u128_t)
    (tl : list aria_u128_t) :
  aria_dk_128 a
    (<[a := e0 :: e1 :: e2 :: e3 :: e4 :: e5 :: e6 :: e7 :: e8 :: e9 :: e10 ::
               e11 :: e12 :: e13 :: tl]> m)
  = Some
    (<[a := e8 :: e13 :: aria_A e12 :: aria_A e11 :: aria_A e10 :: aria_A e9 ::
               aria_A e8 :: aria_A e7 :: aria_A e6 :: aria_A e5 :: aria_A e4 ::
               aria_A e3 :: aria_A e2 :: e1 :: tl]> m).
Proof. unfold aria_dk_128, aria_dk. exec_array. reflexivity. Qed.

(** The array after [aria_dk_192], cell by cell; the cells above 15 are
    not touched. *)
Lemma aria_dk_192_insert (m : memory) (a : loc)
    (e0 e1 e2 e3 e4 e5 e6 e7 e8 e9 e10 e11 e12 e13 e14 e15 : aria_u128_t)
    (tl : list aria_u128_t) :
  aria_dk_192 a
    (<[a := e0 :: e1 :: e2 :: e3 :: e4 :: e5 :: e6 :: e7 :: e8 :: e9 :: e10 ::
               e11 :: e12 :: e13 :: e14 :: e15 :: tl]> m)
  = Some
    (<[a := e9 :: e15 :: aria_A e14 :: aria_A e13 :: aria_A e12 :: aria_A e11 ::
               aria_A e10 :: aria_A e9 :: aria_A e8 :: aria_A e7 :: aria_A e6 ::
               aria_A e5 :: aria_A e4 :: aria_A e3 :: aria_A e2 :: e1 :: tl]> m).
Proof. unfold aria_dk_192, aria_dk. exec_array. reflexivity. Qed.

(** The array after [aria_dk_256], cell by cell; the cells above 17 are
    not touched. *)
Lemma aria_dk_256_insert (m : memory) (a : loc)
    (e0 e1 e2 e3 e4 e5 e6 e7 e8 e9 e10 e11 e12 e13 e14 e15 e16 e17 : aria_u128_t)
    (tl : list aria_u128_t) :
  aria_dk_256 a
    (<[a := e0 :: e1 :: e2 :: e3 :: e4 :: e5 :: e6 :: e7 :: e8 :: e9 :: e10 ::
               e11 :: e12 :: e13 :: e14 :: e15 :: e16 :: e17 :: tl]> m)
  = Some
    (<[a := e10 :: e17 :: aria_A e16 :: aria_A e15 :: aria_A e14 :: aria_A e13 ::
               aria_A e12 :: aria_A e11 :: aria_A e10 :: aria_A e9 :: aria_A e8 ::
               aria_A e7 :: aria_A e6 :: aria_A e5 :: aria_A e4 :: aria_A e3 ::
               aria_A e2 :: e1 :: tl]> m).
Proof. unfold aria_dk_256, aria_dk. exec_array. reflexivity. Qed.

(** ** Encrypting, deriving the decryption keys and decrypting *)

Lemma crypt_roundtrip_12 (m : memory) (a : loc) (ek : list aria_u128_t)
    (P : aria_u128_t) :
  length ek = 18%nat -> Forall wf128 ek -> wf128 P ->
  (c ← aria_crypt 12 a P (<[a := ek]> m);
   m' ← aria_dk_128 a (<[a := ek]> m);
   aria_crypt 12 a c m') = Some P.
Proof.
  intros Hlen Hwf HP. explicit_array ek Hlen. split_Forall Hwf.
  rewrite aria_dk_128_insert. unfold aria_crypt. exec_array.
  f_equal. undo_rounds. reflexivity.
Qed.

Lemma crypt_roundtrip_14 (m : memory) (a : loc) (ek : list aria_u128_t)
    (P : aria_u128_t) :
  length ek = 18%nat -> Forall wf128 ek -> wf128 P ->
  (c ← aria_crypt 14 a P (<[a := ek]> m);
   m' ← aria_dk_192 a (<[a := ek]> m);
   aria_crypt 14 a c m') = Some P.
Proof.
  intros Hlen Hwf HP. explicit_array ek Hlen. split_Forall Hwf.
  rewrite aria_dk_192_insert. unfold aria_crypt. exec_array.
  f_equal. undo_rounds. reflexivity.
Qed.

Lemma crypt_roundtrip_16 (m : memory) (a : loc) (ek : list aria_u128_t)
    (P : aria_u128_t) :
  length ek = 18%nat -> Forall wf128 ek -> wf128 P ->
  (c ← aria_crypt 16 a P (<[a := ek]> m);
   m' ← aria_dk_256 a (<[a := ek]> m);
   aria_crypt 16 a c m') = Some P.
Proof.
  intros Hlen Hwf HP. explicit_array ek Hlen. split_Forall Hwf.
  rewrite aria_dk_256_insert. unfold aria_crypt. exec_array.
  f_equal. undo_rounds. reflexivity.
Qed.

(** * The properties of the specification *)

(** ** Tables and layers *)

(** C7 — Table inverse property: for every byte b (0 <= b <= 255),
    SB3[SB1[b]] = b and SB4[SB2[b]] = b; the pairs (SB1, SB3) and
    (SB2, SB4) are mutual inverses, so SB1[SB3[b]] = b and
    SB2[SB4[b]] = b as well. *)
Theorem sbox_pairs_inverse (b : Z) :
  0 <= b <= 255 ->
  SB3.[SB1.[b]] = b /\ SB4.[SB2.[b]] = b /\
  SB1.[SB3.[b]] = b /\ SB2.[SB4.[b]] = b.
Proof.
  intros Hb. assert (H : is_u8 b) by (unfold is_u8; lia).
  auto using SB3_SB1, SB4_SB2, SB1_SB3, SB2_SB4.
Qed.

Lemma sbox_pairs_inverse_witness :
  0 <= 0x23 <= 255 /\ SB3.[SB1.[0x23]] = 0x23 /\ SB4.[SB2.[0x23]] = 0x23.
Proof.
  split; [lia|].
  split; [apply (sbox_pairs_inverse 0x23); lia | apply (sbox_pairs_inverse 0x23); lia].
Defined.

Lemma byte_at_blk b0 b1 b2 b3 b4 b5 b6 b7 b8 b9 b10 b11 b12 b13 b14 b15 (i : nat) :
  is_u8 b0 -> is_u8 b1 -> is_u8 b2 -> is_u8 b3 ->
  is_u8 b4 -> is_u8 b5 -> is_u8 b6 -> is_u8 b7 ->
  is_u8 b8 -> is_u8 b9 -> is_u8 b10 -> is_u8 b11 ->
  is_u8 b12 -> is_u8 b13 -> is_u8 b14 -> is_u8 b15 ->
  byte_at (blk b0 b1 b2 b3 b4 b5 b6 b7 b8 b9 b10 b11 b12 b13 b14 b15) i
  = nth i [b0; b1; b2; b3; b4; b5; b6; b7; b8; b9; b10; b11; b12; b13; b14; b15] 0.
Proof.
  intros. unfold byte_at.
  destruct (bytes_blk b0 b1 b2 b3 b4 b5 b6 b7 b8 b9 b10 b11 b12 b13 b14 b15)
    as (E0&E1&E2&E3&E4&E5&E6&E7&E8&E9&E10&E11&E12&E13&E14&E15); try assumption.
  rewrite E0, E1, E2, E3, E4, E5, E6, E7, E8, E9, E10, E11, E12, E13, E14, E15.
  reflexivity.
Qed.

Lemma byte_at_SL1 x i :
  (i < 16)%nat -> byte_at (aria_SL1 x) i = (spec_SL1_table i).[byte_at x i].
Proof.
  intros Hi. rewrite aria_SL1_eq, byte_at_blk by auto with u8.
  do 16 (destruct i as [|i]; [reflexivity|]). lia.
Qed.

Lemma byte_at_SL2 x i :
  (i < 16)%nat -> byte_at (aria_SL2 x) i = (spec_SL2_table i).[byte_at x i].
Proof.
  intros Hi. rewrite aria_SL2_eq, byte_at_blk by auto with u8.
  do 16 (destruct i as [|i]; [reflexivity|]). lia.
Qed.

(** C8 — Substitution layers: for every 16-byte block and every position
    i in 0..15, SL1 maps the byte at position i through the table of the
    cyclic pattern (SB1, SB2, SB3, SB4), and SL2 through the table of the
    cyclic pattern (SB3, SB4, SB1, SB2); the output byte at position i
    depends on the input byte at position i only: two blocks that agree at
    position i have outputs that agree at position i. *)
Theorem substitution_layers_bytewise (x y : aria_u128_t) (i : nat) :
  (i < 16)%nat ->
  byte_at (aria_SL1 x) i = (nth (i mod 4) [SB1; SB2; SB3; SB4] []).[byte_at x i] /\
  byte_at (aria_SL2 x) i = (nth (i mod 4) [SB3; SB4; SB1; SB2] []).[byte_at x i] /\
  (byte_at x i = byte_at y i ->
   byte_at (aria_SL1 x) i = byte_at (aria_SL1 y) i /\
   byte_at (aria_SL2 x) i = byte_at (aria_SL2 y) i).
Proof.
  intros Hi. split; [|split].
  - now apply byte_at_SL1.
  - now apply byte_at_SL2.
  - intros E. rewrite !byte_at_SL1, !byte_at_SL2, E by assumption. auto.
Qed.

Lemma substitution_layers_bytewise_witness :
  byte_at (aria_SL1 test_Plaintext) 5 = SB2.[0x55] /\
  byte_at (aria_SL2 test_Plaintext) 5 = SB4.[0x55].
Proof.
  split;
    apply (substitution_layers_bytewise test_Plaintext test_Plaintext 5); lia.
Defined.

(** ** The diffusion layer *)

(** C6 — Diffusion involution: for every 128-bit block x, A(A(x)) = x. *)
Theorem diffusion_involution (x : aria_u128_t) :
  wf128 x -> aria_A (aria_A x) = x.
Proof. apply aria_A_involutive. Qed.

Lemma wf128_test_Plaintext : wf128 test_Plaintext.
Proof. unfold wf128, is_u64. cbn [left right test_Plaintext]. lia. Qed.

Lemma diffusion_involution_witness :
  wf128 test_Plaintext /\ aria_A (aria_A test_Plaintext) = test_Plaintext.
Proof.
  split; [exact wf128_test_Plaintext |].
  apply (diffusion_involution test_Plaintext). exact wf128_test_Plaintext.
Defined.

Lemma byte_at_A_direct x i :
  wf128 x -> (i < 16)%nat -> byte_at (aria_A_direct x) i = spec_A_byte x i.
Proof.
  intros Hx Hi. destruct (is_u8_bytes x Hx)
    as (?&?&?&?&?&?&?&?&?&?&?&?&?&?&?&?).
  rewrite aria_A_direct_eq, byte_at_blk by auto 8 with u8.
  do 16 (destruct i as [|i];
    [ cbv [nth spec_A_byte spec_A_rows fold_right byte_at];
      rewrite Z.lxor_0_r; xor_solve |]).
  lia.
Qed.

(** C10 — The compiled branch of the diffusion layer, which shares the
    four-byte subexpressions t0 .. t3, computes on every 128-bit block the
    same function as the direct definition of the other branch, where each
    output byte is the XOR of its seven input bytes (row i of the table:
    y0 = x3 ^ x4 ^ x6 ^ x8 ^ x9 ^ x13 ^ x14, and so on). *)
Theorem diffusion_optimized_is_direct (x : aria_u128_t) :
  wf128 x ->
  aria_A x = aria_A_direct x /\
  forall i, (i < 16)%nat ->
    byte_at (aria_A x) i
    = fold_right (fun j acc => byte_at x j .^ acc) 0 (nth i spec_A_rows []).
Proof.
  intros Hx. split.
  - now apply aria_A_direct_agree.
  - intros i Hi. rewrite aria_A_direct_agree by assumption.
    now apply byte_at_A_direct.
Qed.

Lemma diffusion_optimized_is_direct_witness :
  wf128 test_Plaintext /\ aria_A test_Plaintext = aria_A_direct test_Plaintext.
Proof.
  split; [exact wf128_test_Plaintext |].
  apply (diffusion_optimized_is_direct test_Plaintext). exact wf128_test_Plaintext.
Defined.

(** ** The crypt engine *)

Lemma spec_crypt_12 (key : nat -> aria_u128_t) (P : aria_u128_t) :
  spec_crypt 12 key P =
  xor (aria_SL2 (xor
    (aria_FO (aria_FE (aria_FO (aria_FE (aria_FO (aria_FE (aria_FO (aria_FE
    (aria_FO (aria_FE (aria_FO P (key 1%nat)) (key 2%nat)) (key 3%nat))
      (key 4%nat)) (key 5%nat)) (key 6%nat)) (key 7%nat)) (key 8%nat))
      (key 9%nat)) (key 10%nat)) (key 11%nat))
    (key 12%nat))) (key 13%nat).
Proof. reflexivity. Qed.

(** C3 — Crypt engine: for every round count in {12, 14, 16}, every
    round-key array that holds the keys ek[1] .. ek[rounds+1], and every
    128-bit input block, the engine returns
    XOR(SL2(XOR(P, ek[rounds])), ek[rounds+1]), where P is FO(input, ek[1])
    followed by the alternating FE/FO rounds with ek[2] .. ek[rounds-1] in
    order; FO(D,RK) = A(SL1(D XOR RK)) and FE(D,RK) = A(SL2(D XOR RK)), and
    the final round has no diffusion. *)
Theorem aria_crypt_composition (rounds : nat) (m : memory) (ek : loc)
    (keys : list aria_u128_t) (Input d : aria_u128_t) :
  In rounds [12; 14; 16]%nat ->
  m !! ek = Some keys -> (rounds + 2 <= length keys)%nat ->
  let key i := nth i keys d in
  aria_crypt rounds ek Input m
  = Some (xor (aria_SL2 (xor
            (spec_interior true (map key (seq 2 (rounds - 2)))
               (aria_FO Input (key 1%nat)))
            (key rounds))) (key (rounds + 1)%nat))
  /\ (forall D RK, aria_FO D RK = aria_A (aria_SL1 (xor D RK)))
  /\ (forall D RK, aria_FE D RK = aria_A (aria_SL2 (xor D RK))).
Proof.
  intros Hr Hm Hlen key. split; [|split; reflexivity].
  assert (Hev : Nat.Even rounds /\ (2 <= rounds)%nat).
  { simpl in Hr. destruct Hr as [<-|[<-|[<-|[]]]]; (split; [|lia]).
    - now exists 6%nat.
    - now exists 7%nat.
    - now exists 8%nat. }
  destruct Hev as [Hev H2].
  apply (aria_crypt_spec m ek keys d Hm rounds Input Hev H2 Hlen).
Qed.

Lemma aria_crypt_composition_witness :
  aria_crypt 12 ek_local test_Plaintext {[ ek_local := demo_keys ]}
  = Some (spec_crypt 12 (fun i => nth i demo_keys (mk128 0 0)) test_Plaintext).
Proof.
  apply (aria_crypt_composition 12 {[ ek_local := demo_keys ]} ek_local demo_keys
           test_Plaintext (mk128 0 0)).
  - simpl. auto.
  - reflexivity.
  - simpl. lia.
Defined.

(** ** Known answers *)

(** C2 — Known-answer vectors: with the key 000102...0f, extended by
    1011121314151617 for 192 bits and by 101112...1f for 256 bits, the
    plaintext 00112233445566778899aabbccddeeff encrypts to
    d718fbd6ab644c739da95f3be6451778, 26449c1805dbe7aa25a468ce263a9e79 and
    f92bd7c79fb72e2f2b8f80c1972d24fc; the byte strings are big-endian,
    byte 0 being the most significant byte of the left half. *)
Theorem known_answer_vectors :
  bytes_of test_KeyLeft
    = [0x00; 0x01; 0x02; 0x03; 0x04; 0x05; 0x06; 0x07;
       0x08; 0x09; 0x0a; 0x0b; 0x0c; 0x0d; 0x0e; 0x0f] /\
  bytes_of test_KeyRight_192
    = [0x10; 0x11; 0x12; 0x13; 0x14; 0x15; 0x16; 0x17; 0; 0; 0; 0; 0; 0; 0; 0] /\
  bytes_of test_KeyRight_256
    = [0x10; 0x11; 0x12; 0x13; 0x14; 0x15; 0x16; 0x17;
       0x18; 0x19; 0x1a; 0x1b; 0x1c; 0x1d; 0x1e; 0x1f] /\
  bytes_of test_Plaintext
    = [0x00; 0x11; 0x22; 0x33; 0x44; 0x55; 0x66; 0x77;
       0x88; 0x99; 0xaa; 0xbb; 0xcc; 0xdd; 0xee; 0xff] /\
  (exists c, aria_encrypt_128 test_KeyLeft test_Plaintext = Some c /\
     bytes_of c = [0xd7; 0x18; 0xfb; 0xd6; 0xab; 0x64; 0x4c; 0x73;
                   0x9d; 0xa9; 0x5f; 0x3b; 0xe6; 0x45; 0x17; 0x78]) /\
  (exists c, aria_encrypt_192 test_KeyLeft test_KeyRight_192 test_Plaintext = Some c /\
     bytes_of c = [0x26; 0x44; 0x9c; 0x18; 0x05; 0xdb; 0xe7; 0xaa;
                   0x25; 0xa4; 0x68; 0xce; 0x26; 0x3a; 0x9e; 0x79]) /\
  (exists c, aria_encrypt_256 test_KeyLeft test_KeyRight_256 test_Plaintext = Some c /\
     bytes_of c = [0xf9; 0x2b; 0xd7; 0xc7; 0x9f; 0xb7; 0x2e; 0x2f;
                   0x2b; 0x8f; 0x80; 0xc1; 0x97; 0x2d; 0x24; 0xfc]) /\
  aria_encrypt_128 test_KeyLeft test_Plaintext = Some test_Ciphertext_128 /\
  aria_encrypt_192 test_KeyLeft test_KeyRight_192 test_Plaintext
    = Some test_Ciphertext_192 /\
  aria_encrypt_256 test_KeyLeft test_KeyRight_256 test_Plaintext
    = Some test_Ciphertext_256.
Proof.
  repeat split; try (vm_compute; reflexivity).
  - exists test_Ciphertext_128. split; vm_compute; reflexivity.
  - exists test_Ciphertext_192. split; vm_compute; reflexivity.
  - exists test_Ciphertext_256. split; vm_compute; reflexivity.
Qed.

(** ** The option monad *)

Lemma bind_Some_l {A B : Type} (a : A) (f : A -> option B) :
  (x ← Some a; f x) = f a.
Proof. reflexivity. Qed.

Lemma bind_Some_exists {A B : Type} (x : option A) (f : A -> option B) (b : B) :
  (c ← x; f c) = Some b -> exists c, x = Some c /\ f c = Some b.
Proof. destruct x as [c|]; [|discriminate]. intros H. now exists c. Qed.

(** ** Key schedule *)

Lemma aria_crypt_singleton_take (n : nat) (e0 : aria_u128_t)
    (ks : list aria_u128_t) (P : aria_u128_t) :
  Nat.Even n -> (2 <= n)%nat -> (n + 1 <= length ks)%nat ->
  aria_crypt n ek_local P {[ ek_local := e0 :: ks ]}
  = aria_crypt n ek_local P {[ ek_local := e0 :: take (n + 1) ks ]}.
Proof.
  intros Hev H2 Hlen. rewrite <- !insert_empty. now apply aria_crypt_take.
Qed.

(** C4 — Key schedule: for every master key, the encryption round keys
    ek[1] .. ek[rounds+1] are the first rounds+1 of the seventeen candidate
    keys computed from W0 = KL, W1 = FO(W0, CK1) XOR KR,
    W2 = FE(W1, CK2) XOR W0, W3 = FO(W2, CK3) XOR W1, with (CK1, CK2, CK3)
    = (C1, C2, C3), (C2, C3, C1), (C3, C1, C2) and rounds = 12, 14, 16 for
    key sizes 128, 192, 256: [compute_ek] writes the seventeen candidates
    (right rotations by 19 and 31 for ek1 .. ek8, left rotations by 61, 31
    and 19 for ek9 .. ek17) at indices 1 .. 17 of the array, and the
    encryption is the engine run on the first rounds+1 of them.  [ror] and
    [rol] are the circular rotations of the 128 bits of a block. *)
Theorem key_schedule_prefix (KeyLeft KeyRight Plaintext : aria_u128_t) :
  let zero := mk128 0 0 in
  (aria_ek_128 KeyLeft
     = Some {[ ek_local := zero :: spec_candidates (spec_W 128 KeyLeft zero) ]} /\
   spec_ek 128 KeyLeft zero
     = take 13 (spec_candidates (spec_W 128 KeyLeft zero)) /\
   aria_encrypt_128 KeyLeft Plaintext
     = aria_crypt 12 ek_local Plaintext
         {[ ek_local := zero :: spec_ek 128 KeyLeft zero ]}) /\
  (aria_ek_192 KeyLeft KeyRight
     = Some {[ ek_local := zero :: spec_candidates (spec_W 192 KeyLeft KeyRight) ]} /\
   spec_ek 192 KeyLeft KeyRight
     = take 15 (spec_candidates (spec_W 192 KeyLeft KeyRight)) /\
   aria_encrypt_192 KeyLeft KeyRight Plaintext
     = aria_crypt 14 ek_local Plaintext
         {[ ek_local := zero :: spec_ek 192 KeyLeft KeyRight ]}) /\
  (aria_ek_256 KeyLeft KeyRight
     = Some {[ ek_local := zero :: spec_candidates (spec_W 256 KeyLeft KeyRight) ]} /\
   spec_ek 256 KeyLeft KeyRight
     = take 17 (spec_candidates (spec_W 256 KeyLeft KeyRight)) /\
   aria_encrypt_256 KeyLeft KeyRight Plaintext
     = aria_crypt 16 ek_local Plaintext
         {[ ek_local := zero :: spec_ek 256 KeyLeft KeyRight ]}) /\
  (forall x cnt i, wf128 x -> 0 < cnt < 64 -> 0 <= i < 128 ->
     bit128 (ror x cnt) i = bit128 x ((i + cnt) mod 128) /\
     bit128 (rol x cnt) i = bit128 x ((i - cnt) mod 128)).
Proof.
  intros zero. split; [|split; [|split]].
  - split; [apply aria_ek_128_spec | split; [reflexivity|]].
    unfold aria_encrypt_128. rewrite aria_ek_128_spec, bind_Some_l.
    apply aria_crypt_singleton_take;
      [now exists 6%nat | lia | rewrite length_spec_candidates; lia].
  - split; [apply aria_ek_192_spec | split; [reflexivity|]].
    unfold aria_encrypt_192. rewrite aria_ek_192_spec, bind_Some_l.
    apply aria_crypt_singleton_take;
      [now exists 7%nat | lia | rewrite length_spec_candidates; lia].
  - split; [apply aria_ek_256_spec | split; [reflexivity|]].
    unfold aria_encrypt_256. rewrite aria_ek_256_spec, bind_Some_l.
    apply aria_crypt_singleton_take;
      [now exists 8%nat | lia | rewrite length_spec_candidates; lia].
  - intros x cnt i Hx Hc Hi. split; [now apply ror_rotates | now apply rol_rotates].
Qed.

Lemma key_schedule_prefix_witness :
  bit128 (ror test_Plaintext 19) 0 = bit128 test_Plaintext 19 /\
  bit128 (rol test_Plaintext 61) 0 = bit128 test_Plaintext 67.
Proof.
  pose proof (key_schedule_prefix test_KeyLeft test_KeyRight_256 test_Plaintext)
    as (_ & _ & _ & Hrot).
  assert (Hx : wf128 test_Plaintext).
  { unfold wf128, is_u64. cbn [left right test_Plaintext]. lia. }
  split.
  - apply (Hrot test_Plaintext 19 0 Hx); lia.
  - apply (Hrot test_Plaintext 61 0 Hx); lia.
Defined.

(** ** Round trip *)

Lemma length_keys W : length (mk128 0 0 :: spec_candidates W) = 18%nat.
Proof. simpl. now rewrite length_spec_candidates. Qed.

Section RoundTrip.
Variables (keys : list aria_u128_t) (b : aria_u128_t).
Hypotheses (Hlen : length keys = 18%nat) (Hwf : Forall wf128 keys)
  (Hb : wf128 b).

Lemma frame_roundtrip_12 :
  exists c, aria_crypt 12 ek_local b {[ ek_local := keys ]} = Some c /\
    (m ← aria_dk_128 ek_local {[ ek_local := keys ]};
     aria_crypt 12 ek_local c m) = Some b.
Proof.
  apply bind_Some_exists. rewrite <- insert_empty. now apply crypt_roundtrip_12.
Qed.

Lemma frame_roundtrip_14 :
  exists c, aria_crypt 14 ek_local b {[ ek_local := keys ]} = Some c /\
    (m ← aria_dk_192 ek_local {[ ek_local := keys ]};
     aria_crypt 14 ek_local c m) = Some b.
Proof.
  apply bind_Some_exists. rewrite <- insert_empty. now apply crypt_roundtrip_14.
Qed.

Lemma frame_roundtrip_16 :
  exists c, aria_crypt 16 ek_local b {[ ek_local := keys ]} = Some c /\
    (m ← aria_dk_256 ek_local {[ ek_local := keys ]};
     aria_crypt 16 ek_local c m) = Some b.
Proof.
  apply bind_Some_exists. rewrite <- insert_empty. now apply crypt_roundtrip_16.
Qed.
End RoundTrip.

(** C1 — Round trip: for every master key of 128, 192 or 256 bits and
    every 128-bit block b, the encryption of b is defined and its
    decryption under the same key is b. *)
Theorem aria_decrypt_encrypt (KeyLeft KeyRight b : aria_u128_t) :
  wf128 KeyLeft -> wf128 KeyRight -> wf128 b ->
  (exists c, aria_encrypt_128 KeyLeft b = Some c /\
             aria_decrypt_128 KeyLeft c = Some b) /\
  (exists c, aria_encrypt_192 KeyLeft KeyRight b = Some c /\
             aria_decrypt_192 KeyLeft KeyRight c = Some b) /\
  (exists c, aria_encrypt_256 KeyLeft KeyRight b = Some c /\
             aria_decrypt_256 KeyLeft KeyRight c = Some b).
Proof.
  intros HL HR Hb. pose proof wf128_const as (_ & _ & _ & H0).
  split; [|split].
  - destruct (frame_roundtrip_12
                (mk128 0 0 :: spec_candidates (spec_W 128 KeyLeft (mk128 0 0))) b)
      as (c & Hc & Hd); [apply length_keys | now apply wf128_spec_keys | assumption |].
    exists c. unfold aria_encrypt_128, aria_decrypt_128.
    rewrite aria_ek_128_spec, !bind_Some_l. split; assumption.
  - destruct (frame_roundtrip_14
                (mk128 0 0 :: spec_candidates (spec_W 192 KeyLeft KeyRight)) b)
      as (c & Hc & Hd); [apply length_keys | now apply wf128_spec_keys | assumption |].
    exists c. unfold aria_encrypt_192, aria_decrypt_192.
    rewrite aria_ek_192_spec, !bind_Some_l. split; assumption.
  - destruct (frame_roundtrip_16
                (mk128 0 0 :: spec_candidates (spec_W 256 KeyLeft KeyRight)) b)
      as (c & Hc & Hd); [apply length_keys | now apply wf128_spec_keys | assumption |].
    exists c. unfold aria_encrypt_256, aria_decrypt_256.
    rewrite aria_ek_256_spec, !bind_Some_l. split; assumption.
Qed.

Lemma wf128_test_keys :
  wf128 test_KeyLeft /\ wf128 test_KeyRight_256.
Proof.
  unfold wf128, is_u64. cbn [left right test_KeyLeft test_KeyRight_256]. lia.
Qed.

Lemma aria_decrypt_encrypt_witness :
  exists c, aria_encrypt_256 test_KeyLeft test_KeyRight_256 test_Plaintext = Some c /\
            aria_decrypt_256 test_KeyLeft test_KeyRight_256 c = Some test_Plaintext.
Proof.
  apply (aria_decrypt_encrypt test_KeyLeft test_KeyRight_256 test_Plaintext).
  - exact (proj1 wf128_test_keys).
  - exact (proj2 wf128_test_keys).
  - exact wf128_test_Plaintext.
Defined.

(** ** Decryption keys *)

Ltac by_index i :=
  do 17 (destruct i as [|i]; [first [lia | reflexivity]|]); lia.

Lemma aria_dk_128_in_place (m : memory) (ek : loc) (keys : list aria_u128_t)
    (d : aria_u128_t) :
  m !! ek = Some keys -> (12 + 2 <= length keys)%nat ->
  exists dk,
    aria_dk_128 ek m = Some (<[ek := dk]> m) /\ length dk = length keys /\
    nth 1 dk d = nth (12 + 1) keys d /\ nth (12 + 1) dk d = nth 1 keys d /\
    (forall i, (2 <= i <= 12)%nat -> nth i dk d = aria_A (nth (12 + 2 - i) keys d)) /\
    (forall i, (12 + 1 < i)%nat -> nth i dk d = nth i keys d).
Proof.
  intros Hm Hlen. rewrite <- (insert_id m ek keys Hm). clear Hm.
  do 14 (destruct keys as [|? keys]; [simpl in Hlen; lia|]). clear Hlen.
  eexists. split; [rewrite aria_dk_128_insert, insert_insert_eq; reflexivity|].
  split; [reflexivity|]. split; [reflexivity|]. split; [reflexivity|].
  split; intros i Hi.
  - by_index i.
  - do 14 (destruct i as [|i]; [lia|]). reflexivity.
Qed.

Lemma aria_dk_192_in_place (m : memory) (ek : loc) (keys : list aria_u128_t)
    (d : aria_u128_t) :
  m !! ek = Some keys -> (14 + 2 <= length keys)%nat ->
  exists dk,
    aria_dk_192 ek m = Some (<[ek := dk]> m) /\ length dk = length keys /\
    nth 1 dk d = nth (14 + 1) keys d /\ nth (14 + 1) dk d = nth 1 keys d /\
    (forall i, (2 <= i <= 14)%nat -> nth i dk d = aria_A (nth (14 + 2 - i) keys d)) /\
    (forall i, (14 + 1 < i)%nat -> nth i dk d = nth i keys d).
Proof.
  intros Hm Hlen. rewrite <- (insert_id m ek keys Hm). clear Hm.
  do 16 (destruct keys as [|? keys]; [simpl in Hlen; lia|]). clear Hlen.
  eexists. split; [rewrite aria_dk_192_insert, insert_insert_eq; reflexivity|].
  split; [reflexivity|]. split; [reflexivity|]. split; [reflexivity|].
  split; intros i Hi.
  - by_index i.
  - do 16 (destruct i as [|i]; [lia|]). reflexivity.
Qed.

Lemma aria_dk_256_in_place (m : memory) (ek : loc) (keys : list aria_u128_t)
    (d : aria_u128_t) :
  m !! ek = Some keys -> (16 + 2 <= length keys)%nat ->
  exists dk,
    aria_dk_256 ek m = Some (<[ek := dk]> m) /\ length dk = length keys /\
    nth 1 dk d = nth (16 + 1) keys d /\ nth (16 + 1) dk d = nth 1 keys d /\
    (forall i, (2 <= i <= 16)%nat -> nth i dk d = aria_A (nth (16 + 2 - i) keys d)) /\
    (forall i, (16 + 1 < i)%nat -> nth i dk d = nth i keys d).
Proof.
  intros Hm Hlen. rewrite <- (insert_id m ek keys Hm). clear Hm.
  do 18 (destruct keys as [|? keys]; [simpl in Hlen; lia|]). clear Hlen.
  eexists. split; [rewrite aria_dk_256_insert, insert_insert_eq; reflexivity|].
  split; [reflexivity|]. split; [reflexivity|]. split; [reflexivity|].
  split; intros i Hi.
  - by_index i.
  - do 18 (destruct i as [|i]; [lia|]). reflexivity.
Qed.

(** C5 (as stated) — at the array [demo_keys] of eighteen different blocks:
    it is not the case that the derivation leaves the decryption keys in a
    second array, with the array of the encryption keys still holding
    them. *)
Lemma decryption_keys_not_a_new_array :
  ~ (exists (m' : memory) (dk : loc) (arr : list aria_u128_t),
       aria_dk_128 ek_local {[ ek_local := demo_keys ]} = Some m' /\
       dk <> ek_local /\ m' !! dk = Some arr /\
       length arr = length demo_keys /\
       m' !! ek_local = Some demo_keys).
Proof.
  intros (m' & dk & arr & Hrun & _ & _ & _ & Hek).
  vm_compute in Hrun. injection Hrun as <-. vm_compute in Hek. discriminate Hek.
Qed.

(** C5 (amended) — For every memory that holds at [ek] an array with the
    cells 0 .. rounds+1, the derivation of the decryption keys overwrites
    that array in place and changes nothing else: afterwards
    dk[1] = ek[rounds+1], dk[rounds+1] = ek[1] and dk[i] = A(ek[rounds+2-i])
    for 2 <= i <= rounds (the first and last keys swapped, each interior
    pair swapped with A applied to both, A applied to the middle key), the
    cells above rounds+1 are as they were, and the array has kept its
    length; rounds is 12, 14, 16 for [aria_dk_128], [aria_dk_192],
    [aria_dk_256]. *)
Theorem decryption_keys_in_place (m : memory) (ek : loc)
    (keys : list aria_u128_t) (d : aria_u128_t) :
  m !! ek = Some keys ->
  ((12 + 2 <= length keys)%nat ->
   exists dk,
     aria_dk_128 ek m = Some (<[ek := dk]> m) /\ length dk = length keys /\
     nth 1 dk d = nth (12 + 1) keys d /\ nth (12 + 1) dk d = nth 1 keys d /\
     (forall i, (2 <= i <= 12)%nat -> nth i dk d = aria_A (nth (12 + 2 - i) keys d)) /\
     (forall i, (12 + 1 < i)%nat -> nth i dk d = nth i keys d)) /\
  ((14 + 2 <= length keys)%nat ->
   exists dk,
     aria_dk_192 ek m = Some (<[ek := dk]> m) /\ length dk = length keys /\
     nth 1 dk d = nth (14 + 1) keys d /\ nth (14 + 1) dk d = nth 1 keys d /\
     (forall i, (2 <= i <= 14)%nat -> nth i dk d = aria_A (nth (14 + 2 - i) keys d)) /\
     (forall i, (14 + 1 < i)%nat -> nth i dk d = nth i keys d)) /\
  ((16 + 2 <= length keys)%nat ->
   exists dk,
     aria_dk_256 ek m = Some (<[ek := dk]> m) /\ length dk = length keys /\
     nth 1 dk d = nth (16 + 1) keys d /\ nth (16 + 1) dk d = nth 1 keys d /\
     (forall i, (2 <= i <= 16)%nat -> nth i dk d = aria_A (nth (16 + 2 - i) keys d)) /\
     (forall i, (16 + 1 < i)%nat -> nth i dk d = nth i keys d)).
Proof.
  intros Hm. split; [|split]; intros Hlen.
  - exact (aria_dk_128_in_place m ek keys d Hm Hlen).
  - exact (aria_dk_192_in_place m ek keys d Hm Hlen).
  - exact (aria_dk_256_in_place m ek keys d Hm Hlen).
Qed.

Lemma decryption_keys_in_place_witness :
  exists dk,
    aria_dk_128 ek_local {[ ek_local := demo_keys ]}
      = Some (<[ek_local := dk]> {[ ek_local := demo_keys ]}) /\
    length dk = length demo_keys /\
    nth 1 dk (mk128 0 0) = nth 13 demo_keys (mk128 0 0).
Proof.
  destruct (decryption_keys_in_place {[ ek_local := demo_keys ]} ek_local
              demo_keys (mk128 0 0)) as [H _].
  - reflexivity.
  - destruct H as (dk & H1 & H2 & H3 & _).
    + simpl. lia.
    + exists dk. auto.
Defined.

(** ** The interface of [aria.h] *)

Lemma aria_crypt_is_Some (n : nat) (keys : list aria_u128_t) (text : aria_u128_t) :
  In n [12; 14; 16]%nat -> length keys = 18%nat ->
  is_Some (aria_crypt n ek_local text {[ ek_local := keys ]}).
Proof.
  intros Hn Hlen.
  assert (Hev : Nat.Even n /\ (2 <= n)%nat /\ (n + 2 <= 18)%nat).
  { simpl in Hn. destruct Hn as [<-|[<-|[<-|[]]]]; (split; [|lia]).
    - now exists 6%nat.
    - now exists 7%nat.
    - now exists 8%nat. }
  destruct Hev as (Hev & H2 & H18).
  rewrite (aria_crypt_spec {[ ek_local := keys ]} ek_local keys (mk128 0 0));
    [ eexists; reflexivity | apply lookup_singleton_eq | assumption | assumption | lia ].
Qed.

Lemma fill_key_schedule_ok (n : nat) (keys : list aria_u128_t)
    (derive : loc -> memory -> option memory) (md : aria_cryto_mode_t) :
  length keys = 18%nat ->
  (exists dk, derive ek_local {[ ek_local := keys ]}
                = Some (<[ek_local := dk]> {[ ek_local := keys ]})
              /\ length dk = length keys) ->
  exists stored,
    fill_key_schedule n (Some {[ ek_local := keys ]}) derive md
      = inl (mk_key_schedule stored md n) /\
    length stored = 18%nat.
Proof.
  intros Hlen (dk & Hdk & Hlen'). unfold fill_key_schedule. destruct md.
  - exists keys. rewrite bind_Some_l, lookup_singleton_eq. auto.
  - exists dk. rewrite !bind_Some_l, Hdk, bind_Some_l, lookup_insert_eq.
    split; [reflexivity | congruence].
Qed.

(** A schedule is built exactly for the key sizes 128, 192 and 256; it then
    holds eighteen cells and the round count of its key size. *)
Lemma aria_init_key_schedule_cases (KeyLeft KeyRight : aria_u128_t)
    (md : aria_cryto_mode_t) (bits : Z) :
  (In bits [128; 192; 256] /\
   exists keys,
     aria_init_key_schedule KeyLeft KeyRight md bits
       = inl (mk_key_schedule keys md (spec_rounds bits)) /\
     length keys = 18%nat) \/
  (~ In bits [128; 192; 256] /\
   aria_init_key_schedule KeyLeft KeyRight md bits = inr KEY_SIZE_BAD).
Proof.
  unfold aria_init_key_schedule, spec_rounds.
  destruct (Z.eqb_spec bits 128) as [->|H128];
    [|destruct (Z.eqb_spec bits 192) as [->|H192];
      [|destruct (Z.eqb_spec bits 256) as [->|H256]]].
  - left. split; [simpl; auto|]. rewrite aria_ek_128_spec.
    apply fill_key_schedule_ok; [apply length_keys|].
    destruct (aria_dk_128_in_place
                {[ ek_local := mk128 0 0 :: spec_candidates (spec_W 128 KeyLeft (mk128 0 0)) ]}
                ek_local (mk128 0 0 :: spec_candidates (spec_W 128 KeyLeft (mk128 0 0)))
                (mk128 0 0)) as (dk & H1 & H2 & _);
      [apply lookup_singleton_eq | rewrite length_keys; lia | eauto].
  - left. split; [simpl; auto|]. rewrite aria_ek_192_spec.
    apply fill_key_schedule_ok; [apply length_keys|].
    destruct (aria_dk_192_in_place
                {[ ek_local := mk128 0 0 :: spec_candidates (spec_W 192 KeyLeft KeyRight) ]}
                ek_local (mk128 0 0 :: spec_candidates (spec_W 192 KeyLeft KeyRight))
                (mk128 0 0)) as (dk & H1 & H2 & _);
      [apply lookup_singleton_eq | rewrite length_keys; lia | eauto].
  - left. split; [simpl; auto|]. rewrite aria_ek_256_spec.
    apply fill_key_schedule_ok; [apply length_keys|].
    destruct (aria_dk_256_in_place
                {[ ek_local := mk128 0 0 :: spec_candidates (spec_W 256 KeyLeft KeyRight) ]}
                ek_local (mk128 0 0 :: spec_candidates (spec_W 256 KeyLeft KeyRight))
                (mk128 0 0)) as (dk & H1 & H2 & _);
      [apply lookup_singleton_eq | rewrite length_keys; lia | eauto].
  - right. split; [|reflexivity]. simpl. intros [H|[H|[H|[]]]]; congruence.
Qed.

(** C9 — Schedule construction with a key size other than 128, 192 or 256
    bits (in particular 0, 64 or 512) fails with the key-size error, which
    is returned as a result value of its own, distinct from every
    schedule; a schedule is built for each of the three sizes; and on a
    schedule that was built the block transform always returns a block. *)
Theorem key_size_invalid (KeyLeft KeyRight : aria_u128_t)
    (md : aria_cryto_mode_t) (bits : Z) :
  (bits <> 128 -> bits <> 192 -> bits <> 256 ->
   aria_init_key_schedule KeyLeft KeyRight md bits = inr KEY_SIZE_BAD) /\
  aria_init_key_schedule KeyLeft KeyRight md 0 = inr KEY_SIZE_BAD /\
  aria_init_key_schedule KeyLeft KeyRight md 64 = inr KEY_SIZE_BAD /\
  aria_init_key_schedule KeyLeft KeyRight md 512 = inr KEY_SIZE_BAD /\
  (In bits [128; 192; 256] ->
   exists ks, aria_init_key_schedule KeyLeft KeyRight md bits = inl ks) /\
  (forall ks text,
     aria_init_key_schedule KeyLeft KeyRight md bits = inl ks ->
     exists out, aria_crypt_ks ks text = Some out).
Proof.
  split; [|split; [reflexivity | split; [reflexivity | split; [reflexivity|]]]].
  - intros H1 H2 H3.
    destruct (aria_init_key_schedule_cases KeyLeft KeyRight md bits)
      as [[Hin _]|[_ H]]; [|exact H].
    simpl in Hin. intuition congruence.
  - destruct (aria_init_key_schedule_cases KeyLeft KeyRight md bits)
      as [(Hin & keys & Hks & Hlen)|[Hnin H]]; rewrite ?Hks, ?H.
    + split; [eauto|]. intros ks text [= <-]. unfold aria_crypt_ks.
      cbn [rounds ek]. apply aria_crypt_is_Some; [|assumption].
      unfold spec_rounds. simpl in Hin.
      destruct Hin as [<-|[<-|[<-|[]]]]; simpl; auto.
    + split; [intros Hin; contradiction | intros ks text [=]].
Qed.

Lemma key_size_invalid_witness :
  aria_init_key_schedule test_KeyLeft test_KeyRight_256 ENCRYPT 64 = inr KEY_SIZE_BAD /\
  exists ks out,
    aria_init_key_schedule test_KeyLeft test_KeyRight_256 ENCRYPT 128 = inl ks /\
    aria_crypt_ks ks test_Plaintext = Some out.
Proof.
  pose proof (key_size_invalid test_KeyLeft test_KeyRight_256 ENCRYPT 64)
    as (H64 & _).
  pose proof (key_size_invalid test_KeyLeft test_KeyRight_256 ENCRYPT 128)
    as (_ & _ & _ & _ & Hbuilt & Hrun).
  split.
  - apply H64; lia.
  - destruct Hbuilt as [ks Hks]; [simpl; auto|].
    destruct (Hrun ks test_Plaintext Hks) as [out Hout]. eauto.
Defined.

(** * Further properties of the code *)

(** ** Rotations and key addition *)

(** Two blocks with 64-bit halves and the same 128 bits are equal. *)
Lemma bit128_ext (x y : aria_u128_t) :
  wf128 x -> wf128 y ->
  (forall i, 0 <= i < 128 -> bit128 x i = bit128 y i) -> x = y.
Proof.
  destruct x as [xl xr], y as [yl yr]. intros [Hxl Hxr] [Hyl Hyr] H.
  cbn [left right] in *. f_equal; apply Z.bits_inj'; intros n Hn.
  - destruct (Z.lt_ge_cases n 64) as [Hlt|Hge].
    + specialize (H (n + 64) ltac:(lia)). unfold bit128 in H. cbn [left right] in H.
      destruct (Z.ltb_spec (n + 64) 64); [lia|].
      now replace (n + 64 - 64) with n in H by lia.
    + now rewrite !testbit_u64_out by (assumption || lia).
  - destruct (Z.lt_ge_cases n 64) as [Hlt|Hge].
    + specialize (H n ltac:(lia)). unfold bit128 in H. cbn [left right] in H.
      now destruct (Z.ltb_spec n 64); [|lia].
    + now rewrite !testbit_u64_out by (assumption || lia).
Qed.

Ltac wf_rot :=
  repeat lazymatch goal with
    | |- wf128 (ror _ _) => apply wf128_ror
    | |- wf128 (rol _ _) => apply wf128_rol
    | |- wf128 _ => assumption
    | |- _ => lia
    end.

Lemma mod_128_range (k : Z) : 0 <= k mod 128 < 128.
Proof. apply Z.mod_pos_bound. lia. Qed.

Lemma ror_rol (x : aria_u128_t) (cnt : Z) :
  wf128 x -> 0 < cnt < 64 -> ror (rol x cnt) cnt = x.
Proof.
  intros Hx Hc. apply bit128_ext; [wf_rot | assumption |].
  intros i Hi. rewrite ror_rotates by wf_rot.
  rewrite rol_rotates by (assumption || apply mod_128_range).
  rewrite Zminus_mod_idemp_l. f_equal.
  replace (i + cnt - cnt) with i by lia. apply Z.mod_small. lia.
Qed.

Lemma rol_ror (x : aria_u128_t) (cnt : Z) :
  wf128 x -> 0 < cnt < 64 -> rol (ror x cnt) cnt = x.
Proof.
  intros Hx Hc. apply bit128_ext; [wf_rot | assumption |].
  intros i Hi. rewrite rol_rotates by wf_rot.
  rewrite ror_rotates by (assumption || apply mod_128_range).
  rewrite Zplus_mod_idemp_l. f_equal.
  replace (i - cnt + cnt) with i by lia. apply Z.mod_small. lia.
Qed.

(** X1 — [rol] and [ror] by the same count undo each other: for every block
    and every count with 0 < cnt < 64, rotating left and then right, or
    right and then left, gives the block back. *)
Theorem rotations_inverse (x : aria_u128_t) (cnt : Z) :
  wf128 x -> 0 < cnt < 64 ->
  ror (rol x cnt) cnt = x /\ rol (ror x cnt) cnt = x.
Proof. intros Hx Hc. split; [now apply ror_rol | now apply rol_ror]. Qed.

Lemma rotations_inverse_witness :
  ror (rol test_Plaintext 19) 19 = test_Plaintext /\
  rol (ror test_Plaintext 19) 19 = test_Plaintext.
Proof.
  apply (rotations_inverse test_Plaintext 19); [exact wf128_test_Plaintext | lia].
Defined.

(** X2 — Rotations compose: rotating by [a] and then by [b] in the same
    direction is rotating by [a + b], as long as [a + b] is a count the
    functions accept (below 64). *)
Theorem rotations_compose (x : aria_u128_t) (a b : Z) :
  wf128 x -> 0 < a -> 0 < b -> a + b < 64 ->
  ror (ror x a) b = ror x (a + b) /\ rol (rol x a) b = rol x (a + b).
Proof.
  intros Hx Ha Hb Hab. split.
  - apply bit128_ext; [wf_rot | wf_rot |].
    intros i Hi.
    rewrite (ror_rotates (ror x a)) by wf_rot.
    rewrite !ror_rotates by (assumption || apply mod_128_range || lia).
    rewrite Zplus_mod_idemp_l. f_equal. f_equal. lia.
  - apply bit128_ext; [wf_rot | wf_rot |].
    intros i Hi.
    rewrite (rol_rotates (rol x a)) by wf_rot.
    rewrite !rol_rotates by (assumption || apply mod_128_range || lia).
    rewrite Zminus_mod_idemp_l. f_equal. f_equal. lia.
Qed.

Lemma rotations_compose_witness :
  ror (ror test_Plaintext 19) 12 = ror test_Plaintext 31 /\
  rol (rol test_Plaintext 19) 12 = rol test_Plaintext 31.
Proof.
  apply (rotations_compose test_Plaintext 19 12);
    [exact wf128_test_Plaintext | lia | lia | lia].
Defined.

(** X3 — Key addition: [xor] is commutative and associative, the zero
    block is neutral, and adding the same block twice gives the first
    block back, so that a key addition is undone by adding the key again. *)
Theorem xor_key_addition (x y z : aria_u128_t) :
  xor x y = xor y x /\
  xor (xor x y) z = xor x (xor y z) /\
  xor x (mk128 0 0) = x /\
  xor (xor x y) y = x /\
  xor x x = mk128 0 0.
Proof.
  split; [apply xor_comm|]. split; [apply xor_assoc|].
  split; [apply xor_zero_r|]. split; [apply xor_cancel_r|].
  unfold xor. now rewrite !Z.lxor_nilpotent.
Qed.

(** ** Layers and round functions *)

(** X4 — The two substitution layers are inverse to each other: on every
    block, SL2 after SL1 and SL1 after SL2 give the block back. *)
Theorem substitution_layers_inverse (x : aria_u128_t) :
  wf128 x -> aria_SL2 (aria_SL1 x) = x /\ aria_SL1 (aria_SL2 x) = x.
Proof. intros Hx. split; [now apply aria_SL2_SL1 | now apply aria_SL1_SL2]. Qed.

Lemma substitution_layers_inverse_witness :
  aria_SL2 (aria_SL1 test_Plaintext) = test_Plaintext /\
  aria_SL1 (aria_SL2 test_Plaintext) = test_Plaintext.
Proof.
  exact (substitution_layers_inverse test_Plaintext wf128_test_Plaintext).
Defined.

Lemma aria_A_zero : aria_A (mk128 0 0) = mk128 0 0.
Proof. vm_compute. reflexivity. Qed.

(** X5 — The diffusion layer is linear over XOR: A(x ^ y) = A(x) ^ A(y) for
    all blocks, and A maps the zero block to itself. *)
Theorem diffusion_linear (x y : aria_u128_t) :
  wf128 x -> wf128 y ->
  aria_A (xor x y) = xor (aria_A x) (aria_A y) /\
  aria_A (mk128 0 0) = mk128 0 0.
Proof. intros Hx Hy. split; [now apply aria_A_xor | apply aria_A_zero]. Qed.

Lemma diffusion_linear_witness :
  aria_A (xor test_Plaintext test_KeyLeft)
  = xor (aria_A test_Plaintext) (aria_A test_KeyLeft).
Proof.
  exact (proj1 (diffusion_linear test_Plaintext test_KeyLeft
                  wf128_test_Plaintext (proj1 wf128_test_keys))).
Defined.

Lemma aria_FO_undo (d rk : aria_u128_t) :
  wf128 d -> wf128 rk -> xor (aria_SL2 (aria_A (aria_FO d rk))) rk = d.
Proof.
  intros Hd Hk. unfold aria_FO.
  rewrite aria_A_involutive by apply wf128_SL1.
  rewrite aria_SL2_SL1 by now apply wf128_xor.
  apply xor_cancel_r.
Qed.

Lemma aria_FE_undo (d rk : aria_u128_t) :
  wf128 d -> wf128 rk -> xor (aria_SL1 (aria_A (aria_FE d rk))) rk = d.
Proof.
  intros Hd Hk. unfold aria_FE.
  rewrite aria_A_involutive by apply wf128_SL2.
  rewrite aria_SL1_SL2 by now apply wf128_xor.
  apply xor_cancel_r.
Qed.

(** X6 — For a fixed round key the round functions are invertible: the
    input of FO is recovered from its output by A, SL2 and the key
    addition, the input of FE by A, SL1 and the key addition; hence two
    different inputs never give the same output. *)
Theorem round_functions_invertible (d d' rk : aria_u128_t) :
  wf128 d -> wf128 d' -> wf128 rk ->
  xor (aria_SL2 (aria_A (aria_FO d rk))) rk = d /\
  xor (aria_SL1 (aria_A (aria_FE d rk))) rk = d /\
  (aria_FO d rk = aria_FO d' rk -> d = d') /\
  (aria_FE d rk = aria_FE d' rk -> d = d').
Proof.
  intros Hd Hd' Hk.
  split; [now apply aria_FO_undo|]. split; [now apply aria_FE_undo|]. split.
  - intros E. rewrite <- (aria_FO_undo d rk), <- (aria_FO_undo d' rk) by assumption.
    now rewrite E.
  - intros E. rewrite <- (aria_FE_undo d rk), <- (aria_FE_undo d' rk) by assumption.
    now rewrite E.
Qed.

Lemma round_functions_invertible_witness :
  xor (aria_SL2 (aria_A (aria_FO test_Plaintext test_KeyLeft))) test_KeyLeft
  = test_Plaintext.
Proof.
  exact (proj1 (round_functions_invertible test_Plaintext test_Plaintext
                  test_KeyLeft wf128_test_Plaintext wf128_test_Plaintext
                  (proj1 wf128_test_keys))).
Defined.

(** X7 — Table lookups stay inside the tables: each of the four tables has
    256 entries, all of them bytes, and the sixteen indices [x0] .. [x15]
    taken from a block are bytes (also [x0] and [x8], which are taken
    without a mask). *)
Theorem table_lookups_in_bounds (x : aria_u128_t) (i : nat) :
  wf128 x ->
  (length SB1 = 256 /\ length SB2 = 256 /\ length SB3 = 256 /\ length SB4 = 256)%nat /\
  0 <= byte_at x i < 256 /\
  Forall is_u8 SB1 /\ Forall is_u8 SB2 /\ Forall is_u8 SB3 /\ Forall is_u8 SB4.
Proof.
  intros Hx. split; [now vm_compute|]. split.
  - destruct (is_u8_bytes x Hx)
      as (?&?&?&?&?&?&?&?&?&?&?&?&?&?&?&?).
    unfold byte_at. do 16 (destruct i as [|i]; [assumption|]).
    destruct i; cbn [nth]; lia.
  - repeat split; apply List.Forall_forall; intros b Hb;
      apply (In_nth _ _ 0) in Hb; destruct Hb as (n & Hn & <-).
    + replace n with (Z.to_nat (Z.of_nat n)) by lia. apply is_u8_SB1.
    + replace n with (Z.to_nat (Z.of_nat n)) by lia. apply is_u8_SB2.
    + replace n with (Z.to_nat (Z.of_nat n)) by lia. apply is_u8_SB3.
    + replace n with (Z.to_nat (Z.of_nat n)) by lia. apply is_u8_SB4.
Qed.

Lemma table_lookups_in_bounds_witness :
  0 <= byte_at (mk128 0xffffffffffffffff 0xffffffffffffffff) 0 < 256.
Proof.
  refine (proj1 (proj2 (table_lookups_in_bounds
                           (mk128 0xffffffffffffffff 0xffffffffffffffff) 0 _))).
  unfold wf128, is_u64. cbn [left right]. lia.
Defined.

(** ** Memory accesses of the engine and of the key expansion *)

Lemma load_is_Some (m : memory) (a : loc) (arr : list aria_u128_t) (i : nat) :
  m !! a = Some arr -> (is_Some (load m a i) <-> (i < length arr)%nat).
Proof.
  intros H. rewrite (load_lookup m a arr i H). apply lookup_lt_is_Some.
Qed.

Lemma load_None (m : memory) (a : loc) (arr : list aria_u128_t) (i : nat) :
  m !! a = Some arr -> (length arr <= i)%nat -> load m a i = None.
Proof.
  intros H Hi. rewrite (load_lookup m a arr i H). now apply lookup_ge_None_2.
Qed.

(** The loop reads the cells [i] .. [rounds] only. *)
Lemma aria_crypt_loop_ext (rounds : nat) (a a' : loc) (m m' : memory) :
  forall fuel i P,
    (forall j, (i <= j <= rounds)%nat -> load m a j = load m' a' j) ->
    aria_crypt_loop fuel i rounds a P m = aria_crypt_loop fuel i rounds a' P m'.
Proof.
  induction fuel as [|fuel IH]; intros i P H; [reflexivity|].
  cbn [aria_crypt_loop]. destruct (Nat.ltb_spec i rounds) as [Hi|Hi]; [|reflexivity].
  rewrite <- (H i) by lia. destruct (load m a i) as [k|]; [|reflexivity].
  cbn [mbind option_bind]. rewrite <- (H (i + 1)%nat) by lia.
  destruct (load m a (i + 1)) as [k1|]; [|reflexivity].
  cbn [mbind option_bind]. apply IH. intros j Hj. apply H. lia.
Qed.

(** With [rounds] as fuel the loop ends, whatever the parity of [rounds],
    when the cells up to [rounds] exist. *)
Lemma aria_crypt_loop_is_Some (rounds : nat) (a : loc) (m : memory)
    (arr : list aria_u128_t) :
  m !! a = Some arr -> (rounds < length arr)%nat ->
  forall fuel i P, (rounds <= i + 2 * fuel)%nat ->
    is_Some (aria_crypt_loop fuel i rounds a P m).
Proof.
  intros Hm Hlen. induction fuel as [|fuel IH]; intros i P Hf.
  - cbn [aria_crypt_loop]. destruct (Nat.ltb_spec i rounds); [lia | now eexists].
  - cbn [aria_crypt_loop]. destruct (Nat.ltb_spec i rounds) as [Hi|Hi]; [|now eexists].
    destruct (proj2 (load_is_Some m a arr i Hm)) as [k ->]; [lia|].
    destruct (proj2 (load_is_Some m a arr (i + 1) Hm)) as [k1 ->]; [lia|].
    cbn [mbind option_bind]. apply IH. lia.
Qed.

(** The engine depends on the cells 1 .. rounds+1 of its array only. *)
Lemma aria_crypt_ext (rounds : nat) (ek ek' : loc) (m m' : memory)
    (Input : aria_u128_t) :
  (1 <= rounds)%nat ->
  (forall j, (1 <= j <= rounds + 1)%nat -> load m ek j = load m' ek' j) ->
  aria_crypt rounds ek Input m = aria_crypt rounds ek' Input m'.
Proof.
  intros Hr H. unfold aria_crypt.
  rewrite <- (H 1%nat) by lia. destruct (load m ek 1) as [k|]; [|reflexivity].
  cbn [mbind option_bind].
  rewrite (aria_crypt_loop_ext rounds ek ek' m m') by (intros j Hj; apply H; lia).
  destruct (aria_crypt_loop rounds 2 rounds ek' (aria_FO Input k) m') as [P|];
    [|reflexivity].
  cbn [mbind option_bind].
  rewrite <- (H rounds) by lia. rewrite <- (H (rounds + 1)%nat) by lia.
  reflexivity.
Qed.

(** X8 — The engine reads the round keys [ek[1]] .. [ek[rounds+1]] and
    nothing else: two memories that agree on these cells give the same
    result, whatever [ek[0]], the cells above [rounds+1] and the other
    arrays hold. *)
Theorem aria_crypt_reads_round_keys_only (rounds : nat) (ek ek' : loc)
    (m m' : memory) (Input : aria_u128_t) :
  (1 <= rounds <= 255)%nat ->
  (forall j, (1 <= j <= rounds + 1)%nat -> load m ek j = load m' ek' j) ->
  aria_crypt rounds ek Input m = aria_crypt rounds ek' Input m'.
Proof. intros Hr H. apply aria_crypt_ext; [lia | exact H]. Qed.

Lemma aria_crypt_reads_round_keys_only_witness :
  aria_crypt 12 ek_local test_Plaintext {[ ek_local := demo_keys ]}
  = aria_crypt 12 1%nat test_Plaintext
      {[ 1%nat := mk128 5 5 :: tail demo_keys ++ [mk128 7 7] ]}.
Proof.
  apply (aria_crypt_reads_round_keys_only 12); [lia|].
  intros j Hj. do 14 (destruct j as [|j]; [first [lia | reflexivity]|]). lia.
Defined.

(** X9 — The engine returns a block exactly when the array has the cells
    0 .. rounds+1: with fewer cells the read of [ek[rounds + 1]] is outside
    the array, with that many cells every read is inside it and the loop
    ends, for every round count (even or odd). *)
Theorem aria_crypt_in_bounds (rounds : nat) (ek : loc) (m : memory)
    (keys : list aria_u128_t) (Input : aria_u128_t) :
  (rounds <= 255)%nat -> m !! ek = Some keys ->
  (is_Some (aria_crypt rounds ek Input m) <-> (rounds + 2 <= length keys)%nat).
Proof.
  intros Hr Hm. split.
  - intros [c Hc]. unfold aria_crypt in Hc.
    destruct (load m ek 1) as [k|]; [|discriminate].
    cbn [mbind option_bind] in Hc.
    destruct (aria_crypt_loop rounds 2 rounds ek (aria_FO Input k) m) as [P|];
      [|discriminate].
    cbn [mbind option_bind] in Hc.
    destruct (load m ek rounds) as [kn|]; [|discriminate].
    cbn [mbind option_bind] in Hc.
    destruct (load m ek (rounds + 1)) as [kn1|] eqn:E; [|discriminate].
    assert (Hlt : (rounds + 1 < length keys)%nat)
      by (apply (load_is_Some m ek keys (rounds + 1) Hm); rewrite E; now eexists).
    lia.
  - intros Hlen. unfold aria_crypt.
    destruct (proj2 (load_is_Some m ek keys 1 Hm)) as [k ->]; [lia|].
    cbn [mbind option_bind].
    destruct (aria_crypt_loop_is_Some rounds ek m keys Hm ltac:(lia)
                rounds 2%nat (aria_FO Input k) ltac:(lia)) as [P ->].
    cbn [mbind option_bind].
    destruct (proj2 (load_is_Some m ek keys rounds Hm)) as [kn ->]; [lia|].
    cbn [mbind option_bind].
    destruct (proj2 (load_is_Some m ek keys (rounds + 1) Hm)) as [kn1 ->]; [lia|].
    now eexists.
Qed.

Lemma aria_crypt_in_bounds_witness :
  is_Some (aria_crypt 16 ek_local test_Plaintext {[ ek_local := demo_keys ]}).
Proof.
  apply (aria_crypt_in_bounds 16 ek_local {[ ek_local := demo_keys ]} demo_keys);
    [lia | reflexivity | vm_compute; lia].
Defined.

Lemma store_Some (m m' : memory) (a : loc) (i : nat) (v : aria_u128_t) :
  store m a i v = Some m' ->
  exists arr, m !! a = Some arr /\ (i < length arr)%nat /\
              m' = <[a := <[i := v]> arr]> m.
Proof.
  unfold store. destruct (m !! a) as [arr|]; [|discriminate].
  cbn [mbind option_bind]. destruct (Nat.ltb_spec i (length arr)); [|discriminate].
  intros [= <-]. now exists arr.
Qed.

(** A write keeps the length of the array and needs its index inside it. *)
Lemma store_length (m m' : memory) (a : loc) (i : nat) (v : aria_u128_t)
    (n : nat) :
  store m a i v = Some m' ->
  (exists arr, m !! a = Some arr /\ length arr = n) ->
  (i < n)%nat /\ exists arr', m' !! a = Some arr' /\ length arr' = n.
Proof.
  intros Hs (arr & Hm & Hn). apply store_Some in Hs.
  destruct Hs as (arr0 & Hm0 & Hi & ->). rewrite Hm in Hm0. injection Hm0 as <-.
  split; [lia|]. exists (<[i := v]> arr). split; [apply lookup_insert_eq|].
  now rewrite length_insert.
Qed.

Lemma compute_ek_needs_18 W0 W1 W2 W3 (m m' : memory) (a : loc)
    (arr : list aria_u128_t) :
  m !! a = Some arr -> compute_ek W0 W1 W2 W3 a m = Some m' ->
  (18 <= length arr)%nat.
Proof.
  intros Hm Hc. unfold compute_ek in Hc.
  assert (Hinv : exists arr0, m !! a = Some arr0 /\ length arr0 = length arr)
    by now exists arr.
  clear Hm. revert Hinv Hc. generalize (length arr) as n. intros n Hinv Hc.
  do 16 (match type of Hc with
         | (mbind _ (store ?m0 a ?i ?v)) = Some _ =>
             let E := fresh "E" in
             destruct (store m0 a i v) as [?m1|] eqn:E; [|discriminate Hc];
             cbn [mbind option_bind] in Hc;
             apply (fun H => proj2 (store_length _ _ _ _ _ n E H)) in Hinv;
             clear E
         end).
  apply (store_length _ _ _ _ _ n Hc) in Hinv. lia.
Qed.

(** [compute_ek] on an array with a tail after its eighteenth cell. *)
Lemma compute_ek_insert_tail W0 W1 W2 W3 (m : memory) (a : loc)
    (e0 : aria_u128_t) (ks tl : list aria_u128_t) :
  length ks = 17%nat ->
  compute_ek W0 W1 W2 W3 a (<[a := e0 :: ks ++ tl]> m)
  = Some (<[a := e0 :: spec_candidates (W0, W1, W2, W3) ++ tl]> m).
Proof.
  intros Hlen.
  do 17 (destruct ks as [|? ks]; [discriminate Hlen|]).
  destruct ks; [|discriminate Hlen]. clear Hlen.
  unfold compute_ek, spec_candidates. abstract_keys.
  cbn [app]. exec_array. reflexivity.
Qed.

(** X10 — [compute_ek] writes the cells 1 .. 17 of the array and nothing
    else: it succeeds exactly on an array of at least eighteen cells, keeps
    cell 0, the cells from 18 on and every other array, and the seventeen
    keys it writes do not depend on what the array held. *)
Theorem compute_ek_frame_rule W0 W1 W2 W3 (m : memory) (ek : loc)
    (arr : list aria_u128_t) :
  m !! ek = Some arr ->
  (is_Some (compute_ek W0 W1 W2 W3 ek m) <-> (18 <= length arr)%nat) /\
  ((18 <= length arr)%nat ->
   compute_ek W0 W1 W2 W3 ek m
   = Some (<[ek := take 1 arr ++ spec_candidates (W0, W1, W2, W3) ++ drop 18 arr]> m)).
Proof.
  intros Hm.
  assert (Hrun : (18 <= length arr)%nat ->
    compute_ek W0 W1 W2 W3 ek m
    = Some (<[ek := take 1 arr ++ spec_candidates (W0, W1, W2, W3) ++ drop 18 arr]> m)).
  { intros Hlen. rewrite <- (insert_id m ek arr Hm) at 1.
    rewrite <- (take_drop 18 arr) at 1.
    destruct arr as [|e0 arr]; [simpl in Hlen; lia|].
    change (take 18 (e0 :: arr)) with (e0 :: take 17 arr).
    change (drop 18 (e0 :: arr)) with (drop 17 arr).
    cbn [app]. rewrite compute_ek_insert_tail
      by (rewrite length_take; simpl in Hlen; lia).
    reflexivity. }
  split; [split|exact Hrun].
  - intros [m' Hc]. exact (compute_ek_needs_18 _ _ _ _ _ _ _ _ Hm Hc).
  - intros Hlen. rewrite Hrun by assumption. now eexists.
Qed.

Lemma compute_ek_frame_rule_witness :
  compute_ek test_KeyLeft C1 C2 C3 ek_local {[ ek_local := demo_keys ]}
  = Some (<[ek_local := take 1 demo_keys
                        ++ spec_candidates (test_KeyLeft, C1, C2, C3)
                        ++ drop 18 demo_keys]> {[ ek_local := demo_keys ]}).
Proof.
  apply (compute_ek_frame_rule test_KeyLeft C1 C2 C3
           {[ ek_local := demo_keys ]} ek_local demo_keys);
    [reflexivity | vm_compute; lia].
Defined.

(** ** Round trips on arbitrary round keys *)

Tactic Notation "explicit_prefix" integer(n) ident(ek) ident(Hlen) :=
  do n (destruct ek as [|? ek]; [simpl in Hlen; lia|]); clear Hlen.

Lemma crypt_roundtrip_12_tail (m : memory) (a : loc) (ek : list aria_u128_t)
    (P : aria_u128_t) :
  (12 + 2 <= length ek)%nat -> Forall wf128 ek -> wf128 P ->
  (c ← aria_crypt 12 a P (<[a := ek]> m);
   m' ← aria_dk_128 a (<[a := ek]> m);
   aria_crypt 12 a c m') = Some P.
Proof.
  intros Hlen Hwf HP. explicit_prefix 14 ek Hlen. split_Forall Hwf.
  rewrite aria_dk_128_insert. unfold aria_crypt. exec_array.
  f_equal. undo_rounds. reflexivity.
Qed.

Lemma crypt_roundtrip_14_tail (m : memory) (a : loc) (ek : list aria_u128_t)
    (P : aria_u128_t) :
  (14 + 2 <= length ek)%nat -> Forall wf128 ek -> wf128 P ->
  (c ← aria_crypt 14 a P (<[a := ek]> m);
   m' ← aria_dk_192 a (<[a := ek]> m);
   aria_crypt 14 a c m') = Some P.
Proof.
  intros Hlen Hwf HP. explicit_prefix 16 ek Hlen. split_Forall Hwf.
  rewrite aria_dk_192_insert. unfold aria_crypt. exec_array.
  f_equal. undo_rounds. reflexivity.
Qed.

Lemma crypt_roundtrip_16_tail (m : memory) (a : loc) (ek : list aria_u128_t)
    (P : aria_u128_t) :
  (16 + 2 <= length ek)%nat -> Forall wf128 ek -> wf128 P ->
  (c ← aria_crypt 16 a P (<[a := ek]> m);
   m' ← aria_dk_256 a (<[a := ek]> m);
   aria_crypt 16 a c m') = Some P.
Proof.
  intros Hlen Hwf HP. explicit_prefix 18 ek Hlen. split_Forall Hwf.
  rewrite aria_dk_256_insert. unfold aria_crypt. exec_array.
  f_equal. undo_rounds. reflexivity.
Qed.

Lemma bind_Some_exists2 {A B C : Type} (x : option A) (y : option B)
    (f : A -> B -> option C) (r : C) :
  (c ← x; m' ← y; f c m') = Some r ->
  exists c m', x = Some c /\ y = Some m' /\ f c m' = Some r.
Proof.
  destruct x as [c|]; [|discriminate]. destruct y as [m'|]; [|discriminate].
  intros H. now exists c, m'.
Qed.

(** X11 — The engine is inverted by the engine on the derived keys, for
    arbitrary round keys: whatever blocks an array of round keys holds
    (they need not come from a master key), running the engine, deriving
    the decryption keys in the array and running the engine again on the
    result gives the input block back. *)
Theorem engine_inverted_by_derived_keys (m : memory) (ek : loc)
    (keys : list aria_u128_t) (b : aria_u128_t) :
  m !! ek = Some keys -> Forall wf128 keys -> wf128 b ->
  ((12 + 2 <= length keys)%nat ->
   exists c m', aria_crypt 12 ek b m = Some c /\ aria_dk_128 ek m = Some m' /\
                aria_crypt 12 ek c m' = Some b) /\
  ((14 + 2 <= length keys)%nat ->
   exists c m', aria_crypt 14 ek b m = Some c /\ aria_dk_192 ek m = Some m' /\
                aria_crypt 14 ek c m' = Some b) /\
  ((16 + 2 <= length keys)%nat ->
   exists c m', aria_crypt 16 ek b m = Some c /\ aria_dk_256 ek m = Some m' /\
                aria_crypt 16 ek c m' = Some b).
Proof.
  intros Hm Hwf Hb. rewrite <- (insert_id m ek keys Hm).
  split; [|split]; intros Hlen; apply bind_Some_exists2.
  - now apply crypt_roundtrip_12_tail.
  - now apply crypt_roundtrip_14_tail.
  - now apply crypt_roundtrip_16_tail.
Qed.

Lemma wf128_demo_keys : Forall wf128 demo_keys.
Proof.
  unfold demo_keys. cbn [map seq]. repeat apply List.Forall_cons;
    try apply List.Forall_nil; unfold wf128, is_u64; cbn [left right]; lia.
Qed.

Lemma engine_inverted_by_derived_keys_witness :
  exists c m',
    aria_crypt 16 ek_local test_Plaintext {[ ek_local := demo_keys ]} = Some c /\
    aria_dk_256 ek_local {[ ek_local := demo_keys ]} = Some m' /\
    aria_crypt 16 ek_local c m' = Some test_Plaintext.
Proof.
  refine (proj2 (proj2 (engine_inverted_by_derived_keys
            {[ ek_local := demo_keys ]} ek_local demo_keys test_Plaintext
            _ wf128_demo_keys wf128_test_Plaintext)) _).
  - reflexivity.
  - vm_compute. lia.
Defined.

(** ** Deriving the decryption keys twice *)

Lemma aria_dk_128_twice (m : memory) (a : loc) (ek : list aria_u128_t) :
  (12 + 2 <= length ek)%nat -> Forall wf128 ek ->
  exists e0,
    (m1 ← aria_dk_128 a (<[a := ek]> m); aria_dk_128 a m1)
    = Some (<[a := <[0%nat := e0]> ek]> m) /\ wf128 e0.
Proof.
  intros Hlen Hwf. explicit_prefix 14 ek Hlen. split_Forall Hwf.
  rewrite aria_dk_128_insert, bind_Some_l, aria_dk_128_insert.
  rewrite !aria_A_involutive by assumption.
  eexists. split; [reflexivity | apply wf128_A].
Qed.

Lemma aria_dk_192_twice (m : memory) (a : loc) (ek : list aria_u128_t) :
  (14 + 2 <= length ek)%nat -> Forall wf128 ek ->
  exists e0,
    (m1 ← aria_dk_192 a (<[a := ek]> m); aria_dk_192 a m1)
    = Some (<[a := <[0%nat := e0]> ek]> m) /\ wf128 e0.
Proof.
  intros Hlen Hwf. explicit_prefix 16 ek Hlen. split_Forall Hwf.
  rewrite aria_dk_192_insert, bind_Some_l, aria_dk_192_insert.
  rewrite !aria_A_involutive by assumption.
  eexists. split; [reflexivity | apply wf128_A].
Qed.

Lemma aria_dk_256_twice (m : memory) (a : loc) (ek : list aria_u128_t) :
  (16 + 2 <= length ek)%nat -> Forall wf128 ek ->
  exists e0,
    (m1 ← aria_dk_256 a (<[a := ek]> m); aria_dk_256 a m1)
    = Some (<[a := <[0%nat := e0]> ek]> m) /\ wf128 e0.
Proof.
  intros Hlen Hwf. explicit_prefix 18 ek Hlen. split_Forall Hwf.
  rewrite aria_dk_256_insert, bind_Some_l, aria_dk_256_insert.
  rewrite !aria_A_involutive by assumption.
  eexists. split; [reflexivity | apply wf128_A].
Qed.

(** X12 — Deriving the decryption keys twice restores the encryption keys:
    after two derivations the array holds the keys it held at the start in
    every cell but cell 0, the swap temporary. *)
Theorem decryption_keys_twice (m : memory) (ek : loc) (keys : list aria_u128_t) :
  m !! ek = Some keys -> Forall wf128 keys ->
  ((12 + 2 <= length keys)%nat ->
   exists m1 e0, aria_dk_128 ek m = Some m1 /\
                 aria_dk_128 ek m1 = Some (<[ek := <[0%nat := e0]> keys]> m)) /\
  ((14 + 2 <= length keys)%nat ->
   exists m1 e0, aria_dk_192 ek m = Some m1 /\
                 aria_dk_192 ek m1 = Some (<[ek := <[0%nat := e0]> keys]> m)) /\
  ((16 + 2 <= length keys)%nat ->
   exists m1 e0, aria_dk_256 ek m = Some m1 /\
                 aria_dk_256 ek m1 = Some (<[ek := <[0%nat := e0]> keys]> m)).
Proof.
  intros Hm Hwf.
  split; [|split]; intros Hlen.
  - destruct (aria_dk_128_twice m ek keys Hlen Hwf) as (e0 & H & _).
    rewrite (insert_id m ek keys Hm) in H. apply bind_Some_exists in H.
    destruct H as (m1 & H1 & H2). now exists m1, e0.
  - destruct (aria_dk_192_twice m ek keys Hlen Hwf) as (e0 & H & _).
    rewrite (insert_id m ek keys Hm) in H. apply bind_Some_exists in H.
    destruct H as (m1 & H1 & H2). now exists m1, e0.
  - destruct (aria_dk_256_twice m ek keys Hlen Hwf) as (e0 & H & _).
    rewrite (insert_id m ek keys Hm) in H. apply bind_Some_exists in H.
    destruct H as (m1 & H1 & H2). now exists m1, e0.
Qed.

Lemma decryption_keys_twice_witness :
  exists m1 e0,
    aria_dk_128 ek_local {[ ek_local := demo_keys ]} = Some m1 /\
    aria_dk_128 ek_local m1
    = Some (<[ek_local := <[0%nat := e0]> demo_keys]> {[ ek_local := demo_keys ]}).
Proof.
  refine (proj1 (decryption_keys_twice {[ ek_local := demo_keys ]} ek_local
            demo_keys _ wf128_demo_keys) _).
  - reflexivity.
  - vm_compute. lia.
Defined.

(** ** Encryption and decryption as inverse permutations *)

Lemma aria_crypt_cell0 (rounds : nat) (a : loc) (m : memory)
    (ek : list aria_u128_t) (e0 : aria_u128_t) (Input : aria_u128_t) :
  (1 <= rounds)%nat ->
  aria_crypt rounds a Input (<[a := <[0%nat := e0]> ek]> m)
  = aria_crypt rounds a Input (<[a := ek]> m).
Proof.
  intros Hr. apply aria_crypt_ext; [assumption|]. intros j Hj.
  rewrite (load_lookup _ a _ j (lookup_insert_eq m a _)).
  rewrite (load_lookup _ a _ j (lookup_insert_eq m a _)).
  apply list_lookup_insert_ne. lia.
Qed.

Ltac wf_array :=
  repeat (apply List.Forall_cons; [wf_solve|]); assumption.

Lemma wf128_dk_128 (m : memory) (a : loc) (ek : list aria_u128_t) :
  (12 + 2 <= length ek)%nat -> Forall wf128 ek ->
  exists dk, aria_dk_128 a (<[a := ek]> m) = Some (<[a := dk]> m) /\
             length dk = length ek /\ Forall wf128 dk.
Proof.
  intros Hlen Hwf. explicit_prefix 14 ek Hlen. split_Forall Hwf.
  rewrite aria_dk_128_insert. eexists. split; [reflexivity|].
  split; [reflexivity | wf_array].
Qed.

Lemma wf128_dk_192 (m : memory) (a : loc) (ek : list aria_u128_t) :
  (14 + 2 <= length ek)%nat -> Forall wf128 ek ->
  exists dk, aria_dk_192 a (<[a := ek]> m) = Some (<[a := dk]> m) /\
             length dk = length ek /\ Forall wf128 dk.
Proof.
  intros Hlen Hwf. explicit_prefix 16 ek Hlen. split_Forall Hwf.
  rewrite aria_dk_192_insert. eexists. split; [reflexivity|].
  split; [reflexivity | wf_array].
Qed.

Lemma wf128_dk_256 (m : memory) (a : loc) (ek : list aria_u128_t) :
  (16 + 2 <= length ek)%nat -> Forall wf128 ek ->
  exists dk, aria_dk_256 a (<[a := ek]> m) = Some (<[a := dk]> m) /\
             length dk = length ek /\ Forall wf128 dk.
Proof.
  intros Hlen Hwf. explicit_prefix 18 ek Hlen. split_Forall Hwf.
  rewrite aria_dk_256_insert. eexists. split; [reflexivity|].
  split; [reflexivity | wf_array].
Qed.

(** The engine on the encryption keys undoes the engine on the decryption
    keys. *)
Lemma crypt_roundtrip_rev_12 (m : memory) (a : loc) (ek : list aria_u128_t)
    (c : aria_u128_t) :
  (12 + 2 <= length ek)%nat -> Forall wf128 ek -> wf128 c ->
  exists p m', aria_dk_128 a (<[a := ek]> m) = Some m' /\
               aria_crypt 12 a c m' = Some p /\
               aria_crypt 12 a p (<[a := ek]> m) = Some c.
Proof.
  intros Hlen Hwf Hc.
  destruct (wf128_dk_128 m a ek Hlen Hwf) as (dk & Hdk & Hlen' & Hwf').
  pose proof (crypt_roundtrip_12_tail m a dk c ltac:(lia) Hwf' Hc) as H.
  apply bind_Some_exists2 in H. destruct H as (p & m2 & Hp & Hdk2 & Hback).
  destruct (aria_dk_128_twice m a ek Hlen Hwf) as (e0 & H2 & _).
  rewrite Hdk, bind_Some_l, Hdk2 in H2. injection H2 as ->.
  rewrite aria_crypt_cell0 in Hback by lia.
  exists p, (<[a := dk]> m). auto.
Qed.

Lemma crypt_roundtrip_rev_14 (m : memory) (a : loc) (ek : list aria_u128_t)
    (c : aria_u128_t) :
  (14 + 2 <= length ek)%nat -> Forall wf128 ek -> wf128 c ->
  exists p m', aria_dk_192 a (<[a := ek]> m) = Some m' /\
               aria_crypt 14 a c m' = Some p /\
               aria_crypt 14 a p (<[a := ek]> m) = Some c.
Proof.
  intros Hlen Hwf Hc.
  destruct (wf128_dk_192 m a ek Hlen Hwf) as (dk & Hdk & Hlen' & Hwf').
  pose proof (crypt_roundtrip_14_tail m a dk c ltac:(lia) Hwf' Hc) as H.
  apply bind_Some_exists2 in H. destruct H as (p & m2 & Hp & Hdk2 & Hback).
  destruct (aria_dk_192_twice m a ek Hlen Hwf) as (e0 & H2 & _).
  rewrite Hdk, bind_Some_l, Hdk2 in H2. injection H2 as ->.
  rewrite aria_crypt_cell0 in Hback by lia.
  exists p, (<[a := dk]> m). auto.
Qed.

Lemma crypt_roundtrip_rev_16 (m : memory) (a : loc) (ek : list aria_u128_t)
    (c : aria_u128_t) :
  (16 + 2 <= length ek)%nat -> Forall wf128 ek -> wf128 c ->
  exists p m', aria_dk_256 a (<[a := ek]> m) = Some m' /\
               aria_crypt 16 a c m' = Some p /\
               aria_crypt 16 a p (<[a := ek]> m) = Some c.
Proof.
  intros Hlen Hwf Hc.
  destruct (wf128_dk_256 m a ek Hlen Hwf) as (dk & Hdk & Hlen' & Hwf').
  pose proof (crypt_roundtrip_16_tail m a dk c ltac:(lia) Hwf' Hc) as H.
  apply bind_Some_exists2 in H. destruct H as (p & m2 & Hp & Hdk2 & Hback).
  destruct (aria_dk_256_twice m a ek Hlen Hwf) as (e0 & H2 & _).
  rewrite Hdk, bind_Some_l, Hdk2 in H2. injection H2 as ->.
  rewrite aria_crypt_cell0 in Hback by lia.
  exists p, (<[a := dk]> m). auto.
Qed.

Section TwoSided.
Variables KeyLeft KeyRight : aria_u128_t.
Hypotheses (HL : wf128 KeyLeft) (HR : wf128 KeyRight).

Lemma encrypt_of_decrypt_128 (c : aria_u128_t) :
  wf128 c ->
  exists p, aria_decrypt_128 KeyLeft c = Some p /\
            aria_encrypt_128 KeyLeft p = Some c.
Proof.
  intros Hc. pose proof wf128_const as (_ & _ & _ & H0).
  unfold aria_decrypt_128, aria_encrypt_128.
  rewrite aria_ek_128_spec, !bind_Some_l. rewrite <- insert_empty.
  destruct (crypt_roundtrip_rev_12 ∅ ek_local
              (mk128 0 0 :: spec_candidates (spec_W 128 KeyLeft (mk128 0 0))) c)
    as (p & m' & Hdk & Hp & Hback);
    [rewrite length_keys; lia | now apply wf128_spec_keys | assumption |].
  exists p. rewrite Hdk, bind_Some_l. now split.
Qed.

Lemma encrypt_of_decrypt_192 (c : aria_u128_t) :
  wf128 c ->
  exists p, aria_decrypt_192 KeyLeft KeyRight c = Some p /\
            aria_encrypt_192 KeyLeft KeyRight p = Some c.
Proof.
  intros Hc.
  unfold aria_decrypt_192, aria_encrypt_192.
  rewrite aria_ek_192_spec, !bind_Some_l. rewrite <- insert_empty.
  destruct (crypt_roundtrip_rev_14 ∅ ek_local
              (mk128 0 0 :: spec_candidates (spec_W 192 KeyLeft KeyRight)) c)
    as (p & m' & Hdk & Hp & Hback);
    [rewrite length_keys; lia | now apply wf128_spec_keys | assumption |].
  exists p. rewrite Hdk, bind_Some_l. now split.
Qed.

Lemma encrypt_of_decrypt_256 (c : aria_u128_t) :
  wf128 c ->
  exists p, aria_decrypt_256 KeyLeft KeyRight c = Some p /\
            aria_encrypt_256 KeyLeft KeyRight p = Some c.
Proof.
  intros Hc.
  unfold aria_decrypt_256, aria_encrypt_256.
  rewrite aria_ek_256_spec, !bind_Some_l. rewrite <- insert_empty.
  destruct (crypt_roundtrip_rev_16 ∅ ek_local
              (mk128 0 0 :: spec_candidates (spec_W 256 KeyLeft KeyRight)) c)
    as (p & m' & Hdk & Hp & Hback);
    [rewrite length_keys; lia | now apply wf128_spec_keys | assumption |].
  exists p. rewrite Hdk, bind_Some_l. now split.
Qed.

Lemma decrypt_of_encrypt_128 (b : aria_u128_t) :
  wf128 b ->
  exists c, aria_encrypt_128 KeyLeft b = Some c /\
            aria_decrypt_128 KeyLeft c = Some b.
Proof.
  intros Hb. pose proof wf128_const as (_ & _ & _ & H0).
  destruct (frame_roundtrip_12
              (mk128 0 0 :: spec_candidates (spec_W 128 KeyLeft (mk128 0 0))) b)
    as (c & Hc & Hd); [apply length_keys | now apply wf128_spec_keys | assumption |].
  exists c. unfold aria_encrypt_128, aria_decrypt_128.
  rewrite aria_ek_128_spec, !bind_Some_l. split; assumption.
Qed.

Lemma decrypt_of_encrypt_192 (b : aria_u128_t) :
  wf128 b ->
  exists c, aria_encrypt_192 KeyLeft KeyRight b = Some c /\
            aria_decrypt_192 KeyLeft KeyRight c = Some b.
Proof.
  intros Hb.
  destruct (frame_roundtrip_14
              (mk128 0 0 :: spec_candidates (spec_W 192 KeyLeft KeyRight)) b)
    as (c & Hc & Hd); [apply length_keys | now apply wf128_spec_keys | assumption |].
  exists c. unfold aria_encrypt_192, aria_decrypt_192.
  rewrite aria_ek_192_spec, !bind_Some_l. split; assumption.
Qed.

Lemma decrypt_of_encrypt_256 (b : aria_u128_t) :
  wf128 b ->
  exists c, aria_encrypt_256 KeyLeft KeyRight b = Some c /\
            aria_decrypt_256 KeyLeft KeyRight c = Some b.
Proof.
  intros Hb.
  destruct (frame_roundtrip_16
              (mk128 0 0 :: spec_candidates (spec_W 256 KeyLeft KeyRight)) b)
    as (c & Hc & Hd); [apply length_keys | now apply wf128_spec_keys | assumption |].
  exists c. unfold aria_encrypt_256, aria_decrypt_256.
  rewrite aria_ek_256_spec, !bind_Some_l. split; assumption.
Qed.
End TwoSided.

(** X13 — Encryption undoes decryption: for every master key of 128, 192
    or 256 bits and every 128-bit block c, the decryption of c is defined
    and its encryption under the same key is c. *)
Theorem aria_encrypt_decrypt (KeyLeft KeyRight c : aria_u128_t) :
  wf128 KeyLeft -> wf128 KeyRight -> wf128 c ->
  (exists p, aria_decrypt_128 KeyLeft c = Some p /\
             aria_encrypt_128 KeyLeft p = Some c) /\
  (exists p, aria_decrypt_192 KeyLeft KeyRight c = Some p /\
             aria_encrypt_192 KeyLeft KeyRight p = Some c) /\
  (exists p, aria_decrypt_256 KeyLeft KeyRight c = Some p /\
             aria_encrypt_256 KeyLeft KeyRight p = Some c).
Proof.
  intros HL HR Hc. split; [|split].
  - now apply encrypt_of_decrypt_128.
  - now apply encrypt_of_decrypt_192.
  - now apply encrypt_of_decrypt_256.
Qed.

Lemma aria_encrypt_decrypt_witness :
  exists p, aria_decrypt_192 test_KeyLeft test_KeyRight_192 test_Plaintext = Some p /\
            aria_encrypt_192 test_KeyLeft test_KeyRight_192 p = Some test_Plaintext.
Proof.
  refine (proj1 (proj2 (aria_encrypt_decrypt test_KeyLeft test_KeyRight_192
            test_Plaintext (proj1 wf128_test_keys) _ wf128_test_Plaintext))).
  unfold wf128, is_u64. cbn [left right test_KeyRight_192]. lia.
Defined.

Lemma option_inj_via {A B : Type} (f : A -> option B) (g : B -> option A)
    (x y : A) :
  (exists c, f x = Some c /\ g c = Some x) ->
  (exists c, f y = Some c /\ g c = Some y) ->
  f x = f y -> x = y.
Proof.
  intros (c & Hc & Hx) (c' & Hc' & Hy) E. rewrite Hc, Hc' in E.
  injection E as <-. rewrite Hx in Hy. now injection Hy.
Qed.

(** X14 — Under one key, encryption and decryption never map two
    different blocks to the same block. *)
Theorem aria_encrypt_injective (KeyLeft KeyRight x y : aria_u128_t) :
  wf128 KeyLeft -> wf128 KeyRight -> wf128 x -> wf128 y ->
  (aria_encrypt_128 KeyLeft x = aria_encrypt_128 KeyLeft y -> x = y) /\
  (aria_encrypt_192 KeyLeft KeyRight x = aria_encrypt_192 KeyLeft KeyRight y -> x = y) /\
  (aria_encrypt_256 KeyLeft KeyRight x = aria_encrypt_256 KeyLeft KeyRight y -> x = y) /\
  (aria_decrypt_128 KeyLeft x = aria_decrypt_128 KeyLeft y -> x = y) /\
  (aria_decrypt_192 KeyLeft KeyRight x = aria_decrypt_192 KeyLeft KeyRight y -> x = y) /\
  (aria_decrypt_256 KeyLeft KeyRight x = aria_decrypt_256 KeyLeft KeyRight y -> x = y).
Proof.
  intros HL HR Hx Hy. repeat apply conj.
  - apply (option_inj_via _ (aria_decrypt_128 KeyLeft));
      now apply decrypt_of_encrypt_128.
  - apply (option_inj_via _ (aria_decrypt_192 KeyLeft KeyRight));
      now apply decrypt_of_encrypt_192.
  - apply (option_inj_via _ (aria_decrypt_256 KeyLeft KeyRight));
      now apply decrypt_of_encrypt_256.
  - apply (option_inj_via _ (aria_encrypt_128 KeyLeft));
      now apply encrypt_of_decrypt_128.
  - apply (option_inj_via _ (aria_encrypt_192 KeyLeft KeyRight));
      now apply encrypt_of_decrypt_192.
  - apply (option_inj_via _ (aria_encrypt_256 KeyLeft KeyRight));
      now apply encrypt_of_decrypt_256.
Qed.

Lemma aria_encrypt_injective_witness :
  test_Plaintext = mk128 0x0011223344556677 0x8899aabbccddeeff.
Proof.
  apply (proj1 (aria_encrypt_injective test_KeyLeft test_KeyRight_256
           test_Plaintext (mk128 0x0011223344556677 0x8899aabbccddeeff)
           (proj1 wf128_test_keys) (proj2 wf128_test_keys)
           wf128_test_Plaintext wf128_test_Plaintext)).
  reflexivity.
Defined.

(** ** Key expansion *)

Lemma xor_inj_l (a k k' : aria_u128_t) : xor a k = xor a k' -> k = k'.
Proof.
  intros E. rewrite <- (xor_cancel_r k a), <- (xor_cancel_r k' a).
  now rewrite (xor_comm k a), (xor_comm k' a), E.
Qed.

Lemma tuple4_inj {A : Type} (a b c d a' b' c' d' : A) :
  (a, b, c, d) = (a', b', c', d') -> a = a' /\ b = b'.
Proof. intros [= -> -> _ _]. now split. Qed.

(** X15 — No bit of the key is dropped by the key expansion: different
    keys give different values W0 .. W3.  In particular the functions for
    192-bit keys use all 128 bits of [KeyRight]; they do not clear its
    right half. *)
Theorem key_expansion_injective (KeyLeft KeyRight KeyLeft' KeyRight' : aria_u128_t) :
  (aria_W_128 KeyLeft = aria_W_128 KeyLeft' -> KeyLeft = KeyLeft') /\
  (aria_W_192 KeyLeft KeyRight = aria_W_192 KeyLeft' KeyRight' ->
   KeyLeft = KeyLeft' /\ KeyRight = KeyRight') /\
  (aria_W_256 KeyLeft KeyRight = aria_W_256 KeyLeft' KeyRight' ->
   KeyLeft = KeyLeft' /\ KeyRight = KeyRight').
Proof.
  unfold aria_W_128, aria_W_192, aria_W_256. cbv zeta. split; [|split].
  - intros E. apply tuple4_inj in E. exact (proj1 E).
  - intros E. apply tuple4_inj in E. destruct E as [E0 E1]. subst KeyLeft'.
    split; [reflexivity|]. exact (xor_inj_l _ _ _ E1).
  - intros E. apply tuple4_inj in E. destruct E as [E0 E1]. subst KeyLeft'.
    split; [reflexivity|]. exact (xor_inj_l _ _ _ E1).
Qed.

(** ** Bounds of the key derivation *)

Lemma aria_dk_short (last j mid : nat) (m : memory) (a : loc)
    (keys : list aria_u128_t) :
  m !! a = Some keys -> (length keys <= last)%nat -> aria_dk last j mid a m = None.
Proof.
  intros Hm Hlen. unfold aria_dk. now rewrite (load_None m a keys last Hm Hlen).
Qed.

(** X16 — The key derivation needs the cells 0 .. rounds+1: on an array
    with at least that many cells it succeeds, on a shorter array its first
    read, of [ek[rounds + 1]], is outside the array. *)
Theorem aria_dk_in_bounds (m : memory) (ek : loc) (keys : list aria_u128_t) :
  m !! ek = Some keys ->
  (is_Some (aria_dk_128 ek m) <-> (12 + 2 <= length keys)%nat) /\
  (is_Some (aria_dk_192 ek m) <-> (14 + 2 <= length keys)%nat) /\
  (is_Some (aria_dk_256 ek m) <-> (16 + 2 <= length keys)%nat).
Proof.
  intros Hm. split; [|split]; split.
  - intros [m' H]. destruct (Nat.le_gt_cases (12 + 2) (length keys)) as [|Hlt];
      [assumption|].
    unfold aria_dk_128 in H. rewrite (aria_dk_short 13 12 7 m ek keys Hm) in H by lia.
    discriminate H.
  - intros Hlen.
    destruct (aria_dk_128_in_place m ek keys (mk128 0 0) Hm Hlen) as (dk & -> & _).
    now eexists.
  - intros [m' H]. destruct (Nat.le_gt_cases (14 + 2) (length keys)) as [|Hlt];
      [assumption|].
    unfold aria_dk_192 in H. rewrite (aria_dk_short 15 14 8 m ek keys Hm) in H by lia.
    discriminate H.
  - intros Hlen.
    destruct (aria_dk_192_in_place m ek keys (mk128 0 0) Hm Hlen) as (dk & -> & _).
    now eexists.
  - intros [m' H]. destruct (Nat.le_gt_cases (16 + 2) (length keys)) as [|Hlt];
      [assumption|].
    unfold aria_dk_256 in H. rewrite (aria_dk_short 17 16 9 m ek keys Hm) in H by lia.
    discriminate H.
  - intros Hlen.
    destruct (aria_dk_256_in_place m ek keys (mk128 0 0) Hm Hlen) as (dk & -> & _).
    now eexists.
Qed.

Lemma aria_dk_in_bounds_witness :
  is_Some (aria_dk_128 ek_local {[ ek_local := demo_keys ]}).
Proof.
  refine (proj2 (proj1 (aria_dk_in_bounds {[ ek_local := demo_keys ]}
                          ek_local demo_keys _)) _).
  - reflexivity.
  - vm_compute. lia.
Defined.

(** ** The stress test of [main] *)

Section StressTestFacts.
Variable rng : Type.
Variable xorshift128plus_next : rng -> Z * rng.
Hypothesis next_u64 : forall s, is_u64 (fst (xorshift128plus_next s)).

Lemma wf128_random_u128 (s : rng) :
  wf128 (fst (ARIA_TEST.random_u128 rng xorshift128plus_next s)).
Proof.
  unfold ARIA_TEST.random_u128. pose proof (next_u64 s) as H1.
  destruct (xorshift128plus_next s) as [l s1]. pose proof (next_u64 s1) as H2.
  destruct (xorshift128plus_next s1) as [r s2]. now split.
Qed.

Lemma memcmp_is_0_refl (x : aria_u128_t) : ARIA_TEST.memcmp_is_0 x x = true.
Proof. unfold ARIA_TEST.memcmp_is_0. now rewrite !Z.eqb_refl. Qed.

Lemma stress_loop_no_errors (iterations : Z) :
  iterations < 2 ^ 32 ->
  forall fuel i s errors,
    0 <= i -> (Z.to_nat (iterations - i) <= fuel)%nat ->
    exists s',
      ARIA_TEST.stress_loop rng xorshift128plus_next fuel i iterations s errors
      = Some (errors, s').
Proof.
  intros Hit. induction fuel as [|fuel IH]; intros i s errors Hi Hf.
  - cbn [ARIA_TEST.stress_loop].
    destruct (Z.ltb_spec i iterations); [lia | now eexists].
  - cbn [ARIA_TEST.stress_loop].
    destruct (Z.ltb_spec i iterations) as [Hlt|]; [|now eexists].
    pose proof (wf128_random_u128 s) as HL.
    destruct (ARIA_TEST.random_u128 rng xorshift128plus_next s) as [KeyLeft s1].
    pose proof (wf128_random_u128 s1) as HR.
    destruct (ARIA_TEST.random_u128 rng xorshift128plus_next s1) as [KeyRight s2].
    pose proof (wf128_random_u128 s2) as HP.
    destruct (ARIA_TEST.random_u128 rng xorshift128plus_next s2) as [Plaintext s3].
    cbn [fst] in HL, HR, HP.
    destruct (decrypt_of_encrypt_256 KeyLeft KeyRight HL HR Plaintext HP)
      as (c & Hc & Hd).
    rewrite Hc. cbn [mbind option_bind]. rewrite Hd. cbn [mbind option_bind].
    rewrite memcmp_is_0_refl.
    replace (ARIA_TEST.uint32_t (i + 1)) with (i + 1)
      by (unfold ARIA_TEST.uint32_t; rewrite Z.mod_small; lia).
    apply IH; lia.
Qed.
End StressTestFacts.

(** X17 — The stress test of [main] never counts an error: whatever
    64-bit values the generator returns, every one of the iterations
    decrypts what it encrypted to the plaintext it started from, the loop
    ends, and [errors] is 0 at the end. *)
Theorem main_t_no_errors (rng : Type) (xorshift128plus_seed : Z -> rng -> rng)
    (xorshift128plus_next : rng -> Z * rng) (s : rng) :
  (forall s, is_u64 (fst (xorshift128plus_next s))) ->
  ARIA_TEST.main_t rng xorshift128plus_seed xorshift128plus_next s = Some 0.
Proof.
  intros Hnext. unfold ARIA_TEST.main_t.
  destruct (stress_loop_no_errors rng xorshift128plus_next Hnext
              ARIA_TEST.iterations ltac:(unfold ARIA_TEST.iterations; lia)
              (Z.to_nat ARIA_TEST.iterations) 0
              (xorshift128plus_seed 0x5a5a5a5a5a5a5a5a s) 0 ltac:(lia) ltac:(lia))
    as [s' ->].
  reflexivity.
Qed.

Lemma main_t_no_errors_witness :
  ARIA_TEST.main_t Z (fun x _ => x)
    (fun s => (s mod 2 ^ 64, s * 6364136223846793005 + 1)) 0
  = Some 0.
Proof.
  apply (main_t_no_errors Z (fun x _ => x)
           (fun s => (s mod 2 ^ 64, s * 6364136223846793005 + 1)) 0).
  intros s. unfold is_u64. cbn [fst]. apply Z.mod_pos_bound. lia.
Defined.

(** ** The self test and the printer of blocks *)

Lemma nibble_step (v w k : Z) :
  0 <= k -> 0 <= v -> 0 <= w ->
  (v >> k) .& 0xf = (w >> k) .& 0xf -> v >> (k + 4) = w >> (k + 4) ->
  v >> k = w >> k.
Proof.
  intros Hk Hv Hw Hn Hs. rewrite <- !Z.shiftr_shiftr in Hs by lia.
  change 0xf with (Z.ones 4) in Hn. rewrite !Z.land_ones in Hn by lia.
  rewrite !(Z.shiftr_div_pow2 _ 4) in Hs by lia.
  assert (Ha : 0 <= v >> k) by (apply Z.shiftr_nonneg; lia).
  assert (Hb : 0 <= w >> k) by (apply Z.shiftr_nonneg; lia).
  set (a := v >> k) in *. set (b := w >> k) in *. clearbody a b.
  change (2 ^ 4) with 16 in *.
  pose proof (Z.div_mod a 16 ltac:(lia)). pose proof (Z.div_mod b 16 ltac:(lia)).
  lia.
Qed.

(** A [uint64_t] is determined by its sixteen hexadecimal digits. *)
Lemma u64_ext_nibbles (v w : Z) :
  is_u64 v -> is_u64 w ->
  (forall k, In k [60; 56; 52; 48; 44; 40; 36; 32; 28; 24; 20; 16; 12; 8; 4; 0] ->
     (v >> k) .& 0xf = (w >> k) .& 0xf) ->
  v = w.
Proof.
  intros Hv Hw H. unfold is_u64 in Hv, Hw.
  assert (E64 : v >> 64 = w >> 64).
  { rewrite !Z.shiftr_div_pow2, !Z.div_small by lia. reflexivity. }
  rewrite <- (Z.shiftr_0_r v), <- (Z.shiftr_0_r w).
  apply nibble_step; [lia | lia | lia | apply H; simpl; tauto |]. cbn [Z.add Pos.add].
  do 15 (apply nibble_step; [lia | lia | lia | apply H; simpl; tauto |];
         cbn [Z.add Pos.add Pos.succ Pos.add_carry]).
  exact E64.
Qed.

Section PrinterFacts.
Import Ascii String.
Local Open Scope string_scope.

Lemma String_inj (c c' : ascii) (s s' : string) :
  String c s = String c' s' -> c = c' /\ s = s'.
Proof. intros [= -> ->]. now split. Qed.

Lemma hex_digit_inj (a b : Z) :
  0 <= a < 16 -> 0 <= b < 16 ->
  ARIA_TEST.hex_digit a = ARIA_TEST.hex_digit b -> a = b.
Proof.
  intros Ha Hb.
  assert (Ea : a = 0 \/ a = 1 \/ a = 2 \/ a = 3 \/ a = 4 \/ a = 5 \/ a = 6 \/ a = 7 \/
               a = 8 \/ a = 9 \/ a = 10 \/ a = 11 \/ a = 12 \/ a = 13 \/ a = 14 \/
               a = 15) by lia.
  assert (Eb : b = 0 \/ b = 1 \/ b = 2 \/ b = 3 \/ b = 4 \/ b = 5 \/ b = 6 \/ b = 7 \/
               b = 8 \/ b = 9 \/ b = 10 \/ b = 11 \/ b = 12 \/ b = 13 \/ b = 14 \/
               b = 15) by lia.
  clear Ha Hb.
  repeat (destruct Ea as [Ea|Ea]); subst a;
    repeat (destruct Eb as [Eb|Eb]); subst b;
    first [reflexivity | intros E; discriminate E].
Qed.

Lemma nibble_range (w k : Z) : 0 <= (w >> k) .& 0xf < 16.
Proof.
  change 0xf with (Z.ones 4). rewrite Z.land_ones by lia.
  apply Z.mod_pos_bound. lia.
Qed.

Lemma hex16_inj (v w : Z) :
  is_u64 v -> is_u64 w -> ARIA_TEST.hex16 v = ARIA_TEST.hex16 w -> v = w.
Proof.
  intros Hv Hw H. apply u64_ext_nibbles; [assumption | assumption |].
  cbv [ARIA_TEST.hex16 fold_right] in H.
  intros k Hk. apply hex_digit_inj; [apply nibble_range | apply nibble_range |].
  repeat (apply String_inj in H; destruct H as [Hd H];
          destruct Hk as [<-|Hk]; [exact Hd | clear Hd]).
  destruct Hk.
Qed.

Lemma append_String (c : ascii) (s t : string) :
  (String c s ++ t) = String c (s ++ t).
Proof. reflexivity. Qed.

Lemma hex16_append_inj (v w : Z) (s t : string) :
  ARIA_TEST.hex16 v ++ s = ARIA_TEST.hex16 w ++ t ->
  ARIA_TEST.hex16 v = ARIA_TEST.hex16 w /\ s = t.
Proof.
  cbv [ARIA_TEST.hex16 fold_right]. rewrite !append_String. cbn [append].
  intros H.
  repeat (apply String_inj in H; destruct H as [-> H]).
  now split.
Qed.

(** X18 — [print_aria_u128] writes to [stderr] one string of 42
    characters, and different blocks are printed differently: a failure
    report of the self test identifies the block that was computed. *)
Theorem print_aria_u128_injective (x y : aria_u128_t) :
  wf128 x -> wf128 y ->
  (exists s, ARIA_TEST.print_aria_u128 x = [(ARIA_TEST.stderr, s)] /\
             String.length s = 42%nat) /\
  (ARIA_TEST.print_aria_u128 x = ARIA_TEST.print_aria_u128 y -> x = y).
Proof.
  intros [Hxl Hxr] [Hyl Hyr]. split.
  - eexists. split; [reflexivity|]. reflexivity.
  - unfold ARIA_TEST.print_aria_u128. intros H.
    apply (f_equal (fun l => match l with (_, s) :: _ => s | _ => EmptyString end)) in H.
    cbv beta iota in H.
    rewrite ?append_String in H.
    do 4 (apply String_inj in H; destruct H as [_ H]).
    cbn [append] in H.
    apply hex16_append_inj in H. destruct H as [Hl H].
    rewrite ?append_String in H.
    do 4 (apply String_inj in H; destruct H as [_ H]).
    cbn [append] in H.
    apply hex16_append_inj in H. destruct H as [Hr _].
    destruct x as [xl xr], y as [yl yr]. cbn [left right] in *.
    f_equal; now apply hex16_inj.
Qed.

Lemma print_aria_u128_injective_witness :
  exists s, ARIA_TEST.print_aria_u128 test_Plaintext = [(ARIA_TEST.stderr, s)] /\
            String.length s = 42%nat.
Proof.
  exact (proj1 (print_aria_u128_injective test_Plaintext test_Plaintext
                  wf128_test_Plaintext wf128_test_Plaintext)).
Defined.

(** X19 — The self test passes: the [-s] branch of [main] writes the six
    lines [aria_encrypt_128 pass] .. [aria_decrypt_256 pass] to [stdout]
    and nothing to [stderr]; in particular the three decryptions of the
    ciphertexts of RFC 5794 give the plaintext back. *)
Theorem main_s_passes :
  ARIA_TEST.main_s
  = Some [(ARIA_TEST.stdout, "aria_encrypt_128 pass" ++ ARIA_TEST.newline);
          (ARIA_TEST.stdout, "aria_decrypt_128 pass" ++ ARIA_TEST.newline);
          (ARIA_TEST.stdout, "aria_encrypt_192 pass" ++ ARIA_TEST.newline);
          (ARIA_TEST.stdout, "aria_decrypt_192 pass" ++ ARIA_TEST.newline);
          (ARIA_TEST.stdout, "aria_encrypt_256 pass" ++ ARIA_TEST.newline);
          (ARIA_TEST.stdout, "aria_decrypt_256 pass" ++ ARIA_TEST.newline)].
Proof. vm_compute. reflexivity. Qed.

End PrinterFacts.
